(** * tokentools: format converters, counting and tokenization

    A shallow embedding of the core of the token studio page
    (counting primitives, approximate tokenizer, JSON / YAML-lite
    converters with their token-aware mode, the parse/convert step, the
    exact-tokenizer route and the tokenization effect), together with the
    properties the specification states about them.

    JavaScript strings are sequences of UTF-16 code units; they are
    modelled as lists of code units ([N]).  Platform functions the code
    calls ([JSON.stringify], [JSON.parse], [String.prototype.trim],
    [TextEncoder.encode], the regular expressions) are modelled after
    ECMAScript; functions of the repository keep their source names. *)

From Stdlib Require Import ZArith NArith List String Ascii Bool Lia.
From Stdlib Require Import DecimalFacts DecimalN.
From stdpp Require Import base option list gmap.
Import ListNotations.

Set Warnings "-register-all".
Set Default Proof Using "Type".

(** ** JavaScript strings and platform primitives *)

Module JS.

(** A string is a list of UTF-16 code units. *)
Abbreviation jsstring := (list N).

(** String literals of the source, written in ASCII. *)
Definition str (s : string) : jsstring :=
  map N_of_ascii (list_ascii_of_string s).

(** [!value] on a string: only the empty string is falsy. *)
Definition isEmpty (s : jsstring) : bool :=
  match s with [] => true | _ => false end.

Definition inRange (lo hi c : N) : bool := ((lo <=? c) && (c <=? hi))%N.

Definition isDigit (c : N) : bool := inRange 48 57 c.
Definition isUpper (c : N) : bool := inRange 65 90 c.
Definition isLower (c : N) : bool := inRange 97 122 c.

(** ECMAScript LineTerminator: LF, CR, U+2028, U+2029. *)
Definition isLineTerminator (c : N) : bool :=
  ((c =? 10) || (c =? 13) || (c =? 0x2028) || (c =? 0x2029))%N.

(** ECMAScript WhiteSpace or LineTerminator: the class [\s] of regular
    expressions, and what [trim] strips. *)
Definition isWhiteSpace (c : N) : bool :=
  (inRange 9 13 c || (c =? 32) || (c =? 0xA0) || (c =? 0x1680)
   || inRange 0x2000 0x200A c || (c =? 0x2028) || (c =? 0x2029)
   || (c =? 0x202F) || (c =? 0x205F) || (c =? 0x3000) || (c =? 0xFEFF))%N.

Definition isHighSurrogate (c : N) : bool := inRange 0xD800 0xDBFF c.
Definition isLowSurrogate (c : N) : bool := inRange 0xDC00 0xDFFF c.

(** UTF-8 bytes of one code point. *)
Definition utf8OfCodePoint (cp : N) : list N :=
  (if cp <? 0x80 then [cp]
   else if cp <? 0x800 then [0xC0 + cp / 64; 0x80 + cp mod 64]
   else if cp <? 0x10000 then
     [0xE0 + cp / 4096; 0x80 + (cp / 64) mod 64; 0x80 + cp mod 64]
   else
     [0xF0 + cp / 262144; 0x80 + (cp / 4096) mod 64;
      0x80 + (cp / 64) mod 64; 0x80 + cp mod 64])%N.

(** [new TextEncoder().encode(s)]: the string is read as code points
    (a high surrogate followed by a low one is one code point, a lone
    surrogate becomes U+FFFD) and each is encoded in UTF-8. *)
Fixpoint TextEncoder_encode (s : jsstring) : list N :=
  match s with
  | [] => []
  | c :: tl =>
      if isHighSurrogate c then
        match tl with
        | d :: tl' =>
            if isLowSurrogate d then
              utf8OfCodePoint (0x10000 + (c - 0xD800) * 0x400 + (d - 0xDC00))%N
                ++ TextEncoder_encode tl'
            else utf8OfCodePoint 0xFFFD ++ TextEncoder_encode tl
        | [] => utf8OfCodePoint 0xFFFD
        end
      else if isLowSurrogate c then
        utf8OfCodePoint 0xFFFD ++ TextEncoder_encode tl
      else utf8OfCodePoint c ++ TextEncoder_encode tl
  end.

(** [Math.ceil(a / b)] on non-negative integers. *)
Definition Math_ceil_div (a b : nat) : nat :=
  if a mod b =? 0 then a / b else S (a / b).

(** [s.repeat(n)]. *)
Fixpoint repeat_ (s : jsstring) (n : nat) : jsstring :=
  match n with
  | 0 => []
  | S k => s ++ repeat_ s k
  end.

(** [parts.join(sep)]. *)
Fixpoint join (sep : jsstring) (parts : list jsstring) : jsstring :=
  match parts with
  | [] => []
  | [p] => p
  | p :: rest => p ++ sep ++ join sep rest
  end.

(** [s.toLowerCase()] on the ASCII range; the callers modelled here
    only lowercase strings already known to be ASCII words. *)
Definition toLowerCase (s : jsstring) : jsstring :=
  map (fun c => if isUpper c then (c + 32)%N else c) s.

(** The global environment the page code inspects with
    [typeof window]: absent ([undefined]) while rendering on the
    server, present in the browser. *)
Record Env := { windowDefined : bool }.

Definition browser : Env := {| windowDefined := true |}.
Definition server : Env := {| windowDefined := false |}.

End JS.
Import JS.

(** ** Counting primitives and the approximate token count *)

Record Counts := { chars : nat; bytes : nat }.

(** [calculateCounts] of the page. *)
Definition calculateCounts (env : Env) (value : jsstring) : Counts :=
  if isEmpty value then {| chars := 0; bytes := 0 |}
  else
    let chars := length value in
    let bytes :=
      if negb (windowDefined env) then chars
      else length (TextEncoder_encode value) in
    {| chars := chars; bytes := bytes |}.

(** [approximateTokensFromText] of the page. *)
Definition approximateTokensFromText (env : Env) (text : jsstring) : nat :=
  if isEmpty text then 0
  else
    let bytes :=
      if negb (windowDefined env) then length text
      else length (TextEncoder_encode text) in
    Nat.max 1 (Math_ceil_div bytes 4).

(** The UTF-8 encoded size the specification speaks of. *)
Definition utf8ByteLength (s : jsstring) : nat := length (TextEncoder_encode s).

Definition isAscii (s : jsstring) : bool := forallb (fun c => (c <? 128)%N) s.

(** The letter e with acute accent is the single code unit U+00E9. *)
Definition e_acute : jsstring := [0xE9%N].

(** ** Doubles *)

Module Double.
Local Open Scope Z_scope.

(** A finite double other than zero is [m * 2^e] with [m] and [e] in
    canonical form: a normal number has [2^52 <= m < 2^53] and
    [-1074 <= e <= 971], a subnormal one [0 < m < 2^52] and
    [e = -1074]. *)
Definition canonical (m e : Z) : bool :=
  ((2 ^ 52 <=? m) && (m <? 2 ^ 53) && (-1074 <=? e) && (e <=? 971))
  || ((0 <? m) && (m <? 2 ^ 52) && (e =? -1074)).

(** [m * 2^e] is an integer of magnitude at most [2^53]. *)
Definition isSafeInteger (m e : Z) : bool :=
  if 0 <=? e then m * 2 ^ e <=? 2 ^ 53 else m mod 2 ^ (- e) =? 0.

Definition integerValue (m e : Z) : Z :=
  if 0 <=? e then m * 2 ^ e else m / 2 ^ (- e).

(** The outcome of rounding a non-negative real number to a double. *)
Inductive Rounded :=
| RZero
| RFinite (m e : Z)
| ROverflow.

(** The integer nearest to [a / b], the even one of two that are equally
    near. *)
Definition roundHalfEven (a b : Z) : Z :=
  let q := a / b in
  let r := a mod b in
  if 2 * r <? b then q
  else if b <? 2 * r then q + 1
  else if Z.even q then q else q + 1.

(** The double nearest to [num / den], ties to the even significand
    (IEEE 754 roundTiesToEven), for [0 <= num] and [0 < den].  All
    exponents are taken relative to [2^-1076], a quarter of the least
    subnormal, which keeps them non-negative. *)
Definition roundQ (num den : Z) : Rounded :=
  let a := num * 2 ^ 1076 in
  let e' := if a <? 2 ^ 54 * den then 2 else Z.log2 (a / den) - 52 in
  let m := roundHalfEven a (den * 2 ^ e') in
  let e := e' - 1076 in
  if m =? 0 then RZero
  else if m =? 2 ^ 53 then
    if 971 <=? e then ROverflow else RFinite (2 ^ 52) (e + 1)
  else if 971 <? e then ROverflow
  else RFinite m e.

(** [num / den] lies in the interval of the reals that round to the
    canonical double [m * 2^e]: between the midpoints to its two
    neighbours, the midpoints included exactly when [m] is even.  The
    lower neighbour of a power of two above the least normal number is
    half as far away. *)
Definition roundsTo (num den m e : Z) : bool :=
  let a := num * 2 ^ 1076 in
  let quarter := den * 2 ^ (e + 1074) in
  let half := 2 * quarter in
  let upper :=
    if Z.even m then a <=? (2 * m + 1) * half else a <? (2 * m + 1) * half in
  let lower :=
    if (m =? 2 ^ 52) && (-1074 <? e) then (4 * m - 1) * quarter <=? a
    else if Z.even m then (2 * m - 1) * half <=? a
    else (2 * m - 1) * half <? a in
  lower && upper.

End Double.
Import Double.

(** ** JSON values, [JSON.stringify] *)

Module Json.

(** Number values: the doubles other than [NaN], which JSON cannot
    denote.  [Finite n] is an integer of magnitude at most [2^53];
    [Binary negative m e] is any other finite double, [m * 2^e] in
    canonical form, negated if [negative]; [Infinity] is what
    [JSON.parse] returns for literals beyond the double range.  [-0] is
    identified with [0] (as [===] does). *)
Inductive number :=
| Finite (n : Z)
| Infinity (negative : bool)
| Binary (negative : bool) (m e : Z).

(** The decoded JSON value: [Object.entries] order is the order of the
    association list. *)
Inductive value :=
| JNull
| JBool (b : bool)
| JNumber (n : number)
| JString (s : jsstring)
| JArray (items : list value)
| JObject (props : list (jsstring * value)).

Fixpoint height (v : value) : nat :=
  match v with
  | JArray items => S (foldr (fun x h => Nat.max (height x) h) 0 items)
  | JObject props => S (foldr (fun kv h => Nat.max (height (snd kv)) h) 0 props)
  | _ => 0
  end.

(** [typeof v] is [object] (true of [null], arrays and objects). *)
Definition typeofObject (v : value) : bool :=
  match v with
  | JNull | JArray _ | JObject _ => true
  | _ => false
  end.

Definition isNull (v : value) : bool :=
  match v with JNull => true | _ => false end.

Fixpoint uintToString (u : Decimal.uint) : jsstring :=
  match u with
  | Decimal.Nil => []
  | Decimal.D0 u => 48%N :: uintToString u
  | Decimal.D1 u => 49%N :: uintToString u
  | Decimal.D2 u => 50%N :: uintToString u
  | Decimal.D3 u => 51%N :: uintToString u
  | Decimal.D4 u => 52%N :: uintToString u
  | Decimal.D5 u => 53%N :: uintToString u
  | Decimal.D6 u => 54%N :: uintToString u
  | Decimal.D7 u => 55%N :: uintToString u
  | Decimal.D8 u => 56%N :: uintToString u
  | Decimal.D9 u => 57%N :: uintToString u
  end.

(** Decimal digits of a non-negative integer. *)
Definition digits (n : N) : jsstring := uintToString (N.to_uint n).

(** The exact decimal expansion of the double [x = m * 2^e]: the
    integer [x * 10^1074]. *)
Definition exactDecimal (m e : Z) : Z := (m * 2 ^ (e + 1074) * 5 ^ 1074)%Z.

(** The decimal [s * 10^E] rounds to the double [m * 2^e]. *)
Definition decimalRoundsTo (s E m e : Z) : bool :=
  if (0 <=? E)%Z then Double.roundsTo (s * 10 ^ E) 1 m e
  else Double.roundsTo s (10 ^ (- E)) m e.

(** The search of Number::toString for the least number [k] of digits
    with a [k]-digit decimal that rounds to the double: [X] is the exact
    expansion and [L] the number of its digits, so that its first [k]
    digits, and that number plus one, are the [k]-digit decimals on
    either side of the double.  Of two that round to it the nearer is
    taken, the even one if they are equally near.  The result is
    [(s, E)] for the decimal [s * 10^E]; the search ends at the latest
    with all [L] digits, which denote the double itself. *)
Fixpoint shortestFrom (fuel k : nat) (X : Z) (L : nat) (m e : Z) : Z * Z :=
  match fuel with
  | O => (X, -1074)%Z
  | S fuel' =>
      let P := (10 ^ Z.of_nat (L - k))%Z in
      let E := (Z.of_nat (L - k) - 1074)%Z in
      let lo := (X / P)%Z in
      let up :=
        if (lo + 1 =? 10 ^ Z.of_nat k)%Z then (1, E + Z.of_nat k)%Z
        else (lo + 1, E)%Z in
      let okLo := decimalRoundsTo lo E m e in
      let okUp := decimalRoundsTo (fst up) (snd up) m e in
      let nearerLo :=
        let r := (X mod P)%Z in
        ((2 * r <? P) || ((2 * r =? P) && Z.even lo))%Z in
      if okLo && (negb okUp || nearerLo) then (lo, E)
      else if okUp then up
      else shortestFrom fuel' (S k) X L m e
  end.

Definition shortest (m e : Z) : Z * Z :=
  let X := exactDecimal m e in
  let L := length (digits (Z.to_N X)) in
  shortestFrom L 1 X L m e.

(** The five layouts of Number::toString for the digits [ds] of [s] and
    the exponent [n] (the value is [0.ds * 10^n]): an integer padded
    with zeros, a decimal point inside the digits, [0.] and zeros before
    them, and the two exponent forms. *)
Definition formatDecimal (ds : jsstring) (n : Z) : jsstring :=
  let k := Z.of_nat (length ds) in
  if ((k <=? n) && (n <=? 21))%Z then ds ++ repeat 48%N (Z.to_nat (n - k))
  else if ((0 <? n) && (n <=? 21))%Z then
    take (Z.to_nat n) ds ++ [46%N] ++ drop (Z.to_nat n) ds
  else if ((-6 <? n) && (n <=? 0))%Z then
    [48%N; 46%N] ++ repeat 48%N (Z.to_nat (- n)) ++ ds
  else
    let exponent :=
      [101%N; if (n - 1 <? 0)%Z then 45%N else 43%N]
        ++ digits (Z.abs_N (n - 1)) in
    match ds with
    | [] => []
    | [d] => d :: exponent
    | d :: rest => d :: 46%N :: rest ++ exponent
    end.

(** [Number::toString] ([String(n)]). *)
Definition Number_toString (n : number) : jsstring :=
  match n with
  | Finite z =>
      if (z <? 0)%Z then 45%N :: digits (Z.abs_N z) else digits (Z.abs_N z)
  | Infinity false => str "Infinity"
  | Infinity true => str "-Infinity"
  | Binary negative m e =>
      let '(s, E) := shortest m e in
      let ds := digits (Z.to_N s) in
      (if negative then [45%N] else [])
        ++ formatDecimal ds (E + Z.of_nat (length ds))
  end.

Definition hexDigit (d : N) : N := (if d <? 10 then 48 + d else 87 + d)%N.

(** The six-character escape of a code unit, with lowercase hex digits. *)
Definition unicodeEscape (c : N) : jsstring :=
  [92; 117; hexDigit (c / 4096); hexDigit ((c / 256) mod 16);
   hexDigit ((c / 16) mod 16); hexDigit (c mod 16)]%N.

(** One code unit that is not a surrogate, as QuoteJSONString writes it. *)
Definition escapeUnit (c : N) : jsstring :=
  (if c =? 8 then [92; 98]
   else if c =? 9 then [92; 116]
   else if c =? 10 then [92; 110]
   else if c =? 12 then [92; 102]
   else if c =? 13 then [92; 114]
   else if c =? 34 then [92; 34]
   else if c =? 92 then [92; 92]
   else if c <? 32 then unicodeEscape c
   else [c])%N.

Fixpoint quoteBody (s : jsstring) : jsstring :=
  match s with
  | [] => []
  | c :: tl =>
      if isHighSurrogate c then
        match tl with
        | d :: tl' =>
            if isLowSurrogate d then c :: d :: quoteBody tl'
            else unicodeEscape c ++ quoteBody tl
        | [] => unicodeEscape c
        end
      else if isLowSurrogate c then unicodeEscape c ++ quoteBody tl
      else escapeUnit c ++ quoteBody tl
  end.

(** QuoteJSONString: [JSON.stringify] of a string. *)
Definition QuoteJSONString (s : jsstring) : jsstring :=
  34%N :: quoteBody s ++ [34%N].

(** The third argument of [JSON.stringify]. *)
Inductive Space :=
| SpaceUndefined
| SpaceNumber (n : nat)
| SpaceString (s : jsstring).

Definition gapOf (space : Space) : jsstring :=
  match space with
  | SpaceUndefined => []
  | SpaceNumber n => repeat_ [32%N] (Nat.min 10 n)
  | SpaceString s => take 10 s
  end.

(** A replacer function [(key, val) => ...]. *)
Definition Replacer := jsstring -> value -> value.

Definition applyReplacer (r : option Replacer) (key : jsstring) (v : value) : value :=
  match r with
  | Some f => f key v
  | None => v
  end.

Definition wrap (open close gap stepback indent : jsstring)
    (partial : list jsstring) : jsstring :=
  match partial with
  | [] => open ++ close
  | _ =>
      if isEmpty gap then open ++ join [44%N] partial ++ close
      else
        open ++ [10%N] ++ indent ++ join ([44; 10]%N ++ indent) partial
          ++ [10%N] ++ stepback ++ close
  end.

(** All-or-nothing sequencing of partial results. *)
Fixpoint sequence {A} (l : list (option A)) : option (list A) :=
  match l with
  | [] => Some []
  | x :: tl =>
      match x, sequence tl with
      | Some a, Some r => Some (a :: r)
      | _, _ => None
      end
  end.

(** SerializeJSONProperty, SerializeJSONArray and SerializeJSONObject.
    The replacer is applied to every property value (the root under the
    empty key, array elements under their index) before it is
    serialized; since a replacer may return any value, the recursion is
    bounded by [fuel], and [None] means the bound was reached. *)
Fixpoint SerializeJSONProperty (fuel : nat) (r : option Replacer)
    (gap indent key : jsstring) (v : value) : option jsstring :=
  match fuel with
  | 0 => None
  | S fuel =>
      match applyReplacer r key v with
      | JNull => Some (str "null")
      | JBool true => Some (str "true")
      | JBool false => Some (str "false")
      | JString s => Some (QuoteJSONString s)
      | JNumber (Finite z) => Some (Number_toString (Finite z))
      | JNumber (Infinity _) => Some (str "null")
      | JNumber (Binary negative m e) =>
          Some (Number_toString (Binary negative m e))
      | JArray items =>
          let stepback := indent in
          let indent := indent ++ gap in
          partial ← sequence
            (imap (fun i item =>
                     SerializeJSONProperty fuel r gap indent (digits (N.of_nat i)) item)
                  items);
          Some (wrap [91%N] [93%N] gap stepback indent partial)
      | JObject props =>
          let stepback := indent in
          let indent := indent ++ gap in
          partial ← sequence
            (map (fun kv =>
                    strP ← SerializeJSONProperty fuel r gap indent (fst kv) (snd kv);
                    Some (QuoteJSONString (fst kv) ++ [58%N]
                            ++ (if isEmpty gap then [] else [32%N]) ++ strP))
                 props);
          Some (wrap [123%N] [125%N] gap stepback indent partial)
      end
  end.

(** [JSON.stringify(value, replacer, space)]. *)
Definition JSON_stringify (fuel : nat) (v : value) (r : option Replacer)
    (space : Space) : option jsstring :=
  SerializeJSONProperty fuel r (gapOf space) [] [] v.

End Json.
Import Json.

(** ** String helpers used by the converters *)

(** [a === b] on strings. *)
Definition strEq (a b : jsstring) : bool := bool_decide (a = b).

(** [list.includes(x)] on an array of strings. *)
Definition includes (l : list jsstring) (x : jsstring) : bool :=
  existsb (strEq x) l.

(** [s.includes] of a newline. *)
Definition includesNewline (s : jsstring) : bool := existsb (N.eqb 10) s.

(** [s.split] at newlines: never empty, the last piece may be empty. *)
Fixpoint splitLines (s : jsstring) : list jsstring :=
  match s with
  | [] => [[]]
  | c :: tl =>
      if (c =? 10)%N then [] :: splitLines tl
      else
        match splitLines tl with
        | cur :: rest => (c :: cur) :: rest
        | [] => [[c]]
        end
  end.

(** [s.replace(/\n/g, by)], for a replacement without [$] patterns. *)
Definition replaceNewlines (by_ : jsstring) (s : jsstring) : jsstring :=
  flat_map (fun c => if (c =? 10)%N then by_ else [c]) s.

Fixpoint stripPrefix (p s : jsstring) : option jsstring :=
  match p, s with
  | [], _ => Some s
  | a :: p', b :: s' => if (a =? b)%N then stripPrefix p' s' else None
  | _ :: _, [] => None
  end.

(** ** The bare-word rule *)

(** The character class [[a-zA-Z0-9_-]]. *)
Definition isBareChar (c : N) : bool :=
  (isLower c || isUpper c || isDigit c || (c =? 95) || (c =? 45))%N.

(** [/^[a-zA-Z0-9_-]+$/.test(s)]. *)
Definition testBareWord (s : jsstring) : bool :=
  negb (isEmpty s) && forallb isBareChar s.

Definition reserved : list jsstring :=
  map str ["true"; "false"; "null"; "yes"; "no"; "on"; "off"; "true"; "~"]%string.

(** [isReservedYamlWord] of the page. *)
Definition isReservedYamlWord (word : jsstring) : bool :=
  includes reserved (toLowerCase word).

(** The condition both converters test on a string value. *)
Definition isSafeBareWord (s : jsstring) : bool :=
  testBareWord s && negb (isReservedYamlWord s).

(** The rule in the specification's words: one or more ASCII letters,
    digits, underscores or hyphens, whose lowercased form is not one of
    the reserved words. *)
Definition specWordChar (c : N) : Prop :=
  (65 <= c <= 90 \/ 97 <= c <= 122 \/ 48 <= c <= 57 \/ c = 95 \/ c = 45)%N.

Definition specReserved : list jsstring :=
  map str ["true"; "false"; "null"; "yes"; "no"; "on"; "off"; "~"]%string.

Definition specBareWord (s : jsstring) : Prop :=
  s <> [] /\ Forall specWordChar s /\ ~ In (toLowerCase s) specReserved.

(** ** YAML-lite *)

(** [jsonToYamlLite] of the page. *)
Fixpoint jsonToYamlLite (value : value) (indent : nat) (tokenAware : bool)
    : jsstring :=
  let space := repeat_ (str "  ") indent in
  match value with
  | JString s =>
      if tokenAware && testBareWord s && negb (isReservedYamlWord s) then s
      else QuoteJSONString s
  | JNull => str "null"
  | JBool true => str "true"
  | JBool false => str "false"
  | JNumber n => Number_toString n
  | JArray items =>
      match items with
      | [] => str "[]"
      | _ =>
          join [10%N]
            (map (fun item =>
                    let nested := jsonToYamlLite item (indent + 1) tokenAware in
                    if typeofObject item && negb (isNull item)
                       && includesNewline nested
                    then
                      space ++ str "- " ++ hd [] (splitLines nested) ++ [10%N]
                        ++ join [10%N]
                             (map (fun line => str "  " ++ line)
                                  (tail (splitLines nested)))
                    else space ++ str "- " ++ nested)
                 items)
      end
  | JObject entries =>
      match entries with
      | [] => str "{}"
      | _ =>
          join [10%N]
            (map (fun kv =>
                    let key := fst kv in
                    let val := snd kv in
                    let nested := jsonToYamlLite val (indent + 1) tokenAware in
                    if negb (isNull val) && typeofObject val then
                      space ++ key ++ str ":" ++ [10%N]
                        ++ repeat_ (str "  ") (indent + 1)
                        ++ replaceNewlines
                             ([10%N] ++ repeat_ (str "  ") (indent + 1)) nested
                    else space ++ key ++ str ": " ++ nested)
                 entries)
      end
  end.

(** The layout of [jsonToYamlLite] with the text of a string value left
    open: line by line the function above, with [leaf s] where it writes
    a string value [s]. *)
Fixpoint yamlLayout (leaf : jsstring -> jsstring) (value : value) (indent : nat)
    : jsstring :=
  let space := repeat_ (str "  ") indent in
  match value with
  | JString s => leaf s
  | JNull => str "null"
  | JBool true => str "true"
  | JBool false => str "false"
  | JNumber n => Number_toString n
  | JArray items =>
      match items with
      | [] => str "[]"
      | _ =>
          join [10%N]
            (map (fun item =>
                    let nested := yamlLayout leaf item (indent + 1) in
                    if typeofObject item && negb (isNull item)
                       && includesNewline nested
                    then
                      space ++ str "- " ++ hd [] (splitLines nested) ++ [10%N]
                        ++ join [10%N]
                             (map (fun line => str "  " ++ line)
                                  (tail (splitLines nested)))
                    else space ++ str "- " ++ nested)
                 items)
      end
  | JObject entries =>
      match entries with
      | [] => str "{}"
      | _ =>
          join [10%N]
            (map (fun kv =>
                    let key := fst kv in
                    let val := snd kv in
                    let nested := yamlLayout leaf val (indent + 1) in
                    if negb (isNull val) && typeofObject val then
                      space ++ key ++ str ":" ++ [10%N]
                        ++ repeat_ (str "  ") (indent + 1)
                        ++ replaceNewlines
                             ([10%N] ++ repeat_ (str "  ") (indent + 1)) nested
                    else space ++ key ++ str ": " ++ nested)
                 entries)
      end
  end.

(** A string value as the specification has token-aware mode write it:
    as it is when it satisfies the bare-word rule, as a quoted JSON
    string otherwise. *)
Definition specLeaf (leaf : jsstring -> jsstring) : Prop :=
  forall s, (specBareWord s -> leaf s = s)
            /\ (~ specBareWord s -> leaf s = QuoteJSONString s).

(** ** Token-aware JSON *)

Definition marker : jsstring := str "__UNQUOTED__".

(** The lazy [.+?] followed by the literal [lit]: one or more characters
    other than line terminators, as few as possible, then [lit].
    Returns the capture and what follows the match. *)
Fixpoint lazyDotThen (lit : jsstring) (s : jsstring)
    : option (jsstring * jsstring) :=
  match s with
  | [] => None
  | c :: tl =>
      if isLineTerminator c then None
      else
        match stripPrefix lit tl with
        | Some rest => Some ([c], rest)
        | None =>
            match lazyDotThen lit tl with
            | Some (cap, rest) => Some (c :: cap, rest)
            | None => None
            end
        end
  end.

(** The pattern of the post-pass (a double quote, [__UNQUOTED__], the
    group [(.+?)], [__] and a double quote) tried at the head of [s]: the
    capture group and the length of the whole match. *)
Definition matchUnquoted (s : jsstring) : option (jsstring * nat) :=
  match stripPrefix (34%N :: marker) s with
  | None => None
  | Some rest =>
      match lazyDotThen (str "__" ++ [34%N]) rest with
      | None => None
      | Some (cap, _) => Some (cap, length (34%N :: marker) + length cap + 3)
      end
  end.

(** The post-pass [.replace(pattern, '$1')] with the global flag: the
    string is scanned from the left; where the pattern matches, the match
    is replaced by its capture group and the scan resumes after the match
    ([skip] counts the characters of the current match still to be passed
    over). *)
Fixpoint replaceUnquotedFrom (skip : nat) (s : jsstring) : jsstring :=
  match s with
  | [] => []
  | c :: tl =>
      match skip with
      | S k => replaceUnquotedFrom k tl
      | 0 =>
          match matchUnquoted s with
          | Some (cap, len) => cap ++ replaceUnquotedFrom (len - 1) tl
          | None => c :: replaceUnquotedFrom 0 tl
          end
      end
  end.

Definition replaceUnquoted (s : jsstring) : jsstring := replaceUnquotedFrom 0 s.

(** The replacer [jsonStringify] hands to [JSON.stringify]. *)
Definition unquotedReplacer : Replacer :=
  fun key val =>
    match val with
    | JString s =>
        if testBareWord s && negb (isReservedYamlWord s)
        then JString (marker ++ s ++ str "__")
        else val
    | _ => val
    end.

(** [jsonStringify] of the page.  The recursion of [JSON.stringify] is
    given the height of the value as its bound; [jsonStringify_total]
    shows that the bound is never reached. *)
Definition jsonStringify (value : value) (tokenAware : bool) (indent : Space)
    : option jsstring :=
  if negb tokenAware then JSON_stringify (S (height value)) value None indent
  else
    s ← JSON_stringify (S (height value)) value (Some unquotedReplacer) indent;
    Some (replaceUnquoted s).

(** ** The approximate tokenizer *)

Record Token := {
  id : option nat;
  text : jsstring;
  start : nat;
  end_ : nat
}.

(** The second class of the tokenizer's pattern: ASCII letters and
    digits, underscore, hyphen, double quote, apostrophe and at-sign. *)
Definition isTokenWordChar (c : N) : bool :=
  (isUpper c || isLower c || isDigit c || (c =? 95) || (c =? 45)
   || (c =? 34) || (c =? 39) || (c =? 64))%N.

(** The third class: anything neither in [\s] nor in the second class. *)
Definition isTokenOtherChar (c : N) : bool :=
  negb (isWhiteSpace c || isTokenWordChar c).

Fixpoint takeWhile (p : N -> bool) (s : jsstring) : jsstring :=
  match s with
  | [] => []
  | c :: tl => if p c then c :: takeWhile p tl else []
  end.

(** A greedy [[class]+] at the head of [s]. *)
Definition plusClass (p : N -> bool) (s : jsstring) : option jsstring :=
  match takeWhile p s with
  | [] => None
  | m => Some m
  end.

(** The tokenizer's pattern (a run of [\s], or a run of the second
    class, or a run of the third) tried at the head of [s], alternatives
    in order. *)
Definition tokenRegexAt (s : jsstring) : option jsstring :=
  match plusClass isWhiteSpace s with
  | Some m => Some m
  | None =>
      match plusClass isTokenWordChar s with
      | Some m => Some m
      | None => plusClass isTokenOtherChar s
      end
  end.

(** [/^\s+$/.test(t)]. *)
Definition testAllWhiteSpace (t : jsstring) : bool :=
  negb (isEmpty t) && forallb isWhiteSpace t.

(** The loop [while ((m = regex.exec(text)))] of [simpleTokenize]: [s] is
    the text from offset [pos] on, [skip] the number of characters up to
    the pattern's [lastIndex]; where the pattern does not match, [exec]
    moves on to the next offset. *)
Fixpoint tokenizeFrom (skip pos : nat) (s : jsstring)
    (idMap : gmap (list N) nat) (nextId : nat) : list Token :=
  match s with
  | [] => []
  | c :: tl =>
      match skip with
      | S k => tokenizeFrom k (S pos) tl idMap nextId
      | 0 =>
          match tokenRegexAt s with
          | None => tokenizeFrom 0 (S pos) tl idMap nextId
          | Some tokenText =>
              if testAllWhiteSpace tokenText then
                {| id := None; text := tokenText;
                   start := pos; end_ := pos + length tokenText |}
                  :: tokenizeFrom (length tokenText - 1) (S pos) tl idMap nextId
              else
                let '(idMap', nextId') :=
                  match idMap !! tokenText with
                  | Some _ => (idMap, nextId)
                  | None => (<[tokenText := nextId]> idMap, S nextId)
                  end in
                {| id := idMap' !! tokenText; text := tokenText;
                   start := pos; end_ := pos + length tokenText |}
                  :: tokenizeFrom (length tokenText - 1) (S pos) tl idMap' nextId'
          end
      end
  end.

(** [simpleTokenize] of the page. *)
Definition simpleTokenize (text : jsstring) : list Token :=
  if isEmpty text then [] else tokenizeFrom 0 0 text ∅ 1.

(** ** [String.prototype.trim] *)

Fixpoint dropWhile (p : N -> bool) (s : jsstring) : jsstring :=
  match s with
  | [] => []
  | c :: tl => if p c then dropWhile p tl else s
  end.

Definition trim (s : jsstring) : jsstring :=
  rev (dropWhile isWhiteSpace (rev (dropWhile isWhiteSpace s))).

(** ** [JSON.parse] *)

Module Parse.

(** Outcome of parsing: a result, a [SyntaxError], or the recursion
    bound of the model reached. *)
Inductive parsed (A : Type) :=
| Parsed (a : A)
| SyntaxError
| OutOfFuel.
Arguments Parsed {A} a.
Arguments SyntaxError {A}.
Arguments OutOfFuel {A}.

Definition bindP {A B} (m : parsed A) (k : A -> parsed B) : parsed B :=
  match m with
  | Parsed a => k a
  | SyntaxError => SyntaxError
  | OutOfFuel => OutOfFuel
  end.

(** JSON white space: tab, line feed, carriage return, space. *)
Definition isJsonWs (c : N) : bool :=
  ((c =? 9) || (c =? 10) || (c =? 13) || (c =? 32))%N.

Definition skipWs (s : jsstring) : jsstring := dropWhile isJsonWs s.

Definition hexValue (c : N) : option N :=
  (if isDigit c then Some (c - 48)
   else if inRange 97 102 c then Some (c - 87)
   else if inRange 65 70 c then Some (c - 55)
   else None)%N.

(** The character after a backslash, other than [u]. *)
Definition unescape (e : N) : option N :=
  (if e =? 34 then Some 34
   else if e =? 92 then Some 92
   else if e =? 47 then Some 47
   else if e =? 98 then Some 8
   else if e =? 102 then Some 12
   else if e =? 110 then Some 10
   else if e =? 114 then Some 13
   else if e =? 116 then Some 9
   else None)%N.

Definition consChar (c : N) (r : parsed (jsstring * jsstring))
    : parsed (jsstring * jsstring) :=
  bindP r (fun p => Parsed (c :: fst p, snd p)).

(** The characters of a string literal after its opening quote, up to
    and including the closing quote. *)
Fixpoint parseStringBody (s : jsstring) : parsed (jsstring * jsstring) :=
  match s with
  | [] => SyntaxError
  | c :: tl =>
      if (c =? 34)%N then Parsed ([], tl)
      else if (c =? 92)%N then
        match tl with
        | [] => SyntaxError
        | e :: tl' =>
            if (e =? 117)%N then
              match tl' with
              | h1 :: h2 :: h3 :: h4 :: rest =>
                  match hexValue h1, hexValue h2, hexValue h3, hexValue h4 with
                  | Some a, Some b, Some c', Some d =>
                      consChar (a * 4096 + b * 256 + c' * 16 + d)%N
                               (parseStringBody rest)
                  | _, _, _, _ => SyntaxError
                  end
              | _ => SyntaxError
              end
            else
              match unescape e with
              | Some u => consChar u (parseStringBody tl')
              | None => SyntaxError
              end
        end
      else if (c <? 32)%N then SyntaxError
      else consChar c (parseStringBody tl)
  end.

Fixpoint stringToUint (ds : jsstring) : Decimal.uint :=
  match ds with
  | [] => Decimal.Nil
  | c :: tl =>
      let u := stringToUint tl in
      (if c =? 48 then Decimal.D0 u
       else if c =? 49 then Decimal.D1 u
       else if c =? 50 then Decimal.D2 u
       else if c =? 51 then Decimal.D3 u
       else if c =? 52 then Decimal.D4 u
       else if c =? 53 then Decimal.D5 u
       else if c =? 54 then Decimal.D6 u
       else if c =? 55 then Decimal.D7 u
       else if c =? 56 then Decimal.D8 u
       else Decimal.D9 u)%N
  end.

(** The value of a run of decimal digits. *)
Definition digitsValue (ds : jsstring) : N := N.of_uint (stringToUint ds).

(** The number a rounded magnitude stands for, negated if [neg]. *)
Definition ofRounded (neg : bool) (r : Double.Rounded) : number :=
  match r with
  | Double.RZero => Finite 0
  | Double.ROverflow => Infinity neg
  | Double.RFinite m e =>
      if Double.isSafeInteger m e then
        Finite (if neg then - Double.integerValue m e
                else Double.integerValue m e)%Z
      else Binary neg m e
  end.

(** The Number value of the literal whose mathematical value is
    [num / den], negated if [neg]: the nearest double, an infinity
    beyond the double range. *)
Definition classify (neg : bool) (num den : N) : parsed number :=
  Parsed (ofRounded neg (Double.roundQ (Z.of_N num) (Z.of_N den))).

(** The integer part: a single [0], or a run of digits. *)
Definition intPart (s : jsstring) : jsstring :=
  match s with
  | c :: _ => if (c =? 48)%N then [c] else takeWhile isDigit s
  | [] => []
  end.

(** The fraction, if any: its digits and what follows it. *)
Definition fracPart (s : jsstring) : parsed (jsstring * jsstring) :=
  match s with
  | c :: tl =>
      if (c =? 46)%N then
        match takeWhile isDigit tl with
        | [] => SyntaxError
        | ds => Parsed (ds, drop (length ds) tl)
        end
      else Parsed ([], s)
  | [] => Parsed ([], s)
  end.

(** The exponent, if any: its value and what follows it. *)
Definition expPart (s : jsstring) : parsed (Z * jsstring) :=
  match s with
  | c :: tl =>
      if ((c =? 101) || (c =? 69))%N then
        let '(negative, tl') :=
          match tl with
          | sg :: tl' =>
              if (sg =? 45)%N then (true, tl')
              else if (sg =? 43)%N then (false, tl')
              else (false, tl)
          | [] => (false, tl)
          end in
        match takeWhile isDigit tl' with
        | [] => SyntaxError
        | ds =>
            let e := Z.of_N (digitsValue ds) in
            Parsed (if negative then (- e)%Z else e, drop (length ds) tl')
        end
      else Parsed (0%Z, s)
  | [] => Parsed (0%Z, s)
  end.

(** A number literal at the head of [s]. *)
Definition parseNumber (s : jsstring) : parsed (number * jsstring) :=
  let '(neg, s1) :=
    match s with
    | c :: tl => if (c =? 45)%N then (true, tl) else (false, s)
    | [] => (false, s)
    end in
  match intPart s1 with
  | [] => SyntaxError
  | ints =>
      bindP (fracPart (drop (length ints) s1)) (fun fr =>
      bindP (expPart (snd fr)) (fun ex =>
        let m := digitsValue (ints ++ fst fr) in
        let k := (fst ex - Z.of_nat (length (fst fr)))%Z in
        bindP (if (0 <=? k)%Z then classify neg (m * 10 ^ Z.to_N k) 1
               else classify neg m (10 ^ Z.to_N (- k)))
              (fun n => Parsed (n, snd ex))))
  end.

(** An array index: the canonical decimal form of an integer below
    [2^32 - 1]. *)
Definition arrayIndex (key : jsstring) : option N :=
  if forallb isDigit key && negb (isEmpty key) then
    let n := digitsValue key in
    if strEq (digits n) key && (n <=? 4294967294)%N then Some n else None
  else None.

Definition hasKey {V} (props : list (jsstring * V)) (key : jsstring) : bool :=
  existsb (fun kv => strEq (fst kv) key) props.

Definition setExisting {V} (props : list (jsstring * V)) (key : jsstring)
    (v : V) : list (jsstring * V) :=
  map (fun kv => if strEq (fst kv) key then (key, v) else kv) props.

Fixpoint insertIndex {V} (i : N) (key : jsstring) (v : V)
    (props : list (jsstring * V)) : list (jsstring * V) :=
  match props with
  | [] => [(key, v)]
  | kv :: tl =>
      match arrayIndex (fst kv) with
      | Some j =>
          if (i <? j)%N then (key, v) :: props
          else kv :: insertIndex i key v tl
      | None => (key, v) :: props
      end
  end.

(** Setting an own property of an ordinary object, in the order its own
    keys are enumerated afterwards: an existing key keeps its place and
    takes the new value; array indices come first, ascending; other keys
    follow in order of creation. *)
Definition objectSet {V} (props : list (jsstring * V)) (key : jsstring)
    (v : V) : list (jsstring * V) :=
  if hasKey props key then setExisting props key v
  else
    match arrayIndex key with
    | Some i => insertIndex i key v props
    | None => props ++ [(key, v)]
    end.

Definition literal (word : string) (v : value) (s : jsstring)
    : parsed (value * jsstring) :=
  match stripPrefix (str word) s with
  | Some rest => Parsed (v, rest)
  | None => SyntaxError
  end.

(** Recursive descent over the JSON grammar; [parseElements] and
    [parseMembers] read what follows the opening bracket of a non-empty
    array or object. *)
Fixpoint parseValue (fuel : nat) (s : jsstring) {struct fuel}
    : parsed (value * jsstring) :=
  match fuel with
  | 0 => OutOfFuel
  | S fuel =>
      match skipWs s with
      | [] => SyntaxError
      | c :: tl =>
          if (c =? 123)%N then
            match skipWs tl with
            | d :: rest =>
                if (d =? 125)%N then Parsed (JObject [], rest)
                else parseMembers fuel (d :: rest) []
            | [] => SyntaxError
            end
          else if (c =? 91)%N then
            match skipWs tl with
            | d :: rest =>
                if (d =? 93)%N then Parsed (JArray [], rest)
                else parseElements fuel (d :: rest) []
            | [] => SyntaxError
            end
          else if (c =? 34)%N then
            bindP (parseStringBody tl) (fun p => Parsed (JString (fst p), snd p))
          else if (c =? 110)%N then literal "null" JNull (c :: tl)
          else if (c =? 116)%N then literal "true" (JBool true) (c :: tl)
          else if (c =? 102)%N then literal "false" (JBool false) (c :: tl)
          else if ((c =? 45) || isDigit c)%N then
            bindP (parseNumber (c :: tl)) (fun p => Parsed (JNumber (fst p), snd p))
          else SyntaxError
      end
  end
with parseElements (fuel : nat) (s : jsstring) (acc : list value) {struct fuel}
    : parsed (value * jsstring) :=
  match fuel with
  | 0 => OutOfFuel
  | S fuel =>
      bindP (parseValue fuel s) (fun p =>
        match skipWs (snd p) with
        | d :: rest =>
            if (d =? 44)%N then parseElements fuel rest (acc ++ [fst p])
            else if (d =? 93)%N then Parsed (JArray (acc ++ [fst p]), rest)
            else SyntaxError
        | [] => SyntaxError
        end)
  end
with parseMembers (fuel : nat) (s : jsstring) (acc : list (jsstring * value))
    {struct fuel} : parsed (value * jsstring) :=
  match fuel with
  | 0 => OutOfFuel
  | S fuel =>
      match skipWs s with
      | q :: tl =>
          if (q =? 34)%N then
            bindP (parseStringBody tl) (fun k =>
              match skipWs (snd k) with
              | colon :: rest =>
                  if (colon =? 58)%N then
                    bindP (parseValue fuel rest) (fun p =>
                      match skipWs (snd p) with
                      | d :: rest' =>
                          if (d =? 44)%N then
                            parseMembers fuel rest' (objectSet acc (fst k) (fst p))
                          else if (d =? 125)%N then
                            Parsed (JObject (objectSet acc (fst k) (fst p)), rest')
                          else SyntaxError
                      | [] => SyntaxError
                      end)
                  else SyntaxError
              | [] => SyntaxError
              end)
          else SyntaxError
      | [] => SyntaxError
      end
  end.

(** [JSON.parse(text)] without a reviver.  The recursion bound is never
    reached ([JSON_parse_bounded]). *)
Definition JSON_parse (text : jsstring) : parsed value :=
  bindP (parseValue (S (2 * length text)) text) (fun p =>
    if isEmpty (skipWs (snd p)) then Parsed (fst p) else SyntaxError).

End Parse.
Import Parse.

(** ** Standard serialization, structurally *)

(** What [JSON.stringify] writes for a value when no replacer changes it,
    by recursion on the value; [quote] is how a string value is written.
    [SerializeJSONProperty_serialize] relates it to the bounded
    recursion above. *)
Fixpoint serialize (quote : jsstring -> jsstring) (gap indent : jsstring)
    (v : value) : jsstring :=
  match v with
  | JNull => str "null"
  | JBool true => str "true"
  | JBool false => str "false"
  | JString s => quote s
  | JNumber (Finite z) => Number_toString (Finite z)
  | JNumber (Infinity _) => str "null"
  | JNumber (Binary negative m e) => Number_toString (Binary negative m e)
  | JArray items =>
      wrap [91%N] [93%N] gap indent (indent ++ gap)
        (map (serialize quote gap (indent ++ gap)) items)
  | JObject props =>
      wrap [123%N] [125%N] gap indent (indent ++ gap)
        (map (fun kv =>
                QuoteJSONString (fst kv) ++ [58%N]
                  ++ (if isEmpty gap then [] else [32%N])
                  ++ serialize quote gap (indent ++ gap) (snd kv))
             props)
  end.

(** Standard JSON serialization with the given indentation. *)
Definition standardJson (v : value) (space : Space) : jsstring :=
  serialize QuoteJSONString (gapOf space) [] v.

(** The token-aware view in the specification's words: the standard
    serialization, except that a leaf string value satisfying the
    bare-word rule is written without its quotes. *)
Definition specTokenAwareJson (v : value) (space : Space) : jsstring :=
  serialize (fun s => if isSafeBareWord s then s else QuoteJSONString s)
            (gapOf space) [] v.

(** ** Values as [JSON.parse] builds them *)

(** [k1] may precede [k2] among the own keys of an object: array indices
    ascending, then the other keys. *)
Definition keyBefore (k1 k2 : jsstring) : Prop :=
  match arrayIndex k1, arrayIndex k2 with
  | Some i, Some j => (i < j)%N
  | Some _, None => True
  | None, None => True
  | None, Some _ => False
  end.

Fixpoint keysOrdered (keys : list jsstring) : Prop :=
  match keys with
  | [] => True
  | k :: tl => Forall (fun k' => k' <> k /\ keyBefore k k') tl /\ keysOrdered tl
  end.

(** Numbers are in the form [JSON.parse] gives them (an integer up to
    [2^53] in magnitude, an infinity, or another double in canonical
    form), and the keys of every object are distinct and in enumeration
    order. *)
Fixpoint wellFormed (v : value) : Prop :=
  match v with
  | JNumber (Finite z) => (Z.abs z <= 2 ^ 53)%Z
  | JNumber (Binary _ m e) =>
      Double.canonical m e = true /\ Double.isSafeInteger m e = false
  | JArray items => foldr (fun x P => wellFormed x /\ P) True items
  | JObject props =>
      keysOrdered (map fst props)
      /\ foldr (fun kv P => wellFormed (snd kv) /\ P) True props
  | _ => True
  end.

(** No number of the value is an infinity. *)
Fixpoint finiteNumbers (v : value) : bool :=
  match v with
  | JNumber (Infinity _) => false
  | JArray items => forallb finiteNumbers items
  | JObject props => forallb (fun kv => finiteNumbers (snd kv)) props
  | _ => true
  end.

(** No string value of the value satisfies the bare-word rule. *)
Fixpoint noBareWords (v : value) : bool :=
  match v with
  | JString s => negb (isSafeBareWord s)
  | JArray items => forallb noBareWords items
  | JObject props => forallb (fun kv => noBareWords (snd kv)) props
  | _ => true
  end.

(** ** The exact-tokenizer route *)

(** A token of the exact tokenizer: vocabulary id and decoded text. *)
Record ExactToken := { tokenId : N; tokenText : jsstring }.

(** [Record<string, Token[]>]: the token lists by output key. *)
Abbreviation TokenTable := (list (jsstring * list ExactToken)).

(** A call that returns or throws an error with a message ([None] when
    what is thrown is not an [Error]). *)
Inductive attempt (A : Type) :=
| Returned (a : A)
| Threw (message : option jsstring).
Arguments Returned {A} a.
Arguments Threw {A} message.

Module Route.

Inductive Payload :=
| ErrorPayload (error : jsstring)
| TokensPayload (model : jsstring) (tokens : TokenTable).

Record Response := { status : nat; payload : Payload }.

(** Whether the handler loaded the encoding, and released it. *)
Inductive EncodingUse := NotLoaded | LoadedAndFreed.

(** What a call of the handler comes to: a response, or the
    [TypeError] of destructuring [null], which the handler does not
    catch. *)
Inductive Outcome :=
| Responded (r : Response) (encoding : EncodingUse)
| Uncaught.

(** The request as the handler sees it: [json] is the value
    [req.json()] resolves to, [None] when it rejects. *)
Record Request := { json : option value }.

Definition cl100k_base : jsstring := str "cl100k_base".

(** [body.name] on a decoded JSON value ([None] is [undefined]). *)
Definition getProp (body : value) (name : jsstring) : option value :=
  match body with
  | JObject props =>
      match find (fun kv => strEq (fst kv) name) props with
      | Some kv => Some (snd kv)
      | None => None
      end
  | _ => None
  end.

(** Truthiness of a property value. *)
Definition truthy (v : option value) : bool :=
  match v with
  | None | Some JNull | Some (JBool false) => false
  | Some (JNumber (Finite z)) => negb (z =? 0)%Z
  | Some (JString s) => negb (isEmpty s)
  | _ => true
  end.

Definition typeofString (v : option value) : bool :=
  match v with Some (JString _) => true | _ => false end.

Definition typeofObjectOpt (v : option value) : bool :=
  match v with Some v => typeofObject v | None => false end.

(** A property value whose [typeof] is [string], as a string. *)
Definition stringOf (v : option value) : jsstring :=
  match v with Some (JString s) => s | _ => [] end.

(** [Object.entries] of a property value that is an object or array. *)
Definition entriesOf (v : option value) : list (jsstring * value) :=
  match v with
  | Some (JObject props) => props
  | Some (JArray items) => imap (fun i x => (digits (N.of_nat i), x)) items
  | _ => []
  end.

Definition bad (message : string) : Outcome :=
  Responded {| status := 400; payload := ErrorPayload (str message) |} NotLoaded.

Section WithEncoding.

(** The tokenizer library: [encoding.encode(text)] followed by the
    decoding of each id, which returns the tokens or throws. *)
Variable encodeText : value -> attempt (list ExactToken).

(** [resultTokens[key] = tokens] on the result object; assigning
    under the key [__proto__] creates no own property. *)
Definition assign (table : TokenTable) (key : jsstring)
    (tokens : list ExactToken) : TokenTable :=
  if strEq key (str "__proto__") then table
  else objectSet table key tokens.

(** The loop over [Object.entries(texts)]. *)
Fixpoint tokenizeEntries (entries : list (jsstring * value))
    (resultTokens : TokenTable) : attempt TokenTable :=
  match entries with
  | [] => Returned resultTokens
  | (key, text) :: rest =>
      if negb (truthy (Some text)) then
        tokenizeEntries rest (assign resultTokens key [])
      else
        match encodeText text with
        | Returned tokens =>
            tokenizeEntries rest (assign resultTokens key tokens)
        | Threw message => Threw message
        end
  end.

(** [POST] of the tokenize route. *)
Definition POST (req : Request) : Outcome :=
  match json req with
  | None => bad "Invalid JSON body"
  | Some JNull => Uncaught
  | Some body =>
      let model := getProp body (str "model") in
      let texts := getProp body (str "texts") in
      if negb (truthy model) || negb (typeofString model) then
        bad "Missing or invalid model"
      else if negb (truthy texts) || negb (typeofObjectOpt texts) then
        bad "Missing or invalid texts"
      else if negb (strEq (stringOf model) cl100k_base) then
        Responded
          {| status := 400;
             payload := ErrorPayload
                          (str "Unsupported model: " ++ stringOf model) |}
          NotLoaded
      else
        match tokenizeEntries (entriesOf texts) [] with
        | Threw message =>
            Responded
              {| status := 500;
                 payload := ErrorPayload
                              (match message with
                               | Some m => m
                               | None => str "Tokenization failed"
                               end) |}
              LoadedAndFreed
        | Returned resultTokens =>
            Responded
              {| status := 200;
                 payload := TokensPayload (stringOf model) resultTokens |}
              LoadedAndFreed
        end
  end.

(** The model identifier a request carries, if any. *)
Definition requestModel (req : Request) : option value :=
  match json req with
  | Some body => getProp body (str "model")
  | None => None
  end.

End WithEncoding.

End Route.

(** ** The tokenization effect of the page *)

Module Effect.

(** The state the effect writes with [setExactTokens],
    [setIsTokenizing] and [setTokenizeError]. *)
Record Shared := {
  exactTokens : TokenTable;
  isTokenizing : bool;
  tokenizeError : jsstring
}.

(** Where the asynchronous [run] of one effect instance stands: waiting
    for [fetch], for [res.json()] of a successful response, for
    [res.json()] of an unsuccessful one, or finished. *)
Inductive Phase := AwaitFetch | AwaitBody | AwaitErrorBody | Finished.

(** One instance of the effect that issued a request: its own
    [cancelled] flag, whether its controller was aborted, and the phase
    of its [run]. *)
Record Run := { cancelled : bool; aborted : bool; phase : Phase }.

(** [current] is the instance whose cleanup React holds, if any. *)
Record State := {
  shared : Shared;
  runs : list Run;
  current : option nat
}.

(** The dependencies of the effect. *)
Record Deps := {
  prettyJson : jsstring;
  minifiedJson : jsstring;
  yaml : jsstring;
  toon : jsstring;
  tokenizationModel : jsstring;
  showTokens : bool;
  showCounts : bool
}.

(** How a pending promise of a [run] settles. *)
Inductive Settled :=
| FetchOk
| FetchNotOk
| Rejected (abortError : bool) (message : option jsstring)
| BodyParsed (tokens : option TokenTable)
| ErrorBodyParsed (error : option jsstring).

Inductive Event :=
| Rerun (deps : Deps)
| Settle (i : nat) (how : Settled).

Definition init : State :=
  {| shared := {| exactTokens := []; isTokenizing := false; tokenizeError := [] |};
     runs := [];
     current := None |}.

Definition cleared : Shared :=
  {| exactTokens := []; isTokenizing := false; tokenizeError := [] |}.

Definition setExactTokens (t : TokenTable) (sh : Shared) : Shared :=
  {| exactTokens := t; isTokenizing := isTokenizing sh;
     tokenizeError := tokenizeError sh |}.

Definition setIsTokenizing (b : bool) (sh : Shared) : Shared :=
  {| exactTokens := exactTokens sh; isTokenizing := b;
     tokenizeError := tokenizeError sh |}.

Definition setTokenizeError (e : jsstring) (sh : Shared) : Shared :=
  {| exactTokens := exactTokens sh; isTokenizing := isTokenizing sh;
     tokenizeError := e |}.

(** The cleanup the effect returned: [cancelled = true] and
    [controller.abort()]. *)
Definition runCleanup (s : State) : list Run :=
  match current s with
  | Some i =>
      alter (fun r => {| cancelled := true; aborted := true; phase := phase r |})
            i (runs s)
  | None => runs s
  end.

(** The [finally] block of [run]. *)
Definition finally (r : Run) (sh : Shared) : Shared :=
  if negb (cancelled r) then setIsTokenizing false sh else sh.

(** [payload.error || default] and the like. *)
Definition orDefault (m : option jsstring) (default : string) : jsstring :=
  match m with
  | Some (c :: tl) => c :: tl
  | _ => str default
  end.

(** The continuation of instance [r] when its pending promise settles:
    the new shared state and the next phase. *)
Definition resume (r : Run) (how : Settled) (sh : Shared)
    : option (Shared * Phase) :=
  match phase r, how with
  | AwaitFetch, FetchOk => Some (sh, AwaitBody)
  | AwaitFetch, FetchNotOk => Some (sh, AwaitErrorBody)
  | AwaitErrorBody, ErrorBodyParsed error =>
      let sh1 :=
        if negb (cancelled r) then
          setTokenizeError (orDefault error "Failed to tokenize")
            (setExactTokens [] sh)
        else sh in
      Some (finally r sh1, Finished)
  | AwaitBody, BodyParsed tokens =>
      let sh1 :=
        if negb (cancelled r) then
          setExactTokens (match tokens with Some t => t | None => [] end) sh
        else sh in
      Some (finally r sh1, Finished)
  | AwaitFetch, Rejected abortError message
  | AwaitBody, Rejected abortError message =>
      let sh1 :=
        if cancelled r || abortError then sh
        else
          setTokenizeError
            (match message with
             | Some m => m
             | None => str "Failed to tokenize"
             end)
            (setExactTokens [] sh) in
      Some (finally r sh1, Finished)
  | _, _ => None
  end.

(** One step of the page: React re-runs the effect because a dependency
    changed (the cleanup of the previous instance first, then the
    effect body), or a pending promise of some instance settles and its
    [run] continues. *)
Definition step (s : State) (e : Event) : State :=
  match e with
  | Rerun deps =>
      let runs1 := runCleanup s in
      if negb (strEq (tokenizationModel deps) (str "cl100k_base")) then
        {| shared := cleared; runs := runs1; current := None |}
      else if negb (showTokens deps) && negb (showCounts deps) then
        {| shared := cleared; runs := runs1; current := None |}
      else if isEmpty (prettyJson deps) && isEmpty (minifiedJson deps)
              && isEmpty (yaml deps) && isEmpty (toon deps) then
        {| shared := cleared; runs := runs1; current := None |}
      else
        {| shared := setTokenizeError [] (setIsTokenizing true (shared s));
           runs := runs1 ++ [{| cancelled := false; aborted := false;
                                phase := AwaitFetch |}];
           current := Some (length runs1) |}
  | Settle i how =>
      match runs s !! i with
      | Some r =>
          match resume r how (shared s) with
          | Some (sh, ph) =>
              {| shared := sh;
                 runs := <[i := {| cancelled := cancelled r;
                                   aborted := aborted r; phase := ph |}]> (runs s);
                 current := current s |}
          | None => s
          end
      | None => s
      end
  end.

(** The state after a sequence of steps. *)
Definition execute (s : State) (trace : list Event) : State :=
  fold_left step trace s.

(** Instance [i] has been superseded: it issued a request and is no
    longer the instance whose cleanup is pending. *)
Definition superseded (s : State) (i : nat) : Prop :=
  i < length (runs s) /\ current s <> Some i.

End Effect.

(** ** The parse/convert step of the page *)

Module Convert.

Inductive Delimiter := Comma | Tab | Pipe.
Inductive KeyFolding := FoldOff | FoldSafe.

Record Config := {
  showTokenAware : bool;
  toonDelimiter : Delimiter;
  toonKeyFolding : KeyFolding
}.

Record Outputs := {
  error : jsstring;
  prettyJson : jsstring;
  minifiedJson : jsstring;
  yaml : jsstring;
  toon : jsstring;
  toml : jsstring
}.

Definition blank (error : jsstring) : Outputs :=
  {| error := error; prettyJson := []; minifiedJson := []; yaml := [];
     toon := []; toml := [] |}.

Section WithLibraries.

(** The TOON encoder of the library, which returns or throws. *)
Variable encodeToon : value -> Delimiter -> KeyFolding -> attempt jsstring.

(** [jsonToToml], whose source is not part of the files at hand. *)
Variable jsonToToml : value -> bool -> attempt jsstring.

(** The message of the [SyntaxError] that [JSON.parse] throws. *)
Variable syntaxErrorMessage : jsstring -> jsstring.

(** [toToonEncoding] of the page. *)
Definition toToonEncoding (parsed : value) (delimiter : Delimiter)
    (keyFolding : KeyFolding) : jsstring :=
  match encodeToon parsed delimiter keyFolding with
  | Returned encoded => encoded
  | Threw _ => []
  end.

(** The body of the [useMemo] that derives the outputs from the
    input.  [None] stands for the recursion bounds of the models of
    [JSON.parse] and [JSON.stringify], which are never reached
    ([convert_returns]). *)
Definition convert (cfg : Config) (input : jsstring) : option Outputs :=
  if isEmpty (trim input) then Some (blank [])
  else
    match JSON_parse input with
    | Parsed parsed =>
        pretty ← jsonStringify parsed (showTokenAware cfg) (SpaceNumber 2);
        minified ← jsonStringify parsed (showTokenAware cfg) SpaceUndefined;
        let yamlText := jsonToYamlLite parsed 0 (showTokenAware cfg) in
        let toonText :=
          toToonEncoding parsed (toonDelimiter cfg) (toonKeyFolding cfg) in
        match jsonToToml parsed (showTokenAware cfg) with
        | Returned tomlText =>
            Some {| error := []; prettyJson := pretty;
                    minifiedJson := minified; yaml := yamlText;
                    toon := toonText; toml := tomlText |}
        | Threw (Some message) => Some (blank message)
        | Threw None => Some (blank (str "Invalid JSON"))
        end
    | SyntaxError => Some (blank (syntaxErrorMessage input))
    | OutOfFuel => None
    end.

End WithLibraries.

End Convert.

(** ** Invariant of the effect and sample inputs *)

Import Route Effect Convert.

Definition four_e_acute : jsstring := e_acute ++ e_acute ++ e_acute ++ e_acute.

Definition yaml_nested_object : value :=
  JObject [(str "a", JObject [(str "b", JNumber (Finite 1))])].

Definition yaml_empty_array_member : value :=
  JObject [(str "a", JArray [])].

(** String values below an object and an array: a bare word, a reserved
    word and a text with a space. *)
Definition yaml_nested_strings : value :=
  JObject [(str "k", JArray [JString (str "hello_world-1");
                             JString (str "true");
                             JString (str "a b")])].

(** The rule as a function. *)
Definition ruleLeaf (s : jsstring) : jsstring :=
  if isSafeBareWord s then s else QuoteJSONString s.

Definition not_a_model_request : Request :=
  {| json := Some (JObject [(str "model", JString (str "not-a-model"));
                            (str "texts", JObject [(str "x", JString (str "hello"))])]) |}.

(** What holds in every state the page reaches: the instance whose
    cleanup is pending has issued a request, and every other instance has
    had its [cancelled] flag set. *)
Definition onlyCurrentLive (s : State) : Prop :=
  (forall i, current s = Some i -> i < length (runs s))
  /\ (forall i r, runs s !! i = Some r -> current s <> Some i -> cancelled r = true).

Definition sample_deps (pretty : string) : Deps :=
  {| Effect.prettyJson := str pretty; Effect.minifiedJson := str pretty;
     Effect.yaml := str pretty; Effect.toon := str pretty;
     tokenizationModel := str "cl100k_base";
     showTokens := true; showCounts := true |}.

Definition stale_tokens : TokenTable :=
  [(str "pretty", [{| tokenId := 1%N; tokenText := str "1" |}])].

Definition fresh_tokens : TokenTable :=
  [(str "pretty", [{| tokenId := 2%N; tokenText := str "2" |}])].

(** Request 0 is issued and its [fetch] succeeds, then request 1
    supersedes it. *)
Definition superseding_trace : list Event :=
  [Rerun (sample_deps "1"); Settle 0 FetchOk; Rerun (sample_deps "2")].

Definition sample_config : Config :=
  {| showTokenAware := false; toonDelimiter := Comma; toonKeyFolding := FoldOff |}.

(** Libraries that throw, and a parser message. *)
Definition failingToon (v : value) (d : Delimiter) (k : KeyFolding)
    : attempt jsstring := Threw None.

Definition failingToml (v : value) (tokenAware : bool) : attempt jsstring :=
  Threw None.

Definition sampleMessage (input : jsstring) : jsstring :=
  str "Unexpected end of JSON input".

Definition blank_sample : jsstring := str "  " ++ [10%N; 9%N].

(** ** Notions used in the proofs about [JSON.stringify] and [JSON.parse] *)

(** A replacer that leaves arrays, objects and the other values alone and
    maps a string value to the string [f s]. *)
Definition leafReplacer (r : option Replacer) (f : jsstring -> jsstring) : Prop :=
  forall key v,
    applyReplacer r key v
    = match v with JString s => JString (f s) | _ => v end.

(** What may follow a value inside a serialization: nothing, a comma or a
    closing bracket. *)
Definition followOk (rest : jsstring) : bool :=
  match rest with
  | [] => true
  | c :: _ => ((c =? 44) || (c =? 93) || (c =? 125))%N
  end.

(** The value of a run of decimal digits by Horner's rule, from [acc]. *)
Definition horner (acc : N) (s : jsstring) : N :=
  fold_left (fun a c => (10 * a + (c - 48))%N) s acc.

(** The number of the literal with digits of value [m] and decimal
    exponent [k], as [parseNumber] computes it. *)
Definition literalNumber (neg : bool) (m : N) (k : Z) : parsed number :=
  if (0 <=? k)%Z then classify neg (m * 10 ^ Z.to_N k) 1
  else classify neg m (10 ^ Z.to_N (- k)).

(** [parseNumber] after the sign. *)
Definition numberAfterSign (neg : bool) (s1 : jsstring)
    : parsed (number * jsstring) :=
  match intPart s1 with
  | [] => SyntaxError
  | ints =>
      bindP (fracPart (drop (length ints) s1)) (fun fr =>
      bindP (expPart (snd fr)) (fun ex =>
        bindP (literalNumber neg (digitsValue (ints ++ fst fr))
                 (fst ex - Z.of_nat (length (fst fr))))
              (fun n => Parsed (n, snd ex))))
  end.

Definition setMember (acc : list (jsstring * value)) (kv : jsstring * value) :=
  objectSet acc (fst kv) (snd kv).

(** A bound on the recursion depth [parseValue] needs for the minified
    serialization of a value. *)
Fixpoint cost (v : value) : nat :=
  match v with
  | JArray items => S (foldr (fun x n => S (cost x + n)) 0 items)
  | JObject props => S (foldr (fun kv n => S (cost (snd kv) + n)) 0 props)
  | _ => 1
  end.

(** The characters a serialized value can start with. *)
Definition startChar (c : N) : bool :=
  ((c =? 110) || (c =? 116) || (c =? 102) || (c =? 34) || (c =? 45)
   || isDigit c || (c =? 91) || (c =? 123))%N.

(** The minified standard serialization. *)
Abbreviation minified indent v := (serialize QuoteJSONString [] indent v).

Definition minifiedMember (indent : jsstring) (kv : jsstring * value) : jsstring :=
  QuoteJSONString (fst kv) ++ [58%N] ++ [] ++ minified indent (snd kv).

(** The statement proved by induction on the value. *)
Definition readsBack (v : value) : Prop :=
  forall fuel indent rest,
    cost v <= fuel -> followOk rest = true ->
    parseValue fuel (minified indent v ++ rest) = Parsed (v, rest).

(** The minified output of [jsonStringify], parsed again, is the value. *)
Definition roundTrips (v : value) (tokenAware : bool) : Prop :=
  exists out,
    jsonStringify v tokenAware SpaceUndefined = Some out
    /\ JSON_parse out = Parsed v.

(** A string literal of JSON text. *)
Definition quoted (s : string) : jsstring := 34%N :: str s ++ [34%N].

Definition sample_input : jsstring :=
  str "{ " ++ quoted "b" ++ str " : [1, " ++ quoted "x y" ++ str ", true, -20], "
    ++ quoted "1" ++ str ":null}".

Definition sample_value : value :=
  JObject [(str "1", JNull);
           (str "b", JArray [JNumber (Finite 1); JString (str "x y");
                             JBool true; JNumber (Finite (-20))])].

(** JSON text with numbers that are not integers, in the notations of
    JSON. *)
Definition fractions_input : jsstring :=
  str "{" ++ quoted "price" ++ str ":9.99," ++ quoted "big" ++ str ":1e21,"
    ++ quoted "tiny" ++ str ":-2.5E-7," ++ quoted "n" ++ str ":[1.50,0.1]}".

(** The value [JSON.parse] gives for it: [9.99], [1e21], [-2.5e-7],
    [1.5] and [0.1] as doubles. *)
Definition fractions_value : value :=
  JObject [(str "price", JNumber (Binary false 5623870034678907 (-49)));
           (str "big", JNumber (Binary false 7629394531250000 17));
           (str "tiny", JNumber (Binary true 4722366482869645 (-74)));
           (str "n", JArray [JNumber (Binary false 6755399441055744 (-52));
                             JNumber (Binary false 7205759403792794 (-56))])].

(** Its minified serialization. *)
Definition fractions_minified : jsstring :=
  str "{" ++ quoted "price" ++ str ":9.99," ++ quoted "big" ++ str ":1e+21,"
    ++ quoted "tiny" ++ str ":-2.5e-7," ++ quoted "n" ++ str ":[1.5,0.1]}".

(** A string that is not a bare word and looks like a marked one. *)
Definition marker_like : jsstring := str "__UNQUOTED__a b__".

(** ** Values without marker text *)

(** [s] contains the marker text [__UNQUOTED__] somewhere. *)
Fixpoint containsMarker (s : jsstring) : bool :=
  match s with
  | [] => false
  | _ :: tl =>
      match stripPrefix marker s with
      | Some _ => true
      | None => containsMarker tl
      end
  end.

(** No string value and no key of the value contains the marker text. *)
Fixpoint markerFree (v : value) : bool :=
  match v with
  | JString s => negb (containsMarker s)
  | JArray items => forallb markerFree items
  | JObject props =>
      forallb (fun kv => negb (containsMarker (fst kv)) && markerFree (snd kv)) props
  | _ => true
  end.

(** A string without double quotes. *)
Definition noQuote (s : jsstring) : bool := forallb (fun c => negb (c =? 34)%N) s.

(** The text does not start with the marker text. *)
Definition notMarked (rest : jsstring) : bool :=
  match stripPrefix marker rest with
  | Some _ => false
  | None => true
  end.

(** How the replacer and [JSON.stringify] together write a string value,
    and how the specification's token-aware view writes it. *)
Definition quoteMarked (s : jsstring) : jsstring :=
  QuoteJSONString (if isSafeBareWord s then marker ++ s ++ str "__" else s).

Definition quoteBare (s : jsstring) : jsstring :=
  if isSafeBareWord s then s else QuoteJSONString s.

(** The statement proved by induction on the value. *)
Definition postPassAgrees (v : value) : Prop :=
  forall gap indent rest,
    noQuote gap = true -> noQuote indent = true -> notMarked rest = true ->
    replaceUnquotedFrom 0 (serialize quoteMarked gap indent v ++ rest)
    = serialize quoteBare gap indent v ++ replaceUnquotedFrom 0 rest.

(** ** What the ids and offsets of the tokens tell *)

(** The identifier map of [simpleTokenize] at some point of its loop:
    the identifiers handed out so far are the numbers from 1 up to
    [nextId], one for each text. *)
Definition idMapOk (idMap : gmap (list N) nat) (nextId : nat) : Prop :=
  1 <= nextId
  /\ (forall k n, idMap !! k = Some n -> 1 <= n < nextId)
  /\ (forall k1 k2 n, idMap !! k1 = Some n -> idMap !! k2 = Some n -> k1 = k2).

(** [s.slice(a, b)] for [0 <= a <= b]. *)
Definition slice (a b : nat) (s : jsstring) : jsstring := take (b - a) (drop a s).

Definition sample_text : jsstring := str "a b, a".

(** ** The classes of the tokenizer's pattern *)

(** The three classes of the tokenizer's pattern. *)
Inductive CharClass := SpaceClass | WordClass | OtherClass.

Definition charClass (c : N) : CharClass :=
  if isWhiteSpace c then SpaceClass
  else if isTokenWordChar c then WordClass
  else OtherClass.

Definition classEqb (a b : CharClass) : bool :=
  match a, b with
  | SpaceClass, SpaceClass | WordClass, WordClass | OtherClass, OtherClass => true
  | _, _ => false
  end.

Definition sameClass (c d : N) : bool := classEqb (charClass d) (charClass c).

(** ** Highlighting *)

(** [!id] on an id that is a number, [null] or [undefined]. *)
Definition falsyId (id : option nat) : bool :=
  match id with
  | None | Some 0 => true
  | Some (S _) => false
  end.

(** The number an id that is not [null] or [undefined] holds. *)
Definition numberOf (id : option nat) : nat :=
  match id with
  | Some n => n
  | None => 0
  end.

(** [a * b] on the doubles of two non-negative integers: the product,
    rounded to the nearest double. *)
Definition multiply (a b : N) : number :=
  ofRounded false (Double.roundQ (Z.of_N a * Z.of_N b) 1).

(** [x % 360] on a double that is a non-negative integer; the remainder of
    a double is exact.  [None] is [NaN], the remainder of an infinity. *)
Definition remainder360 (x : number) : option Z :=
  match x with
  | Finite z => Some (z mod 360)%Z
  | Binary _ m e => Some (Double.integerValue m e mod 360)%Z
  | Infinity _ => None
  end.

(** [(id * 47) % 360]. *)
Definition hueOf (id : N) : option Z := remainder360 (multiply id 47).

(** [colorForTokenId] of the page. *)
Definition colorForTokenId (id : option nat) : jsstring :=
  if falsyId id then str "transparent"
  else
    let hue := hueOf (N.of_nat (numberOf id)) in
    str "hsla("
      ++ match hue with
         | Some h => digits (Z.to_N h)
         | None => str "NaN"
         end
      ++ str " 90% 45% / 0.2)".

(** A [span] element: its background colour, if it has a style, and its
    text. *)
Record Span := { backgroundColor : option jsstring; children : jsstring }.

(** [RenderHighlighted] of the page, on the [id] and [text] of each
    token. *)
Definition RenderHighlighted (tokens : list (option nat * jsstring)) : list Span :=
  map (fun t =>
         if negb (falsyId (fst t)) then
           {| backgroundColor := Some (colorForTokenId (fst t));
              children := snd t |}
         else {| backgroundColor := None; children := snd t |})
      tokens.

(** The [id] and [text] of a token of [simpleTokenize]. *)
Definition idAndText (t : Token) : option nat * jsstring := (id t, text t).

(** [toonTokenCount] of the page. *)
Definition toonTokenCount (toon : jsstring) : nat :=
  if isEmpty toon then 0
  else
    length (List.filter
              (fun t => negb (falsyId (id t)) || negb (isEmpty (trim (text t))))
              (simpleTokenize toon)).

(** ** The tokens and counts a render shows *)

(** The outputs the page shows. *)
Inductive Kind := Pretty | Minified | Yaml | Toon.

Module Home.

(** A token as the page displays it: [id] is a number, [null] or
    [undefined]. *)
Record Shown := { shownId : option nat; shownText : jsstring }.

Definition ofExact (t : ExactToken) : Shown :=
  {| shownId := Some (N.to_nat (tokenId t)); shownText := tokenText t |}.

Definition ofToken (t : Token) : Shown :=
  {| shownId := id t; shownText := text t |}.

(** What the derived values of a render read: the environment, the four
    outputs and the state of the component. *)
Record View := {
  env : Env;
  output : Kind -> jsstring;
  showTokens : bool;
  tokenizationModel : jsstring;
  exactTokens : TokenTable
}.

Definition kindKey (kind : Kind) : jsstring :=
  match kind with
  | Pretty => str "pretty"
  | Minified => str "minified"
  | Yaml => str "yaml"
  | Toon => str "toon"
  end.

(** [exactTokens[kind]]; [None] is [undefined]. *)
Definition exactFor (v : View) (kind : Kind) : option (list ExactToken) :=
  match find (fun kv => strEq (fst kv) (kindKey kind)) (exactTokens v) with
  | Some kv => Some (snd kv)
  | None => None
  end.

(** [prettyTokens], [minifiedTokens], [yamlTokens] and [toonTokens];
    [None] is [undefined]. *)
Definition tokensFor (v : View) (kind : Kind) : option (list Shown) :=
  match
    (if showTokens v && strEq (tokenizationModel v) (str "cl100k_base")
     then exactFor v kind else None)
  with
  | Some exact => Some (map ofExact exact)
  | None =>
      if showTokens v then
        match kind with
        | Toon =>
            if negb (isEmpty (output v Toon))
            then Some (map ofToken (simpleTokenize (output v Toon)))
            else Some []
        | _ => Some (map ofToken (simpleTokenize (output v kind)))
        end
      else None
  end.

(** The [tokens] field of [prettyTokenCounts], [minifiedTokenCounts],
    [yamlTokenCounts] and [toonTokenCounts] once the render has made its
    two rounds of updates. *)
Definition tokenCount (v : View) (kind : Kind) : nat :=
  let initial :=
    match kind with
    | Toon => toonTokenCount (output v Toon)
    | _ => approximateTokensFromText (env v) (output v kind)
    end in
  let shown :=
    if showTokens v then
      match tokensFor v kind with
      | Some tokens =>
          match kind with
          | Toon => length tokens
          | _ => length (List.filter (fun t => negb (falsyId (shownId t))) tokens)
          end
      | None => initial
      end
    else initial in
  if strEq (tokenizationModel v) (str "cl100k_base") then
    match exactFor v kind with
    | Some exact => if 0 <? length exact then length exact else shown
    | None => shown
    end
  else shown.

(** [getTokenIdsFor] of the page. *)
Definition getTokenIdsFor (v : View) (kind : Kind) : list nat :=
  let tokens :=
    match
      (if strEq (tokenizationModel v) (str "cl100k_base")
       then exactFor v kind else None)
    with
    | Some exact => map ofExact exact
    | None =>
        match tokensFor v kind with
        | Some tokens => tokens
        | None => []
        end
    end in
  omap shownId tokens.

End Home.

(** A view with white space in the TOON output and no exact tokens. *)
Definition sample_view (showTokens : bool) : Home.View :=
  {| Home.env := browser;
     Home.output := fun _ => sample_text;
     Home.showTokens := showTokens;
     Home.tokenizationModel := str "cl100k_base";
     Home.exactTokens := [] |}.

(** ** Strings of code units *)

(** Every element is a UTF-16 code unit. *)
Definition codeUnits (s : jsstring) : Prop := Forall (fun c => (c < 65536)%N) s.

(** ** [encodeWithFormat] *)

Inductive EncodingFormat := Base64 | Hex | UrlSafe.

(** [Array.from(s)]: the string split into its code points; a high
    surrogate followed by a low one stays one element. *)
Fixpoint Array_from (s : jsstring) : list jsstring :=
  match s with
  | [] => []
  | c :: tl =>
      match tl with
      | d :: tl' =>
          if isHighSurrogate c && isLowSurrogate d
          then [c; d] :: Array_from tl'
          else [c] :: Array_from tl
      | [] => [[c]]
      end
  end.

(** [ch.charCodeAt(0)] of a non-empty string. *)
Definition charCodeAt0 (ch : jsstring) : N := hd 0%N ch.

Fixpoint hexUintToString (u : Hexadecimal.uint) : jsstring :=
  match u with
  | Hexadecimal.Nil => []
  | Hexadecimal.D0 u => 48%N :: hexUintToString u
  | Hexadecimal.D1 u => 49%N :: hexUintToString u
  | Hexadecimal.D2 u => 50%N :: hexUintToString u
  | Hexadecimal.D3 u => 51%N :: hexUintToString u
  | Hexadecimal.D4 u => 52%N :: hexUintToString u
  | Hexadecimal.D5 u => 53%N :: hexUintToString u
  | Hexadecimal.D6 u => 54%N :: hexUintToString u
  | Hexadecimal.D7 u => 55%N :: hexUintToString u
  | Hexadecimal.D8 u => 56%N :: hexUintToString u
  | Hexadecimal.D9 u => 57%N :: hexUintToString u
  | Hexadecimal.Da u => 97%N :: hexUintToString u
  | Hexadecimal.Db u => 98%N :: hexUintToString u
  | Hexadecimal.Dc u => 99%N :: hexUintToString u
  | Hexadecimal.Dd u => 100%N :: hexUintToString u
  | Hexadecimal.De u => 101%N :: hexUintToString u
  | Hexadecimal.Df u => 102%N :: hexUintToString u
  end.

(** [n.toString(16)] of a non-negative integer. *)
Definition toString16 (n : N) : jsstring := hexUintToString (N.to_hex_uint n).

(** [s.padStart(targetLength, fill)] with a fill of one character. *)
Definition padStart (targetLength : nat) (fill : N) (s : jsstring) : jsstring :=
  repeat fill (targetLength - length s) ++ s.

Section WithPlatform.

(** [encodeURIComponent], which throws on a lone surrogate, and the
    base64 branch, which only calls the platform ([Buffer] on the
    server, [btoa] in the browser). *)
Variable encodeURIComponent : jsstring -> attempt jsstring.
Variable platformBase64 : Env -> jsstring -> attempt jsstring.

(** [encodeWithFormat] of the page. *)
Definition encodeWithFormat (env : Env) (input : jsstring)
    (format : EncodingFormat) : attempt jsstring :=
  match format with
  | Hex =>
      Returned
        (join []
           (map (fun ch => padStart 2 48 (toString16 (charCodeAt0 ch)))
                (Array_from input)))
  | UrlSafe => encodeURIComponent input
  | Base64 => platformBase64 env input
  end.

End WithPlatform.

(** Reading a string of two-digit hexadecimal numbers back. *)
Fixpoint decodeHexPairs (h : jsstring) : option jsstring :=
  match h with
  | [] => Some []
  | a :: tl =>
      match tl with
      | b :: tl' =>
          match hexValue a, hexValue b, decodeHexPairs tl' with
          | Some x, Some y, Some rest => Some ((16 * x + y)%N :: rest)
          | _, _, _ => None
          end
      | [] => None
      end
  end.

(** Every code unit is below 256. *)
Definition isLatin1 (s : jsstring) : bool := forallb (fun c => (c <? 256)%N) s.

(** The two code units of U+1F600 and of U+1F601. *)
Definition grinning_face : jsstring := [0xD83D; 0xDE00]%N.
Definition beaming_face : jsstring := [0xD83D; 0xDE01]%N.

(** ** Requests the route answers *)

(** What a call of the tokenizer library returned, or no token when it
    threw. *)
Definition returnedTokens (a : attempt (list ExactToken)) : list ExactToken :=
  match a with
  | Returned tokens => tokens
  | Threw _ => []
  end.

(** The table the route builds when no call of the library throws: under
    each key the tokens of its text, none for a falsy text. *)
Definition tokensOfEntries (encodeText : value -> attempt (list ExactToken))
    (entries : list (jsstring * value)) : TokenTable :=
  map (fun kv =>
         (fst kv,
          if truthy (Some (snd kv)) then returnedTokens (encodeText (snd kv))
          else []))
      entries.

(** A request for the supported model with the given texts. *)
Definition model_request (texts : value) : Request :=
  {| json := Some (JObject [(str "model", JString cl100k_base);
                            (str "texts", texts)]) |}.

Definition sample_texts : value :=
  JObject [(str "pretty", JString (str "hello")); (str "toon", JString [])].

(** A tokenizer that makes one token of a text, and one that throws. *)
Definition oneToken (text : value) : attempt (list ExactToken) :=
  Returned [{| tokenId := 0%N; tokenText := stringOf (Some text) |}].

Definition throwing (text : value) : attempt (list ExactToken) :=
  Threw (Some (str "out of memory")).

(** Texts with a key that names the prototype. *)
Definition proto_texts : value :=
  JObject [(str "__proto__", JString (str "x")); (str "yaml", JString (str "y"))].

(** ** Further invariants of the effect *)

(** Every instance has been aborted exactly when its [cancelled] flag is
    set. *)
Definition abortedWhenCancelled (s : State) : Prop :=
  forall i r, runs s !! i = Some r -> aborted r = cancelled r.

(** The request of the instance whose cleanup is pending has not
    finished. *)
Definition pending (s : State) : Prop :=
  exists i r, current s = Some i /\ runs s !! i = Some r /\ phase r <> Finished.

(** What holds of the shared state in every state the page reaches. *)
Definition sharedConsistent (s : State) : Prop :=
  (forall i r, current s = Some i -> runs s !! i = Some r -> cancelled r = false)
  /\ (isTokenizing (shared s) = true <-> pending s)
  /\ (pending s -> tokenizeError (shared s) = [])
  /\ (tokenizeError (shared s) <> [] -> exactTokens (shared s) = []).

(** The three conditions under which the effect resets the state and
    issues no request. *)
Definition issuesNoRequest (deps : Deps) : bool :=
  negb (strEq (tokenizationModel deps) (str "cl100k_base"))
  || (negb (showTokens deps) && negb (showCounts deps))
  || (isEmpty (Effect.prettyJson deps) && isEmpty (Effect.minifiedJson deps)
      && isEmpty (Effect.yaml deps) && isEmpty (Effect.toon deps)).

Definition isSettle (e : Event) : bool :=
  match e with
  | Settle _ _ => true
  | Rerun _ => false
  end.

Definition hidden_deps : Deps :=
  {| Effect.prettyJson := str "1"; Effect.minifiedJson := str "1";
     Effect.yaml := str "1"; Effect.toon := str "1";
     tokenizationModel := str "cl100k_base";
     showTokens := false; showCounts := false |}.

(** ** Further notions for the converters *)

(** The outputs with another TOON text. *)
Definition withToon (t : jsstring) (o : Outputs) : Outputs :=
  {| error := error o; Convert.prettyJson := Convert.prettyJson o;
     Convert.minifiedJson := Convert.minifiedJson o;
     Convert.yaml := Convert.yaml o; Convert.toon := t; toml := toml o |}.

(** A TOON encoder and a TOML converter that return, and the text of a
    JSON number. *)
Definition constantToon (v : value) (d : Delimiter) (k : KeyFolding)
    : attempt jsstring := Returned (str "toon").

Definition constantToml (v : value) (tokenAware : bool) : attempt jsstring :=
  Returned (str "toml").

Definition number_input : jsstring := str "1".

(** The text of a JSON number that is not an integer. *)
Definition fraction_input : jsstring := str "9.99".

Definition unclosed_input : jsstring := str "{".

(** A value that is neither an array nor an object. *)
Definition isScalar (v : value) : bool :=
  match v with
  | JArray _ | JObject _ => false
  | _ => true
  end.

Definition quoted_words : value :=
  JObject [(str "a", JString (str "two words")); (str "b", JString (str "true"))].

Definition bare_and_quoted : value :=
  JArray [JString (str "word"); JString (str "two words")].

(** * Properties *)

(** ** Counting primitives *)

Lemma TextEncoder_encode_ascii s :
  isAscii s = true -> TextEncoder_encode s = s.
Proof.
  induction s as [|c tl IH]; [reflexivity|].
  cbn [isAscii forallb]. intros [Hc Htl]%andb_prop.
  apply N.ltb_lt in Hc.
  cbn [TextEncoder_encode].
  assert (isHighSurrogate c = false) as ->
    by (unfold isHighSurrogate, inRange; apply andb_false_iff; left; apply N.leb_gt; lia).
  assert (isLowSurrogate c = false) as ->
    by (unfold isLowSurrogate, inRange; apply andb_false_iff; left; apply N.leb_gt; lia).
  unfold utf8OfCodePoint.
  assert ((c <? 128)%N = true) as -> by (apply N.ltb_lt; lia).
  cbn [app]. f_equal. apply IH, Htl.
Qed.

(** C7, as the specification states it, fails while rendering on the
    server: there [calculateCounts] takes the byte count of the accented
    letter to be its length, 1, and not its UTF-8 size, 2. *)
Lemma calculateCounts_server_bytes_not_utf8 :
  bytes (calculateCounts server e_acute) <> utf8ByteLength e_acute
  /\ bytes (calculateCounts server e_acute) <> 2.
Proof. split; vm_compute; discriminate. Qed.

(** C7, amended: [calculateCounts] is total, maps the empty string to
    zero counts and every string to its length in [chars]; in [bytes] it
    gives the UTF-8 encoded size where a [window] exists (the browser)
    and the length where none does (the server); bytes are at least
    chars for ASCII-only strings in either environment, and the accented
    letter has 1 char and, in the browser, 2 bytes. *)
Theorem calculateCounts_spec (env : Env) (s : jsstring) :
  calculateCounts env [] = {| chars := 0; bytes := 0 |}
  /\ chars (calculateCounts env s) = length s
  /\ bytes (calculateCounts env s)
     = (if windowDefined env then utf8ByteLength s else length s)
  /\ (isAscii s = true ->
      chars (calculateCounts env s) <= bytes (calculateCounts env s))
  /\ chars (calculateCounts env e_acute) = 1
  /\ bytes (calculateCounts browser e_acute) = 2.
Proof.
  assert (Hc : chars (calculateCounts env s) = length s)
    by (destruct s; reflexivity).
  assert (Hb : bytes (calculateCounts env s)
               = (if windowDefined env then utf8ByteLength s else length s)).
  { destruct s as [|c tl]; [destruct (windowDefined env); reflexivity|].
    unfold calculateCounts. cbn [isEmpty bytes].
    destruct (windowDefined env); reflexivity. }
  repeat split; try assumption; try reflexivity.
  intros Hascii. rewrite Hc, Hb.
  destruct (windowDefined env); [|lia].
  unfold utf8ByteLength. rewrite TextEncoder_encode_ascii by assumption. lia.
Qed.

Lemma calculateCounts_spec_witness :
  isAscii (str "abc") = true
  /\ chars (calculateCounts browser (str "abc"))
     <= bytes (calculateCounts browser (str "abc")).
Proof.
  split; [reflexivity|].
  apply (calculateCounts_spec browser (str "abc")). reflexivity.
Defined.

(** ** Approximate token count *)

(** [Math_ceil_div a b] is the ceiling of [a / b]: the least [k] with
    [a <= b * k]. *)
Lemma Math_ceil_div_ceiling a b :
  0 < b ->
  a <= b * Math_ceil_div a b
  /\ forall k, a <= b * k -> Math_ceil_div a b <= k.
Proof.
  intros Hb. unfold Math_ceil_div.
  pose proof (Nat.div_mod_eq a b) as Hdm.
  pose proof (Nat.mod_upper_bound a b ltac:(lia)) as Hlt.
  destruct (Nat.eqb_spec (a mod b) 0) as [H0|H0].
  - split; [lia|]. intros k Hk.
    destruct (Nat.le_gt_cases (a / b) k) as [|Hgt]; [assumption|]. nia.
  - split; [nia|]. intros k Hk.
    destruct (Nat.le_gt_cases (S (a / b)) k) as [|Hgt]; [assumption|]. nia.
Qed.

(** C5, as the specification states it, fails while rendering on the
    server: four accented letters are 8 bytes of UTF-8, so the stated
    formula gives 2, and [approximateTokensFromText] returns 1. *)
Lemma approximateTokensFromText_server_not_utf8 :
  four_e_acute <> []
  /\ approximateTokensFromText server four_e_acute
     <> Nat.max 1 (Math_ceil_div (utf8ByteLength four_e_acute) 4).
Proof. split; vm_compute; discriminate. Qed.

(** C5, amended: the approximate token count is 0 for the empty string,
    and for a non-empty string it is [max(1, ceil(n / 4))], at least 1,
    where [n] is the UTF-8 byte length where a [window] exists (the
    browser) and the string's length where none does (the server). *)
Theorem approximateTokensFromText_spec (env : Env) (text : jsstring) :
  approximateTokensFromText env [] = 0
  /\ (text <> [] ->
      approximateTokensFromText env text
      = Nat.max 1 (Math_ceil_div
                     (if windowDefined env then utf8ByteLength text
                      else length text) 4)
      /\ 1 <= approximateTokensFromText env text).
Proof.
  split; [reflexivity|]. intros Hne.
  destruct text as [|c tl]; [congruence|].
  unfold approximateTokensFromText. cbn [isEmpty].
  destruct (windowDefined env); cbn [negb]; split; try reflexivity; lia.
Qed.

Lemma approximateTokensFromText_spec_witness :
  str "hello" <> []
  /\ approximateTokensFromText browser (str "hello") = 2.
Proof.
  split; [discriminate|].
  destruct (approximateTokensFromText_spec browser (str "hello")) as [_ H].
  destruct (H ltac:(discriminate)) as [-> _]. reflexivity.
Defined.

(** ** The approximate tokenizer *)

Lemma takeWhile_app_drop p s :
  takeWhile p s ++ drop (length (takeWhile p s)) s = s.
Proof.
  induction s as [|c tl IH]; [reflexivity|].
  cbn [takeWhile]. destruct (p c); [|reflexivity].
  cbn [length drop app]. now rewrite IH.
Qed.

Lemma plusClass_Some p s m :
  plusClass p s = Some m -> m <> [] /\ m ++ drop (length m) s = s.
Proof.
  unfold plusClass. pose proof (takeWhile_app_drop p s) as H.
  destruct (takeWhile p s) as [|a m'] eqn:E; [discriminate|].
  intros [= <-]. split; [discriminate|exact H].
Qed.

Lemma tokenRegexAt_Some s m :
  tokenRegexAt s = Some m -> m <> [] /\ m ++ drop (length m) s = s.
Proof.
  unfold tokenRegexAt.
  destruct (plusClass isWhiteSpace s) eqn:E1.
  { intros [= <-]. eapply plusClass_Some, E1. }
  destruct (plusClass isTokenWordChar s) eqn:E2.
  { intros [= <-]. eapply plusClass_Some, E2. }
  apply plusClass_Some.
Qed.

(** Every character belongs to one of the three classes, so the pattern
    matches at every offset before the end of the text. *)
Lemma tokenRegexAt_total c tl : tokenRegexAt (c :: tl) <> None.
Proof.
  unfold tokenRegexAt, plusClass, isTokenOtherChar. cbn [takeWhile].
  destruct (isWhiteSpace c); [discriminate|].
  destruct (isTokenWordChar c); discriminate.
Qed.

Lemma tokenizeFrom_concat s :
  forall skip pos idMap nextId,
    skip <= length s ->
    concat (map text (tokenizeFrom skip pos s idMap nextId)) = drop skip s.
Proof.
  induction s as [|c tl IH]; intros skip pos idMap nextId Hskip.
  { now destruct skip. }
  cbn [tokenizeFrom]. destruct skip as [|k].
  - destruct (tokenRegexAt (c :: tl)) as [m|] eqn:Em;
      [|now apply tokenRegexAt_total in Em].
    apply tokenRegexAt_Some in Em as [Hne Hm].
    destruct m as [|c' m']; [congruence|].
    cbn [length drop app] in Hm. injection Hm as -> Htl.
    assert (Hlen : length m' <= length tl).
    { rewrite <- Htl. rewrite length_app. lia. }
    assert (Hk : length (c :: m') - 1 = length m') by (cbn [length]; lia).
    rewrite Hk. cbn [drop].
    destruct (testAllWhiteSpace (c :: m')).
    + cbn [map concat text].
      rewrite IH by assumption. cbn [app]. now rewrite Htl.
    + destruct (idMap !! (c :: m'));
        cbn [map concat text];
        rewrite IH by assumption; cbn [app]; now rewrite Htl.
  - cbn [length] in Hskip. cbn [drop]. apply IH. lia.
Qed.

(** C6: the [text] fields of the tokens of [simpleTokenize], concatenated
    in order, are the input string, whatever the input is; the empty
    string yields no token. *)
Theorem simpleTokenize_lossless (input : jsstring) :
  simpleTokenize [] = []
  /\ concat (map text (simpleTokenize input)) = input.
Proof.
  split; [reflexivity|].
  unfold simpleTokenize. destruct input as [|c tl]; [reflexivity|].
  cbn [isEmpty]. apply (tokenizeFrom_concat (c :: tl) 0). lia.
Qed.

(** ** The bare-word rule *)

Lemma isBareChar_spec c : isBareChar c = true <-> specWordChar c.
Proof.
  unfold isBareChar, specWordChar, isLower, isUpper, isDigit, inRange.
  rewrite !orb_true_iff, !andb_true_iff, !N.leb_le, !N.eqb_eq. tauto.
Qed.

Lemma testBareWord_spec s :
  testBareWord s = true <-> s <> [] /\ Forall specWordChar s.
Proof.
  unfold testBareWord. rewrite andb_true_iff, negb_true_iff.
  rewrite forallb_forall, List.Forall_forall.
  split.
  - intros [He Hall]. split; [now destruct s|].
    intros c Hc. now apply isBareChar_spec, Hall.
  - intros [Hne Hall]. split; [now destruct s|].
    intros c Hc. now apply isBareChar_spec, Hall.
Qed.

Lemma includes_In l x : includes l x = true <-> In x l.
Proof.
  unfold includes. rewrite existsb_exists. split.
  - intros (y & Hy & Heq). unfold strEq in Heq.
    apply bool_decide_eq_true in Heq. now subst.
  - intros H. exists x. split; [assumption|].
    unfold strEq. now apply bool_decide_eq_true.
Qed.

Lemma isReservedYamlWord_spec s :
  isReservedYamlWord s = true <-> In (toLowerCase s) specReserved.
Proof.
  unfold isReservedYamlWord. rewrite includes_In.
  unfold reserved, specReserved. cbn [map In]. tauto.
Qed.

Lemma isSafeBareWord_spec s : isSafeBareWord s = true <-> specBareWord s.
Proof.
  unfold isSafeBareWord, specBareWord.
  rewrite andb_true_iff, negb_true_iff, testBareWord_spec.
  rewrite <- isReservedYamlWord_spec.
  destruct (isReservedYamlWord s); split.
  - intros [_ [=]].
  - intros (_ & _ & H). now contradiction H.
  - intros [[Hne Hall] _]. repeat split; try assumption. discriminate.
  - intros (Hne & Hall & _). repeat split; assumption.
Qed.

Lemma unicodeEscape_length c : length (unicodeEscape c) = 6.
Proof. reflexivity. Qed.

Lemma escapeUnit_length c : 1 <= length (escapeUnit c).
Proof.
  unfold escapeUnit.
  repeat (case (_ =? _)%N; [cbn; lia|]).
  case (_ <? _)%N; cbn; lia.
Qed.

Lemma quoteBody_length_aux n :
  forall s, length s <= n -> length s <= length (quoteBody s).
Proof.
  induction n as [|n IH]; intros s Hn.
  { destruct s; [cbn; lia|cbn in Hn; lia]. }
  destruct s as [|c tl]; [cbn; lia|].
  cbn [length] in Hn. cbn [quoteBody].
  destruct (isHighSurrogate c).
  - destruct tl as [|d tl']; [cbn; lia|].
    destruct (isLowSurrogate d).
    + cbn [length] in *. specialize (IH tl' ltac:(lia)). lia.
    + rewrite length_app, unicodeEscape_length.
      specialize (IH (d :: tl') ltac:(cbn [length] in *; lia)).
      cbn [length] in *. lia.
  - destruct (isLowSurrogate c).
    + rewrite length_app, unicodeEscape_length.
      specialize (IH tl ltac:(lia)). cbn [length]. lia.
    + rewrite length_app. pose proof (escapeUnit_length c).
      specialize (IH tl ltac:(lia)). cbn [length]. lia.
Qed.

Lemma QuoteJSONString_length s : length s + 2 <= length (QuoteJSONString s).
Proof.
  unfold QuoteJSONString. cbn [length]. rewrite length_app. cbn [length].
  pose proof (quoteBody_length_aux (length s) s ltac:(lia)). lia.
Qed.

Lemma QuoteJSONString_neq s : QuoteJSONString s <> s.
Proof.
  intros H. pose proof (QuoteJSONString_length s) as Hl.
  rewrite H in Hl. lia.
Qed.

(** Induction on values, with the hypothesis for every element of an
    array and every member of an object. *)
Lemma value_induction (P : value -> Prop) :
  P JNull ->
  (forall b, P (JBool b)) ->
  (forall n, P (JNumber n)) ->
  (forall s, P (JString s)) ->
  (forall items, Forall P items -> P (JArray items)) ->
  (forall props, Forall (fun kv => P (snd kv)) props -> P (JObject props)) ->
  forall v, P v.
Proof.
  intros Hnull Hbool Hnum Hstr Harr Hobj.
  fix IH 1. intros [| b | n | s | items | props].
  - exact Hnull.
  - apply Hbool.
  - apply Hnum.
  - apply Hstr.
  - apply Harr. induction items as [|x tl IHl]; constructor; [apply IH|exact IHl].
  - apply Hobj. induction props as [|kv tl IHl]; constructor; [apply IH|exact IHl].
Qed.

(** [jsonToYamlLite] lays a value out as [yamlLayout] does, with its own
    text for a string value: the recursive calls pass the mode on. *)
Lemma jsonToYamlLite_layout (leaf : jsstring -> jsstring) (tokenAware : bool)
    (v : value) :
  (forall s, leaf s = if tokenAware && testBareWord s && negb (isReservedYamlWord s)
                      then s else QuoteJSONString s) ->
  forall indent, jsonToYamlLite v indent tokenAware = yamlLayout leaf v indent.
Proof.
  intros Hleaf.
  induction v as [| b | n | s | items IH | props IH] using value_induction;
    intros indent; cbn [jsonToYamlLite yamlLayout]; try reflexivity.
  - now rewrite Hleaf.
  - destruct items as [|x tl]; [reflexivity|]. f_equal.
    apply map_ext_in. intros item Hin.
    rewrite List.Forall_forall in IH. now rewrite (IH item Hin).
  - destruct props as [|kv tl]; [reflexivity|]. f_equal.
    apply map_ext_in. intros kv' Hin.
    rewrite List.Forall_forall in IH. now rewrite (IH kv' Hin).
Qed.

(** C2: in token-aware mode [jsonToYamlLite] writes a string value
    without quotes exactly when it is made of one or more ASCII letters,
    digits, underscores or hyphens and its lowercased form is not a
    reserved word, and writes it as a quoted JSON string otherwise, at
    the root and at any depth of a value: its output is the layout of
    the value with every string value written by that rule (and, with
    the mode off, with every string value quoted);
    [hello_world-1] is eligible, [true], [null] and [off] are not, in any
    letter case, and no string with a space or a colon is. *)
Theorem bare_word_rule (s : jsstring) (indent : nat) (v : value) :
  (jsonToYamlLite (JString s) indent true = s <-> specBareWord s)
  /\ (~ specBareWord s ->
      jsonToYamlLite (JString s) indent true = QuoteJSONString s)
  /\ (forall leaf, specLeaf leaf ->
      jsonToYamlLite v indent true = yamlLayout leaf v indent)
  /\ jsonToYamlLite v indent false = yamlLayout QuoteJSONString v indent
  /\ jsonToYamlLite yaml_nested_strings 0 true
     = str "k:" ++ [10%N] ++ str "    - hello_world-1" ++ [10%N]
         ++ str "    - " ++ quoted "true" ++ [10%N]
         ++ str "    - " ++ quoted "a b"
  /\ (isSafeBareWord s = true <-> specBareWord s)
  /\ specBareWord (str "hello_world-1")
  /\ ~ specBareWord (str "true")
  /\ ~ specBareWord (str "null")
  /\ ~ specBareWord (str "off")
  /\ ~ specBareWord (str "True")
  /\ ~ specBareWord (str "NULL")
  /\ ~ specBareWord (str "Off")
  /\ (In 32%N s \/ In 58%N s -> ~ specBareWord s).
Proof.
  assert (Hout : jsonToYamlLite (JString s) indent true
                 = if isSafeBareWord s then s else QuoteJSONString s).
  { cbn [jsonToYamlLite]. unfold isSafeBareWord. now rewrite andb_true_l. }
  split; [|split; [|split; [|split; [|split;
    [|split; [apply isSafeBareWord_spec|]]]]]].
  - rewrite Hout, <- isSafeBareWord_spec.
    destruct (isSafeBareWord s); split; try reflexivity; try discriminate.
    intros H. now apply QuoteJSONString_neq in H.
  - rewrite Hout, <- isSafeBareWord_spec.
    destruct (isSafeBareWord s); [intros H; now contradiction H|reflexivity].
  - intros leaf Hleaf. apply jsonToYamlLite_layout. intros x.
    rewrite andb_true_l. destruct (Hleaf x) as [Hyes Hno].
    change (testBareWord x && negb (isReservedYamlWord x)) with (isSafeBareWord x).
    destruct (isSafeBareWord x) eqn:E.
    + apply Hyes. now apply isSafeBareWord_spec.
    + apply Hno. rewrite <- isSafeBareWord_spec. congruence.
  - now apply jsonToYamlLite_layout.
  - vm_compute. reflexivity.
  - repeat split;
      try (apply isSafeBareWord_spec; reflexivity);
      try (rewrite <- isSafeBareWord_spec; vm_compute; discriminate).
    intros Hin (_ & Hall & _). rewrite List.Forall_forall in Hall.
    destruct Hin as [Hin|Hin]; apply Hall in Hin;
      unfold specWordChar in Hin; lia.
Qed.

Lemma ruleLeaf_spec : specLeaf ruleLeaf.
Proof.
  intros s. unfold ruleLeaf. rewrite <- isSafeBareWord_spec.
  destruct (isSafeBareWord s); split; congruence.
Qed.

Lemma bare_word_rule_witness :
  In 32%N (str "a b") /\ ~ specBareWord (str "a b")
  /\ jsonToYamlLite (JString (str "a b")) 0 true = QuoteJSONString (str "a b")
  /\ specLeaf ruleLeaf
  /\ jsonToYamlLite yaml_nested_strings 0 true
     = yamlLayout ruleLeaf yaml_nested_strings 0.
Proof.
  assert (Hin : In 32%N (str "a b") \/ In 58%N (str "a b"))
    by (left; right; left; reflexivity).
  pose proof (bare_word_rule (str "a b") 0 yaml_nested_strings)
    as (_ & Hq & Hlay & _ & _ & _ & _ & _ & _ & _ & _ & _ & _ & Hsp).
  split; [right; left; reflexivity|].
  split; [exact (Hsp Hin)|]. split; [exact (Hq (Hsp Hin))|].
  split; [exact ruleLeaf_spec|exact (Hlay ruleLeaf ruleLeaf_spec)].
Defined.

(** ** YAML-lite at the specification's examples *)

(** C4 does not hold of the code: for the nested object the inner line is
    indented four spaces, not two (the nested rendering is already
    indented by the recursive call and is indented once more under the
    key), so that one level deeper the indentation is ten spaces; an
    empty array under a key is not written inline but on a line of its
    own, although as an array item it is written inline; the empty
    array at the root is written as the specification says. *)
Theorem jsonToYamlLite_examples :
  jsonToYamlLite yaml_nested_object 0 false = str "a:" ++ [10%N] ++ str "    b: 1"
  /\ jsonToYamlLite yaml_nested_object 0 false <> str "a:" ++ [10%N] ++ str "  b: 1"
  /\ jsonToYamlLite (JObject [(str "z", yaml_nested_object)]) 0 false
     = str "z:" ++ [10%N] ++ str "    a:" ++ [10%N] ++ str "          b: 1"
  /\ jsonToYamlLite yaml_empty_array_member 0 false = str "a:" ++ [10%N] ++ str "  []"
  /\ jsonToYamlLite yaml_empty_array_member 0 false <> str "a: []"
  /\ jsonToYamlLite (JArray [JArray []]) 0 false = str "- []"
  /\ jsonToYamlLite (JArray []) 0 false = str "[]".
Proof. repeat split; vm_compute; congruence. Qed.

(** ** [JSON.stringify] on values *)

Lemma sequence_map {A B} (f : A -> option B) (g : A -> B) (l : list A) :
  Forall (fun x => f x = Some (g x)) l ->
  sequence (map f l) = Some (map g l).
Proof.
  induction 1 as [|x tl Hx _ IH]; [reflexivity|].
  cbn [map sequence]. now rewrite Hx, IH.
Qed.

Lemma sequence_imap {A B} (f : nat -> A -> option B) (g : A -> B) (l : list A) :
  Forall (fun x => forall i, f i x = Some (g x)) l ->
  sequence (imap f l) = Some (map g l).
Proof.
  intros H. revert f H.
  induction l as [|x tl IH]; intros f H; [reflexivity|].
  apply Forall_cons in H as [Hx Htl].
  cbn [imap map sequence]. rewrite Hx.
  rewrite (IH (f ∘ S)); [reflexivity|].
  eapply Forall_impl; [exact Htl|]. intros y Hy i. apply Hy.
Qed.

Lemma height_item x items : In x items -> height x < height (JArray items).
Proof.
  cbn [height]. induction items as [|y tl IH]; [contradiction|].
  cbn [foldr]. intros [->|Hin]; [lia|]. specialize (IH Hin). lia.
Qed.

Lemma height_member kv props :
  In kv props -> height (snd kv) < height (JObject props).
Proof.
  cbn [height]. induction props as [|y tl IH]; [contradiction|].
  cbn [foldr]. intros [->|Hin]; [lia|]. specialize (IH Hin). lia.
Qed.

(** With such a replacer the bounded recursion of [JSON.stringify] gives
    the structural serialization as soon as the bound exceeds the height
    of the value. *)
Lemma SerializeJSONProperty_serialize r f :
  leafReplacer r f ->
  forall fuel v gap indent key,
    height v < fuel ->
    SerializeJSONProperty fuel r gap indent key v
    = Some (serialize (fun s => QuoteJSONString (f s)) gap indent v).
Proof.
  intros Hr. induction fuel as [|fuel IH]; intros v gap indent key Hh; [lia|].
  cbn [SerializeJSONProperty]. rewrite Hr.
  destruct v as [| [|] | [z|neg|neg m e] | s | items | props]; try reflexivity.
  - cbn [serialize].
    rewrite (sequence_imap _ (serialize (fun s => QuoteJSONString (f s)) gap (indent ++ gap))).
    + reflexivity.
    + apply List.Forall_forall. intros x Hx i. apply IH.
      pose proof (height_item x items Hx). lia.
  - cbn [serialize].
    rewrite (sequence_map _
               (fun kv => QuoteJSONString (fst kv) ++ [58%N]
                            ++ (if isEmpty gap then [] else [32%N])
                            ++ serialize (fun s => QuoteJSONString (f s)) gap
                                 (indent ++ gap) (snd kv))).
    + reflexivity.
    + apply List.Forall_forall. intros kv Hkv.
      rewrite IH; [reflexivity|].
      pose proof (height_member kv props Hkv). lia.
Qed.

Lemma leafReplacer_none : leafReplacer None (fun s => s).
Proof. intros key v. now destruct v. Qed.

Lemma leafReplacer_unquoted :
  leafReplacer (Some unquotedReplacer)
    (fun s => if isSafeBareWord s then marker ++ s ++ str "__" else s).
Proof.
  intros key v. destruct v; try reflexivity.
  cbn [applyReplacer unquotedReplacer]. unfold isSafeBareWord.
  now destruct (testBareWord s && negb (isReservedYamlWord s)).
Qed.

(** [jsonStringify] always returns: with token-aware mode off the
    standard serialization, with it on the post-pass applied to the
    serialization of the marked value. *)
Lemma jsonStringify_total (v : value) (tokenAware : bool) (indent : Space) :
  jsonStringify v tokenAware indent
  = Some (if tokenAware then
            replaceUnquoted
              (serialize
                 (fun s => QuoteJSONString
                             (if isSafeBareWord s then marker ++ s ++ str "__" else s))
                 (gapOf indent) [] v)
          else standardJson v indent).
Proof.
  unfold jsonStringify, JSON_stringify, standardJson.
  destruct tokenAware; cbn [negb].
  - rewrite (SerializeJSONProperty_serialize _ _ leafReplacer_unquoted) by lia.
    reflexivity.
  - rewrite (SerializeJSONProperty_serialize _ _ leafReplacer_none) by lia.
    reflexivity.
Qed.

(** ** Reading back what [JSON.stringify] writes: strings *)

Lemma hexValue_hexDigit d : (d < 16)%N -> hexValue (hexDigit d) = Some d.
Proof.
  intros H.
  assert (d = 0 \/ d = 1 \/ d = 2 \/ d = 3 \/ d = 4 \/ d = 5 \/ d = 6 \/ d = 7
          \/ d = 8 \/ d = 9 \/ d = 10 \/ d = 11 \/ d = 12 \/ d = 13 \/ d = 14
          \/ d = 15)%N as Hd by lia.
  repeat (destruct Hd as [->|Hd]; [reflexivity|]). now subst.
Qed.

Lemma parseStringBody_unicode h1 h2 h3 h4 tail :
  parseStringBody (92 :: 117 :: h1 :: h2 :: h3 :: h4 :: tail)%N
  = match hexValue h1, hexValue h2, hexValue h3, hexValue h4 with
    | Some a, Some b, Some c', Some d =>
        consChar (a * 4096 + b * 256 + c' * 16 + d)%N (parseStringBody tail)
    | _, _, _, _ => SyntaxError
    end.
Proof. reflexivity. Qed.

Lemma hex_recompose c :
  (c < 65536)%N ->
  (c / 4096 < 16
   /\ c / 4096 * 4096 + (c / 256) mod 16 * 256 + (c / 16) mod 16 * 16 + c mod 16 = c)%N.
Proof.
  intros H. split; [apply N.Div0.div_lt_upper_bound; lia|].
  pose proof (N.div_mod c 16 ltac:(lia)) as H1.
  pose proof (N.div_mod (c / 16) 16 ltac:(lia)) as H2.
  pose proof (N.div_mod (c / 16 / 16) 16 ltac:(lia)) as H3.
  assert (E1 : (c / 256 = c / 16 / 16)%N)
    by (rewrite N.Div0.div_div; reflexivity).
  assert (E2 : (c / 4096 = c / 16 / 16 / 16)%N)
    by (rewrite !N.Div0.div_div; reflexivity).
  rewrite E1, E2. clear E1 E2 H.
  generalize dependent (c / 16 / 16 / 16)%N. intros q3.
  generalize dependent ((c / 16 / 16) mod 16)%N. intros r2.
  generalize dependent (c / 16 / 16)%N. intros q2.
  generalize dependent ((c / 16) mod 16)%N. intros r1.
  generalize dependent (c / 16)%N. intros q1.
  generalize dependent (c mod 16)%N. intros r0 H1 H2 H3.
  lia.
Qed.

Lemma parseStringBody_unicodeEscape c tail :
  (c < 65536)%N ->
  parseStringBody (unicodeEscape c ++ tail) = consChar c (parseStringBody tail).
Proof.
  intros Hc. unfold unicodeEscape. cbn [app].
  rewrite parseStringBody_unicode.
  destruct (hex_recompose c Hc) as [Hhi Hsum].
  rewrite !hexValue_hexDigit by (try assumption; apply N.mod_lt; lia).
  now rewrite Hsum.
Qed.

Lemma parseStringBody_raw c tail :
  c <> 34%N -> c <> 92%N -> (32 <= c)%N ->
  parseStringBody (c :: tail) = consChar c (parseStringBody tail).
Proof.
  intros H1 H2 H3. cbn [parseStringBody].
  apply N.eqb_neq in H1, H2. rewrite H1, H2.
  assert ((c <? 32)%N = false) as -> by (apply N.ltb_ge; lia).
  reflexivity.
Qed.

Lemma parseStringBody_escapeUnit c tail :
  parseStringBody (escapeUnit c ++ tail) = consChar c (parseStringBody tail).
Proof.
  unfold escapeUnit.
  destruct (N.eqb_spec c 8) as [->|?]; [reflexivity|].
  destruct (N.eqb_spec c 9) as [->|?]; [reflexivity|].
  destruct (N.eqb_spec c 10) as [->|?]; [reflexivity|].
  destruct (N.eqb_spec c 12) as [->|?]; [reflexivity|].
  destruct (N.eqb_spec c 13) as [->|?]; [reflexivity|].
  destruct (N.eqb_spec c 34) as [->|?]; [reflexivity|].
  destruct (N.eqb_spec c 92) as [->|?]; [reflexivity|].
  destruct (N.ltb_spec c 32).
  - apply parseStringBody_unicodeEscape. lia.
  - cbn [app]. now apply parseStringBody_raw.
Qed.

Lemma surrogate_bounds c :
  isHighSurrogate c = true \/ isLowSurrogate c = true ->
  (0xD800 <= c < 65536)%N.
Proof.
  unfold isHighSurrogate, isLowSurrogate, inRange.
  rewrite !andb_true_iff, !N.leb_le. lia.
Qed.

Lemma parseStringBody_quoteBody_aux n :
  forall s rest,
    length s <= n ->
    parseStringBody (quoteBody s ++ 34%N :: rest) = Parsed (s, rest).
Proof.
  induction n as [|n IH]; intros s rest Hn.
  { destruct s; [reflexivity|cbn in Hn; lia]. }
  destruct s as [|c tl]; [reflexivity|].
  cbn [length] in Hn.
  cbn [quoteBody].
  destruct (isHighSurrogate c) eqn:Hhi.
  - pose proof (surrogate_bounds c (or_introl Hhi)) as Hb.
    destruct tl as [|d tl'].
    + rewrite parseStringBody_unicodeEscape by lia. reflexivity.
    + destruct (isLowSurrogate d) eqn:Hlo.
      * pose proof (surrogate_bounds d (or_intror Hlo)) as Hd.
        cbn [app]. rewrite !parseStringBody_raw by lia.
        rewrite IH by (cbn [length] in *; lia). reflexivity.
      * rewrite <- app_assoc, parseStringBody_unicodeEscape by lia.
        rewrite IH by lia. reflexivity.
  - destruct (isLowSurrogate c) eqn:Hlo.
    + pose proof (surrogate_bounds c (or_intror Hlo)) as Hb.
      rewrite <- app_assoc, parseStringBody_unicodeEscape by lia.
      rewrite IH by lia. reflexivity.
    + rewrite <- app_assoc, parseStringBody_escapeUnit.
      rewrite IH by lia. reflexivity.
Qed.

Lemma parseStringBody_quoteBody s rest :
  parseStringBody (quoteBody s ++ 34%N :: rest) = Parsed (s, rest).
Proof. now apply (parseStringBody_quoteBody_aux (length s)). Qed.

(** ** Reading back what [JSON.stringify] writes: numbers *)

Lemma nzhead_not_D0 u u' : Decimal.nzhead u <> Decimal.D0 u'.
Proof. induction u; cbn [Decimal.nzhead]; try discriminate. exact IHu. Qed.

Lemma to_uint_normal n : Decimal.unorm (N.to_uint n) = N.to_uint n.
Proof.
  rewrite <- (DecimalN.Unsigned.of_to n) at 2.
  symmetry. apply DecimalN.Unsigned.to_of.
Qed.

Lemma digits_cases n :
  digits n = [48%N]
  \/ exists c tl, digits n = c :: tl /\ (49 <= c <= 57)%N.
Proof.
  unfold digits. pose proof (to_uint_normal n) as Hn.
  destruct (N.to_uint n) as [|u|u|u|u|u|u|u|u|u|u];
    try (right; eexists _, _; split; [reflexivity|lia]).
  - discriminate Hn.
  - left. rewrite DecimalFacts.unorm_D0 in Hn. unfold Decimal.unorm in Hn.
    destruct (Decimal.nzhead u) eqn:Hz; try discriminate Hn.
    + now injection Hn as <-.
    + now apply nzhead_not_D0 in Hz.
Qed.

Lemma uintToString_isDigit u : forallb isDigit (uintToString u) = true.
Proof. induction u; cbn [uintToString forallb]; try rewrite IHu; reflexivity. Qed.

Lemma stringToUint_uintToString u : stringToUint (uintToString u) = u.
Proof. induction u; cbn [uintToString stringToUint]; try rewrite IHu; reflexivity. Qed.

Lemma digitsValue_digits n : digitsValue (digits n) = n.
Proof.
  unfold digitsValue, digits. rewrite stringToUint_uintToString.
  apply DecimalN.Unsigned.of_to.
Qed.

Lemma followOk_head rest :
  followOk rest = true ->
  match rest with
  | [] => True
  | c :: _ => c = 44%N \/ c = 93%N \/ c = 125%N
  end.
Proof.
  destruct rest as [|c tl]; [trivial|]. cbn [followOk].
  rewrite !orb_true_iff, !N.eqb_eq. tauto.
Qed.

Lemma takeWhile_isDigit_app s rest :
  forallb isDigit s = true -> followOk rest = true ->
  takeWhile isDigit (s ++ rest) = s.
Proof.
  intros Hs Hrest. induction s as [|c tl IH].
  - apply followOk_head in Hrest. destruct rest as [|c tl]; [reflexivity|].
    cbn [app takeWhile].
    assert (isDigit c = false) as ->; [|reflexivity].
    unfold isDigit, inRange. apply andb_false_iff. rewrite !N.leb_gt. lia.
  - cbn [forallb] in Hs. apply andb_prop in Hs as [Hc Htl].
    cbn [app takeWhile]. rewrite Hc. now rewrite IH.
Qed.

Lemma intPart_digits n rest :
  followOk rest = true -> intPart (digits n ++ rest) = digits n.
Proof.
  intros Hrest. destruct (digits_cases n) as [E|(c & tl & E & Hc)].
  - rewrite E. reflexivity.
  - pose proof (takeWhile_isDigit_app (digits n) rest
                  (uintToString_isDigit _) Hrest) as Htw.
    rewrite E in *. cbn [app intPart].
    assert ((c =? 48)%N = false) as -> by (apply N.eqb_neq; lia).
    exact Htw.
Qed.

Lemma fracPart_follow rest :
  followOk rest = true -> fracPart rest = Parsed ([], rest).
Proof.
  intros H. apply followOk_head in H. destruct rest as [|c tl]; [reflexivity|].
  cbn [fracPart].
  assert ((c =? 46)%N = false) as -> by (apply N.eqb_neq; lia). reflexivity.
Qed.

Lemma expPart_follow rest :
  followOk rest = true -> expPart rest = Parsed (0%Z, rest).
Proof.
  intros H. apply followOk_head in H. destruct rest as [|c tl]; [reflexivity|].
  cbn [expPart].
  assert ((c =? 101)%N = false) as -> by (apply N.eqb_neq; lia).
  assert ((c =? 69)%N = false) as -> by (apply N.eqb_neq; lia).
  reflexivity.
Qed.

(** ** Rounding to a double *)

Section DoubleFacts.
Local Open Scope Z_scope.

Lemma roundHalfEven_nearest a b m :
  0 < b ->
  (2 * m - 1) * b <= 2 * a <= (2 * m + 1) * b ->
  (Z.even m = false -> (2 * m - 1) * b < 2 * a < (2 * m + 1) * b) ->
  roundHalfEven a b = m.
Proof.
  intros Hb Hbounds Hodd. unfold roundHalfEven.
  pose proof (Z.div_mod a b ltac:(lia)) as Hdm.
  pose proof (Z.mod_pos_bound a b Hb) as Hr.
  set (q := a / b) in *. set (r := a mod b) in *.
  assert (Hq : q = m \/ q = m - 1) by nia.
  destruct Hq as [Hq|Hq].
  - destruct (Z.ltb_spec (2 * r) b); [exact Hq|].
    destruct (Z.ltb_spec b (2 * r)); [nia|].
    destruct (Z.even q) eqn:Hev; [exact Hq|].
    rewrite Hq in Hev. specialize (Hodd Hev). nia.
  - destruct (Z.ltb_spec (2 * r) b); [nia|].
    destruct (Z.ltb_spec b (2 * r)); [lia|].
    destruct (Z.even q) eqn:Hev; [|lia].
    assert (Z.even m = false) as Hm.
    { replace m with (Z.succ q) by lia. rewrite Z.even_succ.
      rewrite <- Z.negb_even, Hev. reflexivity. }
    specialize (Hodd Hm). nia.
Qed.

Lemma roundHalfEven_bounds a b lo hi :
  0 < b -> lo * b <= a -> a <= hi * b ->
  lo <= roundHalfEven a b <= hi.
Proof.
  intros Hb Hlo Hhi. unfold roundHalfEven.
  pose proof (Z.div_mod a b ltac:(lia)) as Hdm.
  pose proof (Z.mod_pos_bound a b Hb) as Hr.
  set (q := a / b) in *. set (r := a mod b) in *.
  assert (lo <= q) by nia.
  assert (q <= hi) by nia.
  assert (0 < r -> q + 1 <= hi) by nia.
  destruct (Z.ltb_spec (2 * r) b); [lia|].
  destruct (Z.ltb_spec b (2 * r)); [lia|].
  destruct (Z.even q); lia.
Qed.

Lemma log2_between a den k :
  0 < den -> 0 <= k -> 2 ^ k * den <= a < 2 ^ (k + 1) * den ->
  Z.log2 (a / den) = k.
Proof.
  intros Hden Hk [Hlo Hhi]. apply Z.log2_unique; [exact Hk|].
  replace (Z.succ k) with (k + 1) by lia. split.
  - apply Z.div_le_lower_bound; lia.
  - apply Z.div_lt_upper_bound; lia.
Qed.

Lemma canonical_cases m e :
  canonical m e = true ->
  (2 ^ 52 <= m < 2 ^ 53 /\ -1074 <= e <= 971)
  \/ (0 < m < 2 ^ 52 /\ e = -1074).
Proof.
  unfold canonical. rewrite orb_true_iff, !andb_true_iff.
  rewrite !Z.leb_le, !Z.ltb_lt, Z.eqb_eq. tauto.
Qed.

(** What [roundsTo] says, with [Q] a quarter of the unit in the last
    place scaled by [den]. *)
Lemma roundsTo_bounds num den m e :
  roundsTo num den m e = true ->
  let a := num * 2 ^ 1076 in
  let Q := den * 2 ^ (e + 1074) in
  a <= (2 * m + 1) * (2 * Q)
  /\ (Z.even m = false -> a < (2 * m + 1) * (2 * Q))
  /\ ((m = 2 ^ 52 /\ -1074 < e /\ (4 * m - 1) * Q <= a)
      \/ (~ (m = 2 ^ 52 /\ -1074 < e)
          /\ (2 * m - 1) * (2 * Q) <= a
          /\ (Z.even m = false -> (2 * m - 1) * (2 * Q) < a))).
Proof.
  unfold roundsTo. cbv zeta. intros [Hl Hu]%andb_prop.
  set (a := num * 2 ^ 1076) in *. set (Q := den * 2 ^ (e + 1074)) in *.
  split; [|split].
  - destruct (Z.even m); [apply Z.leb_le in Hu|apply Z.ltb_lt in Hu]; lia.
  - intros Hodd. rewrite Hodd in Hu. now apply Z.ltb_lt in Hu.
  - destruct ((m =? 2 ^ 52) && (-1074 <? e)) eqn:Hb.
    + apply Z.leb_le in Hl. left.
      apply andb_prop in Hb as [Hm He]. apply Z.eqb_eq in Hm. apply Z.ltb_lt in He.
      now repeat split.
    + right. split.
      { intros [Hm He]. apply Z.eqb_eq in Hm. apply Z.ltb_lt in He.
        now rewrite Hm, He in Hb. }
      split.
      * destruct (Z.even m); [apply Z.leb_le in Hl|apply Z.ltb_lt in Hl]; lia.
      * intros Hodd. rewrite Hodd in Hl. now apply Z.ltb_lt in Hl.
Qed.

Lemma pow2_shift k e :
  0 <= k -> -1074 <= e -> 2 ^ (e + 1074 + k) = 2 ^ k * 2 ^ (e + 1074).
Proof. intros Hk He. rewrite Z.pow_add_r by lia. lia. Qed.

Lemma pow2_split e :
  -1074 <= e ->
  2 ^ (e + 1076) = 4 * 2 ^ (e + 1074)
  /\ 2 ^ (e + 1075) = 2 * 2 ^ (e + 1074)
  /\ 2 ^ (e + 1127) = 2 ^ 53 * 2 ^ (e + 1074)
  /\ 2 ^ (e + 1128) = 2 ^ 54 * 2 ^ (e + 1074)
  /\ 2 ^ (e + 1129) = 2 ^ 55 * 2 ^ (e + 1074)
  /\ 0 < 2 ^ (e + 1074)
  /\ (-1074 < e -> 2 <= 2 ^ (e + 1074)).
Proof.
  intros He.
  replace (e + 1076) with (e + 1074 + 2) by lia.
  replace (e + 1075) with (e + 1074 + 1) by lia.
  replace (e + 1127) with (e + 1074 + 53) by lia.
  replace (e + 1128) with (e + 1074 + 54) by lia.
  replace (e + 1129) with (e + 1074 + 55) by lia.
  split; [now apply (pow2_shift 2)|]. split; [now apply (pow2_shift 1)|].
  split; [now apply pow2_shift|]. split; [now apply pow2_shift|].
  split; [now apply pow2_shift|]. split.
  - apply Z.pow_pos_nonneg; lia.
  - intros H. replace (e + 1074) with (e - 1 + 1074 + 1) by lia.
    rewrite (pow2_shift 1) by lia.
    pose proof (Z.pow_pos_nonneg 2 (e - 1 + 1074) ltac:(lia) ltac:(lia)).
    change (2 ^ 1) with 2. lia.
Qed.

(** [roundQ] gives the double in whose interval the number lies. *)
Lemma roundQ_correct num den m e :
  0 < den -> canonical m e = true -> roundsTo num den m e = true ->
  roundQ num den = RFinite m e.
Proof.
  intros Hden Hcan Hrt.
  apply canonical_cases in Hcan.
  assert (He : -1074 <= e) by lia.
  pose proof (roundsTo_bounds _ _ _ _ Hrt) as (HU & HUodd & HL). cbv zeta in *.
  destruct (pow2_split e He) as (P4 & P2 & P53 & P54 & P55 & Ppos & Pbig).
  unfold roundQ. cbv zeta.
  set (a := num * 2 ^ 1076) in *.
  set (P := 2 ^ (e + 1074)) in *.
  set (Q := den * P) in *.
  assert (HQ : 0 < Q) by (subst Q; nia).
  assert (T52 : 2 ^ 52 = 4503599627370496) by reflexivity.
  assert (T53 : 2 ^ 53 = 9007199254740992) by reflexivity.
  assert (T54 : 2 ^ 54 = 18014398509481984) by reflexivity.
  assert (T55 : 2 ^ 55 = 36028797018963968) by reflexivity.
  assert (Hboundary : (m = 2 ^ 52 /\ -1074 < e /\ a < 4 * m * Q)
                      \/ ~ (m = 2 ^ 52 /\ -1074 < e /\ a < 4 * m * Q)) by lia.
  destruct Hboundary as [(Hm & Hgt & Hlow)|Hnb].
  - (* just below a power of two: the binade is the one below *)
    destruct HL as [(_ & _ & HL)|(Hn & _)]; [|lia].
    specialize (Pbig Hgt).
    assert (Hbig : 2 ^ 54 * den <= a) by (subst Q; nia).
    destruct (Z.ltb_spec a (2 ^ 54 * den)) as [|_]; [lia|].
    assert (Hlog : Z.log2 (a / den) = e + 1127).
    { apply log2_between; [assumption|lia|].
      replace (e + 1127 + 1) with (e + 1128) by lia.
      rewrite P53, P54. subst Q. nia. }
    rewrite Hlog.
    replace (e + 1127 - 52) with (e + 1075) by lia. rewrite P2.
    replace (den * (2 * P)) with (2 * Q) by (subst Q; lia).
    rewrite (roundHalfEven_nearest a (2 * Q) (2 ^ 53)); [| lia | nia | discriminate].
    change (2 ^ 53 =? 0) with false. rewrite Z.eqb_refl. cbv iota.
    destruct (Z.leb_spec 971 (e + 1075 - 1076)); [lia|].
    f_equal; lia.
  - (* otherwise the binade is that of the double *)
    assert (HL' : (2 * m - 1) * (2 * Q) <= a
                  /\ (Z.even m = false -> (2 * m - 1) * (2 * Q) < a)).
    { destruct HL as [(Hm & Hgt & HL)|(_ & HL)]; [|exact HL].
      split; [nia|]. intros Hodd. rewrite Hm in Hodd. discriminate. }
    destruct HL' as [HL1 HLodd].
    assert (Hexp : (if a <? 2 ^ 54 * den then 2 else Z.log2 (a / den) - 52)
                   = e + 1076).
    { destruct (Z.ltb_spec a (2 ^ 54 * den)) as [Hsmall|Hlarge].
      - (* only the least binade reaches below 2^-1022 *)
        assert (e = -1074); [|lia].
        destruct (Z.eq_dec e (-1074)) as [|Hne]; [assumption|exfalso].
        specialize (Pbig ltac:(lia)).
        destruct Hcan as [[Hm _]|[_ ?]]; [|lia].
        destruct HL as [(_ & _ & HL)|_]; subst Q; nia.
      - assert (Hlog : Z.log2 (a / den) = e + 1128); [|lia].
        apply log2_between; [assumption|lia|].
        replace (e + 1128 + 1) with (e + 1129) by lia.
        rewrite P54, P55.
        replace (2 ^ 54 * P * den) with (2 ^ 54 * Q) by (subst Q; lia).
        replace (2 ^ 55 * P * den) with (2 ^ 55 * Q) by (subst Q; lia).
        split; [|nia].
        destruct Hcan as [[Hm Hrange]|[Hm Hsub]].
        + destruct (Z.eq_dec m (2 ^ 52)) as [Hm52|Hm52]; [|nia].
          destruct (Z.eq_dec e (-1074)) as [He'|He'].
          * subst e. change (2 ^ (-1074 + 1074)) with 1 in *.
            subst Q P. lia.
          * nia.
        + subst e. change (2 ^ (-1074 + 1074)) with 1 in *. subst Q P. nia. }
    rewrite Hexp, P4.
    replace (den * (4 * P)) with (4 * Q) by (subst Q; lia).
    rewrite (roundHalfEven_nearest a (4 * Q) m); [| lia | lia | ].
    2:{ intros Hodd. specialize (HUodd Hodd). specialize (HLodd Hodd). lia. }
    assert (Hm : 0 < m < 2 ^ 53) by lia.
    destruct (Z.eqb_spec m 0); [lia|].
    destruct (Z.eqb_spec m (2 ^ 53)); [lia|].
    destruct (Z.ltb_spec 971 (e + 1076 - 1076)); [lia|].
    f_equal. lia.
Qed.

(** What [roundQ] gives is in canonical form. *)
Lemma roundQ_canonical num den m e :
  0 <= num -> 0 < den -> roundQ num den = RFinite m e -> canonical m e = true.
Proof.
  intros Hnum Hden. unfold roundQ. cbv zeta.
  set (a := num * 2 ^ 1076).
  assert (Ha : 0 <= a) by (subst a; apply Z.mul_nonneg_nonneg; [lia|apply Z.pow_nonneg; lia]).
  assert (T52 : 2 ^ 52 = 4503599627370496) by reflexivity.
  assert (T53 : 2 ^ 53 = 9007199254740992) by reflexivity.
  assert (T54 : 2 ^ 54 = 18014398509481984) by reflexivity.
  assert (Hcanon : forall m0 e0,
            (2 ^ 52 <= m0 < 2 ^ 53 /\ -1074 <= e0 <= 971)
            \/ (0 < m0 < 2 ^ 52 /\ e0 = -1074) -> canonical m0 e0 = true).
  { intros m0 e0 H. unfold canonical.
    rewrite orb_true_iff, !andb_true_iff, !Z.leb_le, !Z.ltb_lt, Z.eqb_eq. tauto. }
  destruct (Z.ltb_spec a (2 ^ 54 * den)) as [Hsmall|Hlarge].
  - change (2 ^ 2) with 4.
    pose proof (roundHalfEven_bounds a (den * 4) 0 (2 ^ 52) ltac:(lia) ltac:(lia)
                  ltac:(lia)) as Hm.
    set (m' := roundHalfEven a (den * 4)) in *.
    destruct (Z.eqb_spec m' 0); [discriminate|].
    destruct (Z.eqb_spec m' (2 ^ 53)); [lia|].
    change (971 <? 2 - 1076) with false. cbv iota.
    intros [= <- <-]. apply Hcanon. lia.
  - assert (Hq : 2 ^ 54 <= a / den) by (apply Z.div_le_lower_bound; lia).
    pose proof (Z.log2_spec (a / den) ltac:(lia)) as [Hl1 Hl2].
    set (l := Z.log2 (a / den)) in *.
    assert (Hl : 54 <= l).
    { apply Z.log2_le_mono in Hq. rewrite Z.log2_pow2 in Hq by lia. exact Hq. }
    assert (Hsplit : 2 ^ l = 2 ^ 52 * 2 ^ (l - 52)).
    { rewrite <- Z.pow_add_r by lia. f_equal. lia. }
    assert (Hsucc : 2 ^ Z.succ l = 2 ^ 53 * 2 ^ (l - 52)).
    { rewrite <- Z.pow_add_r by lia. f_equal. lia. }
    set (P := 2 ^ (l - 52)) in *.
    assert (HP : 0 < P) by (apply Z.pow_pos_nonneg; lia).
    pose proof (Z.mul_div_le a den Hden) as Hd1.
    pose proof (Z.mul_succ_div_gt a den Hden) as Hd2.
    assert (Hlo : 2 ^ 52 * (den * P) <= a) by nia.
    assert (Hhi : a <= 2 ^ 53 * (den * P)) by nia.
    pose proof (roundHalfEven_bounds a (den * P) (2 ^ 52) (2 ^ 53) ltac:(nia)
                  Hlo Hhi) as Hm.
    set (m' := roundHalfEven a (den * P)) in *.
    destruct (Z.eqb_spec m' 0); [lia|].
    destruct (Z.eqb_spec m' (2 ^ 53)).
    + destruct (Z.leb_spec 971 (l - 52 - 1076)); [discriminate|].
      intros [= <- <-]. apply Hcanon. lia.
    + destruct (Z.ltb_spec 971 (l - 52 - 1076)); [discriminate|].
      intros [= <- <-]. apply Hcanon. lia.
Qed.

(** A number that is a double lies in its own interval. *)
Lemma roundsTo_exact num den m e :
  0 < den -> canonical m e = true ->
  num * 2 ^ 1076 = m * (4 * 2 ^ (e + 1074)) * den ->
  roundsTo num den m e = true.
Proof.
  intros Hden Hcan Hnum. apply canonical_cases in Hcan.
  destruct (pow2_split e ltac:(lia)) as (_ & _ & _ & _ & _ & Ppos & _).
  unfold roundsTo. cbv zeta. rewrite Hnum.
  set (P := 2 ^ (e + 1074)) in *.
  assert (HQ : 0 < den * P) by nia.
  set (Q := den * P) in *.
  replace (m * (4 * P) * den) with (4 * m * Q) by (subst Q; lia).
  apply andb_true_intro. split.
  - destruct ((m =? 2 ^ 52) && (-1074 <? e)); [apply Z.leb_le; nia|].
    destruct (Z.even m); [apply Z.leb_le|apply Z.ltb_lt]; nia.
  - destruct (Z.even m); [apply Z.leb_le|apply Z.ltb_lt]; nia.
Qed.

(** A positive integer up to [2^53] is a double, and a safe integer. *)
Lemma integer_canonical z :
  0 < z <= 2 ^ 53 ->
  exists m e,
    canonical m e = true
    /\ z * 2 ^ 1076 = m * (4 * 2 ^ (e + 1074)) * 1
    /\ isSafeInteger m e = true
    /\ integerValue m e = z.
Proof.
  intros Hz.
  assert (T52 : 2 ^ 52 = 4503599627370496) by reflexivity.
  assert (T53 : 2 ^ 53 = 9007199254740992) by reflexivity.
  destruct (Z.eq_dec z (2 ^ 53)) as [->|Hne].
  { exists (2 ^ 52), 1. repeat split; vm_compute; reflexivity. }
  pose proof (Z.log2_spec z ltac:(lia)) as [Hl1 Hl2].
  pose proof (Z.log2_nonneg z) as Hl0.
  set (l := Z.log2 z) in *.
  assert (Hl : l <= 52).
  { destruct (Z.le_gt_cases l 52) as [|Hgt]; [assumption|exfalso].
    assert (2 ^ 53 <= 2 ^ l) by (apply Z.pow_le_mono_r; lia). lia. }
  assert (Hp : 2 ^ l * 2 ^ (52 - l) = 2 ^ 52).
  { rewrite <- Z.pow_add_r by lia. f_equal. lia. }
  assert (Hs : 2 ^ Z.succ l = 2 * 2 ^ l).
  { rewrite Z.pow_succ_r by lia. reflexivity. }
  assert (HP : 0 < 2 ^ (52 - l)) by (apply Z.pow_pos_nonneg; lia).
  exists (z * 2 ^ (52 - l)), (l - 52).
  set (P := 2 ^ (52 - l)) in *.
  assert (Hcan : canonical (z * P) (l - 52) = true).
  { unfold canonical. apply orb_true_iff. left.
    rewrite !andb_true_iff, !Z.leb_le, Z.ltb_lt. nia. }
  split; [exact Hcan|]. split; [|split].
  - replace (l - 52 + 1074) with (1022 + l) by lia.
    replace 1076 with (2 + ((52 - l) + (1022 + l))) at 1 by lia.
    rewrite !Z.pow_add_r by lia. fold P. change (2 ^ 2) with 4. lia.
  - unfold isSafeInteger. destruct (Z.leb_spec 0 (l - 52)) as [H0|H0].
    + assert (Hl52 : l = 52) by lia.
      assert (HP1 : P = 1) by (subst P; rewrite Hl52; reflexivity).
      rewrite Hl52, HP1. apply Z.leb_le. change (2 ^ (52 - 52)) with 1. lia.
    + apply Z.eqb_eq. replace (- (l - 52)) with (52 - l) by lia. fold P.
      apply Z.mod_mul. lia.
  - unfold integerValue. destruct (Z.leb_spec 0 (l - 52)) as [H0|H0].
    + assert (Hl52 : l = 52) by lia.
      assert (HP1 : P = 1) by (subst P; rewrite Hl52; reflexivity).
      rewrite Hl52, HP1. change (2 ^ (52 - 52)) with 1. lia.
    + replace (- (l - 52)) with (52 - l) by lia. fold P.
      apply Z.div_mul. lia.
Qed.

Lemma roundsTo_positive num den m e :
  0 < den -> canonical m e = true -> roundsTo num den m e = true -> 0 < num.
Proof.
  intros Hden Hcan Hrt. apply canonical_cases in Hcan.
  pose proof (roundsTo_bounds _ _ _ _ Hrt) as (_ & _ & HL). cbv zeta in HL.
  destruct (pow2_split e ltac:(lia)) as (_ & _ & _ & _ & _ & Ppos & _).
  assert (HQ : 0 < den * 2 ^ (e + 1074)) by nia.
  assert (Hm : 0 < m) by lia.
  set (Q := den * 2 ^ (e + 1074)) in *. set (a := num * 2 ^ 1076) in *.
  assert (H1 : 0 < (4 * m - 1) * Q) by (apply Z.mul_pos_pos; lia).
  assert (H2 : 0 < (2 * m - 1) * (2 * Q)) by (apply Z.mul_pos_pos; lia).
  assert (Ha : 0 < a) by (destruct HL as [(_ & _ & HL)|(_ & HL & _)]; lia).
  assert (Hp : 0 < 2 ^ 1076) by (apply Z.pow_pos_nonneg; lia).
  subst a. nia.
Qed.

(** The exact decimal expansion of a double rounds to it. *)
Lemma exactDecimal_roundsTo m e :
  canonical m e = true -> decimalRoundsTo (exactDecimal m e) (-1074) m e = true.
Proof.
  intros Hcan. unfold decimalRoundsTo. change (0 <=? -1074) with false. cbv iota.
  change (- -1074) with 1074.
  apply roundsTo_exact; [apply Z.pow_pos_nonneg; lia|exact Hcan|].
  unfold exactDecimal.
  replace (10 ^ 1074) with (2 ^ 1074 * 5 ^ 1074)
    by (rewrite <- Z.pow_mul_l; reflexivity).
  replace (2 ^ 1076) with (4 * 2 ^ 1074)
    by (change 1076 with (2 + 1074); rewrite Z.pow_add_r by lia; reflexivity).
  ring.
Qed.

(** The search of Number::toString ends with a decimal that rounds to
    the double. *)
Lemma shortestFrom_roundsTo m e X L :
  X = exactDecimal m e -> canonical m e = true ->
  forall fuel k,
    decimalRoundsTo (fst (shortestFrom fuel k X L m e))
                    (snd (shortestFrom fuel k X L m e)) m e = true.
Proof.
  intros -> Hcan. induction fuel as [|fuel IH]; intros k.
  { cbn [shortestFrom fst snd]. now apply exactDecimal_roundsTo. }
  cbn [shortestFrom]. cbv zeta.
  match goal with
  | |- context [if ?c1 && (negb ?c2 || ?c3) then _ else _] =>
      destruct c1 eqn:Hlo; destruct c2 eqn:Hup; destruct c3;
        cbn [andb orb negb fst snd]; try assumption; try apply IH
  end.
Qed.

Lemma shortest_roundsTo m e :
  canonical m e = true ->
  decimalRoundsTo (fst (shortest m e)) (snd (shortest m e)) m e = true.
Proof. intros Hcan. unfold shortest. now apply shortestFrom_roundsTo. Qed.

Lemma decimalRoundsTo_positive s E m e :
  canonical m e = true -> decimalRoundsTo s E m e = true -> 0 < s.
Proof.
  intros Hcan. unfold decimalRoundsTo. destruct (Z.leb_spec 0 E) as [HE|HE].
  - intros H. apply roundsTo_positive in H; [|lia|exact Hcan].
    assert (0 < 10 ^ E) by (apply Z.pow_pos_nonneg; lia). nia.
  - apply roundsTo_positive; [apply Z.pow_pos_nonneg; lia|exact Hcan].
Qed.

End DoubleFacts.

(** ** The number of a literal *)

Lemma classify_roundsTo neg num den m e :
  (0 < den)%N -> canonical m e = true -> isSafeInteger m e = false ->
  roundsTo (Z.of_N num) (Z.of_N den) m e = true ->
  classify neg num den = Parsed (Binary neg m e).
Proof.
  intros Hden Hcan Hsafe Hrt. unfold classify.
  rewrite (roundQ_correct _ _ m e) by (try assumption; lia).
  cbn [ofRounded]. now rewrite Hsafe.
Qed.

Lemma classify_integer neg n :
  (n <= 2 ^ 53)%N ->
  classify neg (n * 10 ^ Z.to_N 0) 1
  = Parsed (Finite (if neg then - Z.of_N n else Z.of_N n)%Z).
Proof.
  intros Hn. unfold classify.
  change (Z.to_N 0) with 0%N. rewrite N.pow_0_r, N.mul_1_r.
  destruct (N.eq_dec n 0%N) as [->|Hne].
  { now destruct neg. }
  assert (Hz : (0 < Z.of_N n <= 2 ^ 53)%Z).
  { split; [lia|]. change (2 ^ 53)%Z with (Z.of_N (2 ^ 53)). lia. }
  destruct (integer_canonical _ Hz) as (m & e & Hcan & Hval & Hsafe & Hint).
  change (Z.of_N 1) with 1%Z.
  rewrite (roundQ_correct _ _ m e);
    [|lia|exact Hcan|apply roundsTo_exact; [lia|exact Hcan|exact Hval]].
  cbn [ofRounded]. now rewrite Hsafe, Hint.
Qed.

Lemma classify_wellFormed neg num den n :
  (0 < den)%N -> classify neg num den = Parsed n -> wellFormed (JNumber n).
Proof.
  intros Hden. unfold classify. intros [= <-].
  destruct (roundQ (Z.of_N num) (Z.of_N den)) as [|m e|] eqn:Hr;
    cbn [ofRounded wellFormed].
  - cbn. lia.
  - apply roundQ_canonical in Hr; [|lia|lia].
    destruct (isSafeInteger m e) eqn:Hsafe; cbn [wellFormed]; [|now split].
    apply canonical_cases in Hr. unfold isSafeInteger, integerValue in *.
    assert (T53 : (2 ^ 53 = 9007199254740992)%Z) by reflexivity.
    destruct (Z.leb_spec 0 e) as [He|He].
    + apply Z.leb_le in Hsafe.
      assert (0 < 2 ^ e)%Z by (apply Z.pow_pos_nonneg; lia).
      destruct neg; nia.
    + assert (Hp : (0 < 2 ^ (- e))%Z) by (apply Z.pow_pos_nonneg; lia).
      pose proof (Z.div_pos m (2 ^ (- e)) ltac:(lia) Hp).
      pose proof (Z.div_le_upper_bound m (2 ^ (- e)) m Hp ltac:(nia)).
      destruct neg; lia.
  - trivial.
Qed.

(** ** Reading back what Number::toString writes *)

Lemma isDigit_cases c :
  isDigit c = true ->
  (c = 48 \/ c = 49 \/ c = 50 \/ c = 51 \/ c = 52 \/ c = 53 \/ c = 54
   \/ c = 55 \/ c = 56 \/ c = 57)%N.
Proof.
  unfold isDigit, inRange. rewrite andb_true_iff, !N.leb_le. lia.
Qed.

Lemma of_uint_acc_horner s :
  forallb isDigit s = true ->
  forall acc,
    N.pos (Pos.of_uint_acc (stringToUint s) acc) = horner (N.pos acc) s.
Proof.
  induction s as [|c tl IH]; intros Hs acc; [reflexivity|].
  cbn [forallb] in Hs. apply andb_prop in Hs as [Hc Htl].
  apply isDigit_cases in Hc.
  destruct Hc as [->|[->|[->|[->|[->|[->|[->|[->|[->| ->]]]]]]]]];
    cbn [stringToUint N.eqb Pos.eqb Pos.of_uint_acc horner fold_left];
    rewrite (IH Htl); unfold horner; f_equal; lia.
Qed.

Lemma digitsValue_horner s :
  forallb isDigit s = true -> digitsValue s = horner 0 s.
Proof.
  unfold digitsValue, N.of_uint.
  induction s as [|c tl IH]; intros Hs; [reflexivity|].
  cbn [forallb] in Hs. apply andb_prop in Hs as [Hc Htl].
  apply isDigit_cases in Hc.
  destruct Hc as [->|[->|[->|[->|[->|[->|[->|[->|[->| ->]]]]]]]]];
    cbn [stringToUint N.eqb Pos.eqb Pos.of_uint horner fold_left];
    try (rewrite (of_uint_acc_horner tl Htl); unfold horner; f_equal; lia).
  exact (IH Htl).
Qed.

Lemma horner_shift s :
  forall acc, horner acc s = (acc * 10 ^ N.of_nat (length s) + horner 0 s)%N.
Proof.
  induction s as [|c tl IH]; intros acc.
  { cbn. lia. }
  cbn [horner fold_left length]. fold (horner (10 * acc + (c - 48)) tl).
  fold (horner (10 * 0 + (c - 48)) tl).
  rewrite (IH (10 * acc + (c - 48))%N), (IH (10 * 0 + (c - 48))%N).
  rewrite Nat2N.inj_succ, N.pow_succ_r'. lia.
Qed.

Lemma horner_app a s t : horner a (s ++ t) = horner (horner a s) t.
Proof. apply fold_left_app. Qed.

Lemma horner_zeros j : forall a, horner a (repeat 48%N j) = (a * 10 ^ N.of_nat j)%N.
Proof.
  induction j as [|j IH]; intros a.
  { cbn. lia. }
  cbn [repeat horner fold_left]. fold (horner (10 * a + (48 - 48)) (repeat 48%N j)).
  rewrite IH, Nat2N.inj_succ, N.pow_succ_r'. lia.
Qed.

Lemma forallb_isDigit_zeros j : forallb isDigit (repeat 48%N j) = true.
Proof. induction j; [reflexivity|exact IHj]. Qed.

Lemma digits_isDigit n : forallb isDigit (digits n) = true.
Proof. apply uintToString_isDigit. Qed.

Lemma horner_digits n : horner 0 (digits n) = n.
Proof. rewrite <- digitsValue_horner by apply digits_isDigit. apply digitsValue_digits. Qed.

(** A run of digits ends at a character that is no digit. *)
Lemma takeWhile_isDigit_stop s c rest :
  forallb isDigit s = true -> isDigit c = false ->
  takeWhile isDigit (s ++ c :: rest) = s.
Proof.
  intros Hs Hc. induction s as [|d tl IH].
  - cbn [app takeWhile]. now rewrite Hc.
  - cbn [forallb] in Hs. apply andb_prop in Hs as [Hd Htl].
    cbn [app takeWhile]. rewrite Hd. now rewrite IH.
Qed.

Lemma numberAfterSign_parts neg (s1 ints fr s2 : jsstring) (ex : Z)
    (rest : jsstring) :
  intPart s1 = ints -> ints <> [] ->
  fracPart (drop (length ints) s1) = Parsed (fr, s2) ->
  expPart s2 = Parsed (ex, rest) ->
  numberAfterSign neg s1
  = bindP (literalNumber neg (digitsValue (ints ++ fr))
             (ex - Z.of_nat (length fr)))
          (fun n => Parsed (n, rest)).
Proof.
  intros Hi Hne Hf He. unfold numberAfterSign. rewrite Hi.
  destruct ints as [|c tl]; [congruence|].
  rewrite Hf. cbn [bindP fst snd]. rewrite He. reflexivity.
Qed.

(** [parseNumber] is the reading of the sign followed by
    [numberAfterSign]. *)
Lemma parseNumber_signed (neg : bool) c tl :
  isDigit c = true ->
  parseNumber ((if neg then [45%N] else []) ++ c :: tl)
  = numberAfterSign neg (c :: tl).
Proof.
  intros Hc. unfold parseNumber, numberAfterSign, literalNumber.
  destruct neg; cbn [app].
  - reflexivity.
  - assert ((c =? 45)%N = false) as ->; [|reflexivity].
    apply isDigit_cases in Hc. apply N.eqb_neq. lia.
Qed.

Lemma digits_positive s :
  (0 < s)%N ->
  exists c tl, digits s = c :: tl /\ (49 <= c <= 57)%N
               /\ forallb isDigit (c :: tl) = true.
Proof.
  intros Hs. destruct (digits_cases s) as [E|(c & tl & E & Hc)].
  - pose proof (digitsValue_digits s) as Hv. rewrite E in Hv.
    vm_compute in Hv. lia.
  - exists c, tl. split; [exact E|]. split; [exact Hc|].
    rewrite <- E. apply digits_isDigit.
Qed.

Lemma digits_nonempty_takeWhile x rest :
  followOk rest = true ->
  exists c tl, takeWhile isDigit (digits x ++ rest) = c :: tl
               /\ c :: tl = digits x.
Proof.
  intros Hrest.
  rewrite (takeWhile_isDigit_app _ _ (digits_isDigit x) Hrest).
  destruct (digits_cases x) as [E|(c & tl & E & _)]; rewrite E; eauto.
Qed.

(** The exponent part Number::toString writes. *)
Lemma expPart_exponent (z : Z) rest :
  followOk rest = true ->
  expPart ([101%N; if (z <? 0)%Z then 45%N else 43%N]
             ++ digits (Z.abs_N z) ++ rest)
  = Parsed (z, rest).
Proof.
  intros Hrest.
  destruct (digits_nonempty_takeWhile (Z.abs_N z) rest Hrest) as (c & tl & Htw & Hds).
  assert (Hval : Z.of_N (digitsValue (c :: tl)) = Z.abs z).
  { rewrite Hds, digitsValue_digits. apply N2Z.inj_abs_N. }
  assert (Hdrop : drop (length (c :: tl)) (digits (Z.abs_N z) ++ rest) = rest).
  { rewrite Hds. apply drop_app_length. }
  cbn [app expPart]. change (101 =? 101)%N with true. cbn [orb].
  destruct (Z.ltb_spec z 0) as [Hneg|Hpos].
  - change (45 =? 45)%N with true. cbv iota. rewrite Htw.
    cbv beta iota zeta. rewrite Hval, Hdrop. f_equal. f_equal. lia.
  - change (43 =? 45)%N with false. change (43 =? 43)%N with true. cbv iota.
    rewrite Htw. cbv beta iota zeta. rewrite Hval, Hdrop. f_equal. f_equal. lia.
Qed.

Lemma fracPart_digits (fr rest : jsstring) :
  fr <> [] -> forallb isDigit fr = true ->
  takeWhile isDigit (fr ++ rest) = fr ->
  fracPart (46%N :: fr ++ rest) = Parsed (fr, rest).
Proof.
  intros Hne Hfr Htw. cbn [fracPart]. change (46 =? 46)%N with true. cbv iota.
  rewrite Htw. destruct fr as [|c tl]; [congruence|].
  now rewrite drop_app_length.
Qed.

Lemma fracPart_none c (rest : jsstring) :
  c <> 46%N -> fracPart (c :: rest) = Parsed ([], c :: rest).
Proof.
  intros Hc. cbn [fracPart].
  assert ((c =? 46)%N = false) as -> by now apply N.eqb_neq. reflexivity.
Qed.

Lemma intPart_run (run rest : jsstring) c tl :
  run = c :: tl -> (c =? 48)%N = false -> forallb isDigit run = true ->
  followOk rest = true -> intPart (run ++ rest) = run.
Proof.
  intros E Hc Hrun Hrest.
  pose proof (takeWhile_isDigit_app run rest Hrun Hrest) as Htw.
  rewrite E in *. cbn [app intPart]. now rewrite Hc.
Qed.

Lemma intPart_stop (run rest : jsstring) c tl x :
  run = c :: tl -> (c =? 48)%N = false -> forallb isDigit run = true ->
  isDigit x = false -> intPart (run ++ x :: rest) = run.
Proof.
  intros E Hc Hrun Hx.
  pose proof (takeWhile_isDigit_stop run x rest Hrun Hx) as Htw.
  rewrite E in *. cbn [app intPart]. now rewrite Hc.
Qed.

Lemma literalNumber_eq neg m k m' k' :
  m = m' -> k = k' -> literalNumber neg m k = literalNumber neg m' k'.
Proof. now intros -> ->. Qed.

(** [parseNumber] reads each layout of Number::toString as the decimal
    it denotes. *)
Lemma numberAfterSign_formatDecimal neg s n rest :
  (0 < s)%N -> followOk rest = true ->
  numberAfterSign neg (formatDecimal (digits s) n ++ rest)
  = bindP (literalNumber neg s (n - Z.of_nat (length (digits s))))
          (fun x => Parsed (x, rest)).
Proof.
  intros Hs Hrest.
  destruct (digits_positive s Hs) as (c & tl & E & Hc & Hall).
  pose proof (horner_digits s) as Hval.
  assert (Hc48 : (c =? 48)%N = false) by (apply N.eqb_neq; lia).
  assert (Hdot : isDigit 46 = false) by reflexivity.
  assert (He : isDigit 101 = false) by reflexivity.
  unfold formatDecimal. cbv zeta.
  set (ds := digits s) in *. set (k := Z.of_nat (length ds)).
  destruct ((k <=? n)%Z && (n <=? 21)%Z) eqn:C1.
  { (* digits followed by zeros *)
    apply andb_prop in C1 as [C1 _]. apply Z.leb_le in C1.
    set (j := Z.to_nat (n - k)).
    assert (Hdig : forallb isDigit (ds ++ repeat 48%N j) = true).
    { rewrite forallb_app, forallb_isDigit_zeros, andb_true_r.
      subst ds. rewrite E. exact Hall. }
    rewrite (numberAfterSign_parts neg _ (ds ++ repeat 48%N j) [] rest 0 rest).
    - f_equal. unfold literalNumber.
      change (0 - Z.of_nat (length (@nil N)))%Z with 0%Z.
      change (0 <=? 0)%Z with true. cbv iota.
      destruct (Z.leb_spec 0 (n - k)); [|lia].
      f_equal. rewrite app_nil_r, (digitsValue_horner _ Hdig), horner_app.
      rewrite Hval, horner_zeros. change (Z.to_N 0) with 0%N.
      rewrite N.pow_0_r, N.mul_1_r. f_equal. f_equal. subst j. lia.
    - apply (intPart_run _ _ c (tl ++ repeat 48%N j)); try assumption.
      subst ds. now rewrite E.
    - subst ds. rewrite E. discriminate.
    - rewrite drop_app_length. now apply fracPart_follow.
    - now apply expPart_follow. }
  destruct ((0 <? n)%Z && (n <=? 21)%Z) eqn:C2.
  { (* a decimal point inside the digits *)
    apply andb_prop in C2 as [C2 C2']. apply Z.ltb_lt in C2.
    apply Z.leb_le in C2'.
    assert (Hnk : (n < k)%Z).
    { apply andb_false_iff in C1 as [C1|C1]; apply Z.leb_gt in C1; lia. }
    set (i := Z.to_nat n).
    assert (Hi : 0 < i < length ds) by (subst i k; lia).
    assert (Htake : exists tk, take i ds = c :: tk).
    { subst ds. rewrite E. destruct i; [lia|]. cbn [take]. eauto. }
    destruct Htake as [tk Htk].
    assert (Hdt : forallb isDigit (take i ds) = true
                  /\ forallb isDigit (drop i ds) = true).
    { apply andb_prop. rewrite <- forallb_app, take_drop.
      subst ds. rewrite E. exact Hall. }
    destruct Hdt as [Hdt Hdd].
    assert (Hdne : drop i ds <> []).
    { intros H. apply (f_equal length) in H. rewrite length_drop in H.
      cbn in H. lia. }
    rewrite (numberAfterSign_parts neg _ (take i ds) (drop i ds) rest 0 rest).
    - f_equal. apply literalNumber_eq.
      + rewrite take_drop. subst ds. apply digitsValue_digits.
      + rewrite length_drop. subst i k. lia.
    - rewrite <- app_assoc. cbn [app].
      now apply (intPart_stop _ _ c tk).
    - rewrite Htk. discriminate.
    - rewrite <- !app_assoc. rewrite drop_app_length. cbn [app].
      apply fracPart_digits; [assumption|assumption|].
      now apply takeWhile_isDigit_app.
    - now apply expPart_follow. }
  destruct ((-6 <? n)%Z && (n <=? 0)%Z) eqn:C3.
  { (* zero, a point and zeros before the digits *)
    apply andb_prop in C3 as [_ C3]. apply Z.leb_le in C3.
    set (j := Z.to_nat (- n)).
    assert (Hfr : forallb isDigit (repeat 48%N j ++ ds) = true).
    { rewrite forallb_app, forallb_isDigit_zeros. subst ds. rewrite E. exact Hall. }
    rewrite (numberAfterSign_parts neg _ [48%N] (repeat 48%N j ++ ds) rest 0 rest).
    - f_equal. apply literalNumber_eq.
      + rewrite digitsValue_horner by (cbn [app forallb]; now rewrite Hfr).
        cbn [app]. change (horner 0 (48%N :: repeat 48%N j ++ ds))
          with (horner 0 (repeat 48%N j ++ ds)).
        rewrite horner_app, horner_zeros. exact Hval.
      + rewrite length_app, repeat_length. subst j k. lia.
    - reflexivity.
    - discriminate.
    - cbn [app length drop].
      apply fracPart_digits; [|assumption|now apply takeWhile_isDigit_app].
      subst ds. rewrite E. now destruct (repeat 48%N j).
    - now apply expPart_follow. }
  (* the exponent forms *)
  subst ds. rewrite E. fold (digits s) in *.
  assert (Hk : k = Z.of_nat (S (length tl))) by (subst k; now rewrite E).
  set (es := [101%N; if (n - 1 <? 0)%Z then 45%N else 43%N]
               ++ digits (Z.abs_N (n - 1))).
  assert (Hes : expPart (es ++ rest) = Parsed ((n - 1)%Z, rest)).
  { subst es. rewrite <- app_assoc. now apply expPart_exponent. }
  assert (Hcd : forallb isDigit [c] = true).
  { cbn [forallb] in *. apply andb_prop in Hall as [-> _]. reflexivity. }
  destruct tl as [|d tl'].
  - rewrite (numberAfterSign_parts neg _ [c] [] (es ++ rest) (n - 1) rest).
    + f_equal. apply literalNumber_eq.
      * rewrite app_nil_r, <- E. apply digitsValue_digits.
      * cbn [length] in *. lia.
    + change ((c :: es) ++ rest) with ([c] ++ 101%N :: tail es ++ rest).
      now apply (intPart_stop _ _ c []).
    + discriminate.
    + change (drop (length [c]) ((c :: es) ++ rest)) with (101%N :: tail es ++ rest).
      change (es ++ rest) with (101%N :: tail es ++ rest).
      now apply fracPart_none.
    + exact Hes.
  - cbn [forallb] in Hall. apply andb_prop in Hall as [_ Htl].
    rewrite (numberAfterSign_parts neg _ [c] (d :: tl') (es ++ rest) (n - 1) rest).
    + f_equal. apply literalNumber_eq.
      * cbn [app]. rewrite <- E. apply digitsValue_digits.
      * cbn [length] in *. lia.
    + change ((c :: 46%N :: (d :: tl') ++ es) ++ rest)
        with ([c] ++ 46%N :: ((d :: tl') ++ es) ++ rest).
      now apply (intPart_stop _ _ c []).
    + discriminate.
    + change (drop (length [c]) ((c :: 46%N :: (d :: tl') ++ es) ++ rest))
        with (46%N :: ((d :: tl') ++ es) ++ rest).
      rewrite <- app_assoc.
      apply fracPart_digits; [discriminate|assumption|].
      change (es ++ rest) with (101%N :: tail es ++ rest).
      now apply takeWhile_isDigit_stop.
    + exact Hes.
Qed.

Lemma formatDecimal_head s n :
  (0 < s)%N ->
  exists c tl, formatDecimal (digits s) n = c :: tl /\ isDigit c = true.
Proof.
  intros Hs. destruct (digits_positive s Hs) as (c & tl & E & Hc & Hall).
  cbn [forallb] in Hall. apply andb_prop in Hall as [Hcd _].
  unfold formatDecimal. cbv zeta. rewrite E.
  destruct ((_ <=? n) && (n <=? 21))%Z; [cbn [app]; eauto|].
  destruct ((0 <? n) && (n <=? 21))%Z eqn:C2.
  { apply andb_prop in C2 as [C2 _]. apply Z.ltb_lt in C2.
    destruct (Z.to_nat n) eqn:En; [lia|]. cbn [take app]. eauto. }
  destruct ((-6 <? n) && (n <=? 0))%Z;
    [cbn [app]; eexists _, _; split; reflexivity|].
  destruct tl; eauto.
Qed.

Lemma literalNumber_roundsTo neg s E m e :
  canonical m e = true -> isSafeInteger m e = false ->
  decimalRoundsTo s E m e = true ->
  literalNumber neg (Z.to_N s) E = Parsed (Binary neg m e).
Proof.
  intros Hcan Hsafe Hrt.
  pose proof (decimalRoundsTo_positive _ _ _ _ Hcan Hrt) as Hs.
  unfold literalNumber, decimalRoundsTo in *.
  destruct (Z.leb_spec 0 E) as [HE|HE].
  - apply classify_roundsTo; [lia|assumption|assumption|].
    rewrite N2Z.inj_mul, N2Z.inj_pow, !Z2N.id by lia. exact Hrt.
  - apply classify_roundsTo; [|assumption|assumption|].
    + apply N2Z.inj_lt. rewrite N2Z.inj_pow, Z2N.id by lia.
      apply Z.pow_pos_nonneg; lia.
    + rewrite N2Z.inj_pow, !Z2N.id by lia. exact Hrt.
Qed.

(** [parseNumber] reads back what Number::toString writes for a double
    that is not a safe integer. *)
Lemma parseNumber_toString_binary neg m e rest :
  canonical m e = true -> isSafeInteger m e = false ->
  followOk rest = true ->
  parseNumber (Number_toString (Binary neg m e) ++ rest)
  = Parsed (Binary neg m e, rest).
Proof.
  intros Hcan Hsafe Hrest. cbn [Number_toString].
  pose proof (shortest_roundsTo m e Hcan) as Hrt.
  destruct (shortest m e) as [s E]. cbn [fst snd] in Hrt.
  pose proof (decimalRoundsTo_positive _ _ _ _ Hcan Hrt) as Hs.
  assert (Hs' : (0 < Z.to_N s)%N) by lia.
  set (n := (E + Z.of_nat (length (digits (Z.to_N s))))%Z).
  destruct (formatDecimal_head (Z.to_N s) n Hs') as (c & tl & Ef & Hc).
  rewrite <- app_assoc, <- (app_nil_r (formatDecimal _ _ ++ rest)).
  rewrite app_nil_r. rewrite Ef. cbn [app].
  rewrite (parseNumber_signed neg c (tl ++ rest) Hc).
  change (c :: tl ++ rest) with ((c :: tl) ++ rest). rewrite <- Ef.
  rewrite numberAfterSign_formatDecimal by assumption.
  replace (n - Z.of_nat (length (digits (Z.to_N s))))%Z with E by (subst n; lia).
  now rewrite (literalNumber_roundsTo neg s E m e).
Qed.

Lemma formatDecimal_start c tl n :
  isDigit c = true ->
  exists c' tl', formatDecimal (c :: tl) n = c' :: tl' /\ isDigit c' = true.
Proof.
  intros Hcd. unfold formatDecimal. cbv zeta.
  destruct ((_ <=? n) && (n <=? 21))%Z; [cbn [app]; eauto|].
  destruct ((0 <? n) && (n <=? 21))%Z eqn:C2.
  { apply andb_prop in C2 as [C2 _]. apply Z.ltb_lt in C2.
    destruct (Z.to_nat n) eqn:En; [lia|]. cbn [take app]. eauto. }
  destruct ((-6 <? n) && (n <=? 0))%Z;
    [cbn [app]; eexists _, _; split; reflexivity|].
  destruct tl; eauto.
Qed.

Lemma digits_start n : exists c tl, digits n = c :: tl /\ isDigit c = true.
Proof.
  destruct (digits_cases n) as [->|(c & tl & -> & Hc)];
    [eexists _, _; split; reflexivity|].
  exists c, tl. split; [reflexivity|].
  unfold isDigit, inRange. apply andb_true_iff. rewrite !N.leb_le. lia.
Qed.

(** What Number::toString writes for a double that is not a safe integer
    starts with a sign or a digit. *)
Lemma Number_toString_binary_head neg m e :
  exists c tl, Number_toString (Binary neg m e) = c :: tl
               /\ (c = 45 \/ 48 <= c <= 57)%N.
Proof.
  cbn [Number_toString]. destruct (shortest m e) as [s E].
  destruct neg; [eexists _, _; split; [reflexivity|lia]|].
  cbn [app].
  destruct (digits_start (Z.to_N s)) as (c & tl & -> & Hc).
  destruct (formatDecimal_start c tl
              (E + Z.of_nat (length (c :: tl))) Hc) as (c' & tl' & -> & Hc').
  exists c', tl'. split; [reflexivity|].
  unfold isDigit, inRange in Hc'. apply andb_prop in Hc' as [H1 H2].
  apply N.leb_le in H1, H2. lia.
Qed.

(** It consists of digits, a point, the letter e and signs. *)
Lemma formatDecimal_forallb (P : N -> bool) ds n :
  (forall c, isDigit c = true -> P c = true) ->
  P 46%N = true -> P 101%N = true -> P 43%N = true -> P 45%N = true ->
  forallb isDigit ds = true -> forallb P (formatDecimal ds n) = true.
Proof.
  intros Hd Hpoint He Hplus Hminus Hds.
  assert (HP : forall l, forallb isDigit l = true -> forallb P l = true).
  { intros l Hl. apply forallb_forall. intros c Hc. apply Hd.
    rewrite forallb_forall in Hl. now apply Hl. }
  assert (Hzeros : forall k, forallb P (repeat 48%N k) = true).
  { intros k. apply HP, forallb_isDigit_zeros. }
  assert (Hexp : forall x : Z,
            forallb P ([101%N; if (x <? 0)%Z then 45%N else 43%N]
                         ++ digits (Z.abs_N x)) = true).
  { intros x. cbn [app forallb]. rewrite He.
    destruct (x <? 0)%Z; rewrite ?Hplus, ?Hminus; cbn [andb];
      apply HP, digits_isDigit. }
  unfold formatDecimal. cbv zeta.
  destruct ((_ <=? n) && (n <=? 21))%Z.
  { rewrite forallb_app, (HP _ Hds). apply Hzeros. }
  destruct ((0 <? n) && (n <=? 21))%Z.
  { rewrite <- (take_drop (Z.to_nat n) ds) in Hds.
    rewrite forallb_app in Hds. apply andb_prop in Hds as [H1 H2].
    rewrite !forallb_app, (HP _ H1), (HP _ H2). cbn [forallb].
    now rewrite Hpoint. }
  destruct ((-6 <? n) && (n <=? 0))%Z.
  { cbn [app forallb]. rewrite Hpoint, (Hd 48%N eq_refl). cbn [andb].
    rewrite forallb_app, Hzeros. now apply HP. }
  destruct ds as [|d [|d' rest]]; [reflexivity| |].
  - cbn [forallb] in Hds. apply andb_prop in Hds as [Hdd _].
    change (forallb P (d :: ?l)) with (P d && forallb P l).
    rewrite (Hd _ Hdd). apply Hexp.
  - cbn [forallb] in Hds. apply andb_prop in Hds as [Hdd Hrest].
    change (forallb P (d :: 46%N :: ?l)) with (P d && (P 46%N && forallb P l)).
    rewrite (Hd _ Hdd), Hpoint. cbn [andb].
    rewrite forallb_app, Hexp. rewrite andb_true_r. now apply HP.
Qed.

Lemma Number_toString_binary_forallb (P : N -> bool) neg m e :
  (forall c, isDigit c = true -> P c = true) ->
  P 46%N = true -> P 101%N = true -> P 43%N = true -> P 45%N = true ->
  forallb P (Number_toString (Binary neg m e)) = true.
Proof.
  intros Hd Hpoint He Hplus Hminus. cbn [Number_toString].
  destruct (shortest m e) as [s E].
  rewrite forallb_app. apply andb_true_iff. split.
  - destruct neg; [cbn [forallb]; now rewrite Hminus|reflexivity].
  - apply formatDecimal_forallb; try assumption. apply digits_isDigit.
Qed.

Lemma isDigit_not c x :
  isDigit c = true -> (x < 48 \/ 57 < x)%N -> (c =? x)%N = false.
Proof.
  unfold isDigit, inRange. intros H Hx. apply andb_prop in H as [H1 H2].
  apply N.leb_le in H1, H2. apply N.eqb_neq. lia.
Qed.


Lemma parseNumber_after_sign neg n rest :
  (n <= 2 ^ 53)%N -> followOk rest = true ->
  match intPart (digits n ++ rest) with
  | [] => SyntaxError
  | ints =>
      bindP (fracPart (drop (length ints) (digits n ++ rest))) (fun fr =>
      bindP (expPart (snd fr)) (fun ex =>
        let m := digitsValue (ints ++ fst fr) in
        let k := (fst ex - Z.of_nat (length (fst fr)))%Z in
        bindP (if (0 <=? k)%Z then classify neg (m * 10 ^ Z.to_N k) 1
               else classify neg m (10 ^ Z.to_N (- k)))
              (fun x => Parsed (x, snd ex))))
  end
  = Parsed (Finite (if neg then - Z.of_N n else Z.of_N n)%Z, rest).
Proof.
  intros Hn Hrest. rewrite intPart_digits by assumption.
  destruct (digits n) as [|c tl] eqn:E.
  { destruct (digits_cases n) as [E'|(? & ? & E' & _)]; congruence. }
  cbv beta iota zeta. rewrite <- E. rewrite drop_app_length.
  rewrite fracPart_follow by assumption. cbn [bindP snd fst].
  rewrite expPart_follow by assumption. cbn [bindP snd fst length].
  rewrite app_nil_r, digitsValue_digits.
  change (0 - Z.of_nat 0)%Z with 0%Z. change (0 <=? 0)%Z with true. cbv iota.
  rewrite classify_integer by assumption. reflexivity.
Qed.

Lemma parseNumber_toString z rest :
  (Z.abs z <= 2 ^ 53)%Z -> followOk rest = true ->
  parseNumber (Number_toString (Finite z) ++ rest) = Parsed (Finite z, rest).
Proof.
  intros Hz Hrest.
  assert (Hn : (Z.abs_N z <= 2 ^ 53)%N).
  { apply N2Z.inj_le. rewrite N2Z.inj_abs_N.
    change (Z.of_N (2 ^ 53)) with (2 ^ 53)%Z. exact Hz. }
  cbn [Number_toString]. destruct (Z.ltb_spec z 0) as [Hneg|Hpos].
  - cbn [app]. unfold parseNumber. change (45 =? 45)%N with true. cbv iota.
    rewrite (parseNumber_after_sign true) by assumption.
    assert (- Z.of_N (Z.abs_N z) = z)%Z as -> by (rewrite N2Z.inj_abs_N; lia).
    reflexivity.
  - unfold parseNumber.
    destruct (digits (Z.abs_N z) ++ rest) as [|c tl] eqn:E.
    { destruct (digits_cases (Z.abs_N z)) as [E'|(? & ? & E' & _)];
        rewrite E' in E; discriminate. }
    assert ((c =? 45)%N = false) as ->.
    { apply N.eqb_neq.
      destruct (digits_cases (Z.abs_N z)) as [E'|(? & ? & E' & ?)];
        rewrite E' in E; cbn [app] in E; injection E as <- _; lia. }
    rewrite <- E. rewrite (parseNumber_after_sign false) by assumption.
    assert (Z.of_N (Z.abs_N z) = z)%Z as -> by (rewrite N2Z.inj_abs_N; lia).
    reflexivity.
Qed.

(** ** Objects in enumeration order *)

Lemma strEq_true a b : strEq a b = true <-> a = b.
Proof. unfold strEq. apply bool_decide_eq_true. Qed.

Lemma strEq_false a b : strEq a b = false <-> a <> b.
Proof. unfold strEq. apply bool_decide_eq_false. Qed.

Lemma hasKey_false (acc : list (jsstring * value)) k :
  hasKey acc k = false <-> Forall (fun a => a <> k) (map fst acc).
Proof.
  unfold hasKey. induction acc as [|kv tl IH]; cbn [existsb map].
  - split; [constructor|reflexivity].
  - rewrite orb_false_iff, Forall_cons, strEq_false, IH. tauto.
Qed.

(** An array index is the canonical decimal form of its value. *)
Lemma arrayIndex_digits k i : arrayIndex k = Some i -> k = digits i.
Proof.
  unfold arrayIndex.
  destruct (forallb isDigit k && negb (isEmpty k)); [|discriminate].
  destruct (strEq (digits (digitsValue k)) k) eqn:E; [|discriminate].
  cbn [andb]. destruct (_ <=? _)%N; [|discriminate].
  intros [= <-]. now apply strEq_true in E.
Qed.

Lemma keysOrdered_app_inv l1 k l2 :
  keysOrdered (l1 ++ k :: l2) ->
  Forall (fun a => k <> a /\ keyBefore a k) l1.
Proof.
  induction l1 as [|a tl IH]; [constructor|].
  cbn [app keysOrdered]. intros [Hall Htl]. constructor; [|now apply IH].
  apply Forall_app in Hall as [_ Hk]. now apply Forall_cons in Hk as [Hk _].
Qed.

Lemma insertIndex_after i k (v : value) acc :
  arrayIndex k = Some i ->
  Forall (fun a => k <> fst a /\ keyBefore (fst a) k) acc ->
  insertIndex i k v acc = acc ++ [(k, v)].
Proof.
  intros Hk. induction 1 as [|a tl [Hne Hbefore] _ IH]; [reflexivity|].
  cbn [insertIndex app]. unfold keyBefore in Hbefore. rewrite Hk in Hbefore.
  destruct (arrayIndex (fst a)) as [j|]; [|contradiction].
  assert ((i <? j)%N = false) as -> by (apply N.ltb_ge; lia).
  now rewrite IH.
Qed.

Lemma objectSet_after acc k (v : value) :
  Forall (fun a => k <> a /\ keyBefore a k) (map fst acc) ->
  objectSet acc k v = acc ++ [(k, v)].
Proof.
  intros H. unfold objectSet.
  assert (hasKey acc k = false) as ->.
  { apply hasKey_false. eapply Forall_impl; [exact H|]. cbn. intros a [? _]. congruence. }
  destruct (arrayIndex k) as [i|] eqn:Hk; [|reflexivity].
  apply insertIndex_after; [assumption|].
  now apply Forall_map in H.
Qed.

(** Building an object from members that already are in enumeration
    order leaves them as they are. *)
Lemma fold_setMember_ordered props :
  forall acc,
    keysOrdered (map fst (acc ++ props)) ->
    fold_left setMember props acc = acc ++ props.
Proof.
  induction props as [|kv tl IH]; intros acc H.
  - now rewrite app_nil_r.
  - cbn [fold_left]. unfold setMember at 2.
    rewrite map_app in H. cbn [map] in H.
    rewrite objectSet_after by (eapply keysOrdered_app_inv; exact H).
    destruct kv as [k v]. cbn [fst snd].
    rewrite IH; [now rewrite <- app_assoc|].
    rewrite <- app_assoc, map_app. exact H.
Qed.

(** ** Reading back what [JSON.stringify] writes: values *)

Lemma startChar_cases c :
  startChar c = true ->
  (c = 110 \/ c = 116 \/ c = 102 \/ c = 34 \/ c = 45 \/ 48 <= c <= 57
   \/ c = 91 \/ c = 123)%N.
Proof.
  unfold startChar, isDigit, inRange.
  rewrite !orb_true_iff, !andb_true_iff, !N.leb_le, !N.eqb_eq. tauto.
Qed.

Lemma wrap_minified open close stepback indent partial :
  wrap open close [] stepback indent partial
  = match partial with
    | [] => open ++ close
    | _ => open ++ join [44%N] partial ++ close
    end.
Proof. now destruct partial. Qed.

Lemma join_cons {A} sep p (f : A -> jsstring) y tl :
  join sep (p :: map f (y :: tl)) = p ++ sep ++ join sep (map f (y :: tl)).
Proof. reflexivity. Qed.

Lemma minified_start indent v :
  exists c tl, minified indent v = c :: tl /\ startChar c = true.
Proof.
  destruct v as [| [|] | [z|neg|neg m e] | s | items | props];
    try (eexists _, _; split; reflexivity).
  - cbn [serialize Number_toString].
    destruct (z <? 0)%Z; [eexists _, _; split; reflexivity|].
    destruct (digits_cases (Z.abs_N z)) as [->|(c & tl & -> & Hc)];
      [eexists _, _; split; reflexivity|].
    exists c, tl. split; [reflexivity|].
    unfold startChar, isDigit, inRange.
    assert ((48 <=? c)%N && (c <=? 57)%N = true) as ->
      by (apply andb_true_iff; rewrite !N.leb_le; lia).
    now rewrite !orb_true_r.
  - cbn [serialize].
    destruct (Number_toString_binary_head neg m e) as (c & tl & -> & Hc).
    exists c, tl. split; [reflexivity|].
    destruct Hc as [->|Hc]; [reflexivity|].
    unfold startChar, isDigit, inRange.
    assert ((48 <=? c)%N && (c <=? 57)%N = true) as ->
      by (apply andb_true_iff; rewrite !N.leb_le; lia).
    now rewrite !orb_true_r.
  - cbn [serialize]. rewrite wrap_minified.
    destruct (map _ items); eexists _, _; split; reflexivity.
  - cbn [serialize]. rewrite wrap_minified.
    destruct (map _ props); eexists _, _; split; reflexivity.
Qed.

Lemma skipWs_start c tl : startChar c = true -> skipWs (c :: tl) = c :: tl.
Proof.
  intros H. apply startChar_cases in H. unfold skipWs. cbn [dropWhile].
  assert (isJsonWs c = false) as ->; [|reflexivity].
  unfold isJsonWs. rewrite !orb_false_iff, !N.eqb_neq. lia.
Qed.

Lemma parseValue_array fuel d tl :
  startChar d = true ->
  parseValue (S fuel) (91%N :: d :: tl) = parseElements fuel (d :: tl) [].
Proof.
  intros H. cbn [parseValue]. change (skipWs (91%N :: d :: tl)) with (91%N :: d :: tl).
  cbv iota. change (91 =? 123)%N with false. change (91 =? 91)%N with true.
  cbv iota. rewrite skipWs_start by assumption.
  apply startChar_cases in H.
  assert ((d =? 93)%N = false) as -> by (apply N.eqb_neq; lia). reflexivity.
Qed.

Lemma parseValue_number fuel c tl :
  (c = 45 \/ 48 <= c <= 57)%N ->
  parseValue (S fuel) (c :: tl)
  = bindP (parseNumber (c :: tl)) (fun p => Parsed (JNumber (fst p), snd p)).
Proof.
  intros H. cbn [parseValue].
  assert (startChar c = true) as Hs.
  { unfold startChar, isDigit, inRange.
    destruct H as [->|H]; [reflexivity|].
    assert ((48 <=? c)%N && (c <=? 57)%N = true) as ->
      by (apply andb_true_iff; rewrite !N.leb_le; lia).
    now rewrite !orb_true_r. }
  rewrite skipWs_start by assumption.
  assert (E : forall k, (k <> 45 -> k < 48 \/ 57 < k -> (c =? k) = false)%N)
    by (intros k ? ?; apply N.eqb_neq; lia).
  rewrite !E by lia.
  assert ((c =? 45)%N || isDigit c = true) as ->; [|reflexivity].
  destruct H as [->|H]; [reflexivity|].
  unfold isDigit, inRange.
  assert ((48 <=? c)%N && (c <=? 57)%N = true) as ->
    by (apply andb_true_iff; rewrite !N.leb_le; lia).
  apply orb_true_r.
Qed.

Lemma Number_toString_head z :
  exists c tl, Number_toString (Finite z) = c :: tl /\ (c = 45 \/ 48 <= c <= 57)%N.
Proof.
  cbn [Number_toString]. destruct (z <? 0)%Z.
  - eexists _, _. split; [reflexivity|lia].
  - destruct (digits_cases (Z.abs_N z)) as [->|(c & tl & -> & Hc)];
      eexists _, _; (split; [reflexivity|lia]).
Qed.

Lemma parseElements_step fuel s acc :
  parseElements (S fuel) s acc
  = bindP (parseValue fuel s) (fun p =>
      match skipWs (snd p) with
      | d :: rest =>
          if (d =? 44)%N then parseElements fuel rest (acc ++ [fst p])
          else if (d =? 93)%N then Parsed (JArray (acc ++ [fst p]), rest)
          else SyntaxError
      | [] => SyntaxError
      end).
Proof. reflexivity. Qed.

Lemma parseMembers_step fuel tl acc :
  parseMembers (S fuel) (34%N :: tl) acc
  = bindP (parseStringBody tl) (fun k =>
      match skipWs (snd k) with
      | colon :: rest =>
          if (colon =? 58)%N then
            bindP (parseValue fuel rest) (fun p =>
              match skipWs (snd p) with
              | d :: rest' =>
                  if (d =? 44)%N then
                    parseMembers fuel rest' (objectSet acc (fst k) (fst p))
                  else if (d =? 125)%N then
                    Parsed (JObject (objectSet acc (fst k) (fst p)), rest')
                  else SyntaxError
              | [] => SyntaxError
              end)
          else SyntaxError
      | [] => SyntaxError
      end).
Proof. reflexivity. Qed.

Lemma minifiedMember_app indent k v tail :
  minifiedMember indent (k, v) ++ tail
  = 34%N :: quoteBody k ++ 34%N :: 58%N :: (minified indent v ++ tail).
Proof.
  unfold minifiedMember. cbn [fst snd].
  change (QuoteJSONString k) with (34%N :: quoteBody k ++ [34%N]).
  cbn [app]. now rewrite <- !app_assoc.
Qed.

Lemma parseElements_join items :
  items <> [] ->
  Forall readsBack items ->
  forall fuel indent acc rest,
    foldr (fun x n => S (cost x + n)) 0 items <= fuel ->
    parseElements fuel (join [44%N] (map (serialize QuoteJSONString [] indent) items)
                          ++ 93%N :: rest) acc
    = Parsed (JArray (acc ++ items), rest).
Proof.
  intros Hne Hall. induction Hall as [|x tl Hx Htl IH]; [congruence|].
  intros fuel indent acc rest Hfuel. cbn [foldr] in Hfuel.
  destruct fuel as [|fuel]; [lia|].
  rewrite parseElements_step.
  destruct tl as [|y tl'].
  - cbn [map join]. rewrite Hx by (reflexivity || lia).
    reflexivity.
  - rewrite map_cons, join_cons, <- !app_assoc.
    rewrite Hx by (reflexivity || lia).
    cbn [bindP snd fst app]. change (skipWs (44%N :: ?s)) with (44%N :: s).
    cbv iota. change (44 =? 44)%N with true. cbv iota.
    rewrite (IH ltac:(discriminate)) by (cbn [foldr] in *; lia).
    now rewrite <- app_assoc.
Qed.

Lemma parseMembers_join props :
  props <> [] ->
  Forall (fun kv => readsBack (snd kv)) props ->
  forall fuel indent acc rest,
    foldr (fun kv n => S (cost (snd kv) + n)) 0 props <= fuel ->
    parseMembers fuel (join [44%N] (map (minifiedMember indent) props)
                         ++ 125%N :: rest) acc
    = Parsed (JObject (fold_left setMember props acc), rest).
Proof.
  intros Hne Hall. induction Hall as [|[k v] tl Hx Htl IH]; [congruence|].
  intros fuel indent acc rest Hfuel. cbn [foldr snd] in Hfuel.
  destruct fuel as [|fuel]; [lia|].
  cbn [snd] in Hx.
  destruct tl as [|y tl'].
  - cbn [map join]. rewrite minifiedMember_app.
    rewrite parseMembers_step, parseStringBody_quoteBody.
    cbn [bindP snd fst]. change (skipWs (58%N :: ?s)) with (58%N :: s).
    cbv iota. change (58 =? 58)%N with true. cbv iota.
    rewrite Hx by (reflexivity || lia).
    reflexivity.
  - rewrite map_cons, join_cons, <- !app_assoc, minifiedMember_app.
    rewrite parseMembers_step, parseStringBody_quoteBody.
    cbn [bindP snd fst]. change (skipWs (58%N :: ?s)) with (58%N :: s).
    cbv iota. change (58 =? 58)%N with true. cbv iota.
    rewrite Hx by (reflexivity || lia).
    cbn [bindP snd fst app]. change (skipWs (44%N :: ?s)) with (44%N :: s).
    cbv iota. change (44 =? 44)%N with true. cbv iota.
    rewrite (IH ltac:(discriminate)) by (cbn [foldr] in *; lia).
    reflexivity.
Qed.

Lemma parseValue_string fuel body :
  parseValue (S fuel) (34%N :: body)
  = bindP (parseStringBody body) (fun p => Parsed (JString (fst p), snd p)).
Proof. reflexivity. Qed.

Lemma parseValue_object fuel tl :
  parseValue (S fuel) (123%N :: 34%N :: tl) = parseMembers fuel (34%N :: tl) [].
Proof. reflexivity. Qed.

Lemma foldr_and_Forall {A} (P : A -> Prop) (l : list A) :
  foldr (fun x Q => P x /\ Q) True l <-> Forall P l.
Proof.
  induction l as [|x tl IH]; cbn [foldr].
  - split; [constructor|trivial].
  - rewrite Forall_cons, IH. tauto.
Qed.

Lemma forallb_Forall' {A} (p : A -> bool) (l : list A) :
  forallb p l = true <-> Forall (fun x => p x = true) l.
Proof.
  induction l as [|x tl IH]; cbn [forallb].
  - split; [constructor|trivial].
  - rewrite andb_true_iff, Forall_cons, IH. tauto.
Qed.

Lemma join_start sep (parts : list jsstring) c t l tail :
  parts = (c :: t) :: l ->
  exists t', join sep parts ++ tail = c :: t'.
Proof.
  intros ->. destruct l; cbn [join app]; eexists; reflexivity.
Qed.

(** A well-formed value without infinities is read back from its
    minified standard serialization. *)
Lemma minified_readsBack v :
  wellFormed v -> finiteNumbers v = true -> readsBack v.
Proof.
  induction v as [| b | n | s | items IH | props IH] using value_induction;
    intros Hwf Hfin fuel indent rest Hfuel Hrest;
    (destruct fuel as [|fuel]; [cbn [cost] in Hfuel; lia|]).
  - reflexivity.
  - destruct b; reflexivity.
  - destruct n as [z|neg|neg m e]; [|discriminate Hfin|].
    + cbn [wellFormed] in Hwf. cbn [serialize].
      destruct (Number_toString_head z) as (c & tl & E & Hc).
      pose proof (parseNumber_toString z rest Hwf Hrest) as Hp.
      rewrite E in *. cbn [app] in *.
      rewrite parseValue_number by assumption. now rewrite Hp.
    + cbn [wellFormed] in Hwf. destruct Hwf as [Hcan Hsafe]. cbn [serialize].
      destruct (Number_toString_binary_head neg m e) as (c & tl & E & Hc).
      pose proof (parseNumber_toString_binary neg m e rest Hcan Hsafe Hrest) as Hp.
      rewrite E in *. cbn [app] in *.
      rewrite parseValue_number by assumption. now rewrite Hp.
  - cbn [serialize]. unfold QuoteJSONString. cbn [app].
    rewrite parseValue_string, <- app_assoc. cbn [app].
    now rewrite parseStringBody_quoteBody.
  - cbn [serialize]. rewrite wrap_minified.
    destruct items as [|x tl]; [reflexivity|].
    cbn [wellFormed] in Hwf. apply foldr_and_Forall in Hwf.
    cbn [finiteNumbers] in Hfin. apply forallb_Forall' in Hfin.
    assert (Hall : Forall readsBack (x :: tl)).
    { apply List.Forall_forall. intros y Hy.
      rewrite List.Forall_forall in IH, Hwf, Hfin. now apply IH; auto. }
    cbn [cost] in Hfuel.
    pose proof (parseElements_join (x :: tl) ltac:(discriminate) Hall fuel
                  (indent ++ []) [] rest ltac:(lia)) as Hp.
    rewrite map_cons. cbv iota. rewrite <- !app_assoc. cbn [app].
    destruct (minified_start (indent ++ []) x) as (c & t & Ex & Hc).
    destruct (join_start [44%N] (map (serialize QuoteJSONString [] (indent ++ [])) (x :: tl))
                c t (map (serialize QuoteJSONString [] (indent ++ [])) tl)
                (93%N :: rest)) as [t' Et'].
    { rewrite map_cons. now rewrite Ex. }
    rewrite map_cons in Et', Hp. rewrite Et' in *.
    rewrite parseValue_array by assumption. exact Hp.
  - cbn [serialize]. rewrite wrap_minified.
    destruct props as [|[k x] tl]; [reflexivity|].
    cbn [wellFormed] in Hwf. destruct Hwf as [Hkeys Hwf].
    apply foldr_and_Forall in Hwf.
    cbn [finiteNumbers] in Hfin. apply forallb_Forall' in Hfin.
    assert (Hall : Forall (fun kv => readsBack (snd kv)) ((k, x) :: tl)).
    { apply List.Forall_forall. intros y Hy.
      rewrite List.Forall_forall in IH, Hwf, Hfin. now apply IH; auto. }
    cbn [cost] in Hfuel.
    pose proof (parseMembers_join ((k, x) :: tl) ltac:(discriminate) Hall fuel
                  (indent ++ []) [] rest ltac:(lia)) as Hp.
    rewrite (fold_setMember_ordered _ [] Hkeys) in Hp. cbn [app] in Hp.
    change (map _ ((k, x) :: tl))
      with (map (minifiedMember (indent ++ [])) ((k, x) :: tl)).
    rewrite map_cons. cbv iota. rewrite <- !app_assoc. cbn [app].
    destruct (join_start [44%N] (map (minifiedMember (indent ++ [])) ((k, x) :: tl))
                34%N ((quoteBody k ++ [34%N]) ++ [58%N] ++ [] ++ minified (indent ++ []) x)
                (map (minifiedMember (indent ++ [])) tl)
                (125%N :: rest)) as [t' Et'].
    { reflexivity. }
    rewrite map_cons in Et', Hp. rewrite Et' in *.
    rewrite parseValue_object. exact Hp.
Qed.

Lemma join_length_bound {A} (f : A -> jsstring) (c : A -> nat) (l : list A) :
  Forall (fun x => c x <= length (f x)) l ->
  foldr (fun x n => S (c x + n)) 0 l <= length (join [44%N] (map f l)) + 1.
Proof.
  induction 1 as [|x tl Hx Htl IH]; [cbn; lia|].
  cbn [foldr]. destruct tl as [|y tl'].
  - cbn [map join foldr]. lia.
  - rewrite map_cons, join_cons, !length_app. cbn [length]. lia.
Qed.

Lemma cost_le_length v : forall indent, cost v <= length (minified indent v).
Proof.
  induction v as [| b | n | s | items IH | props IH] using value_induction;
    intros indent;
    try (destruct (minified_start indent ltac:(first [exact JNull | eassumption]))
           as (c & t & E & _); fail).
  - cbn; lia.
  - destruct b; cbn; lia.
  - destruct (minified_start indent (JNumber n)) as (c & t & -> & _). cbn; lia.
  - destruct (minified_start indent (JString s)) as (c & t & -> & _). cbn; lia.
  - cbn [serialize cost]. rewrite wrap_minified.
    destruct items as [|x tl]; [cbn; lia|].
    pose proof (join_length_bound (serialize QuoteJSONString [] (indent ++ [])) cost
                  (x :: tl)) as Hb.
    rewrite map_cons in *. cbv iota. rewrite !length_app. cbn [length].
    specialize (Hb ltac:(eapply Forall_impl; [exact IH|]; cbv beta; intros ? H; apply H)).
    lia.
  - cbn [serialize cost]. rewrite wrap_minified.
    destruct props as [|kv tl]; [cbn; lia|].
    pose proof (join_length_bound (minifiedMember (indent ++ []))
                  (fun kv => cost (snd kv)) (kv :: tl)) as Hb.
    change (map _ (kv :: tl)) with (map (minifiedMember (indent ++ [])) (kv :: tl)).
    rewrite map_cons in *. cbv iota. rewrite !length_app. cbn [length].
    assert (Hm : Forall (fun kv => cost (snd kv)
                                   <= length (minifiedMember (indent ++ []) kv)) (kv :: tl)).
    { eapply Forall_impl; [exact IH|]. cbv beta. intros a H.
      unfold minifiedMember. rewrite !length_app. specialize (H (indent ++ [])). lia. }
    specialize (Hb Hm). lia.
Qed.

(** [JSON.parse] reads a well-formed value without infinities back from
    its minified standard serialization. *)
Lemma JSON_parse_minified v :
  wellFormed v -> finiteNumbers v = true ->
  JSON_parse (standardJson v SpaceUndefined) = Parsed v.
Proof.
  intros Hwf Hfin. unfold JSON_parse, standardJson. cbn [gapOf].
  pose proof (minified_readsBack v Hwf Hfin
                (S (2 * length (minified [] v))) [] []) as H.
  rewrite app_nil_r in H. rewrite H.
  - reflexivity.
  - pose proof (cost_le_length v []). lia.
  - reflexivity.
Qed.

(** ** What [JSON.parse] returns is well formed *)


Lemma parseNumber_wellFormed s n r :
  parseNumber s = Parsed (n, r) -> wellFormed (JNumber n).
Proof.
  unfold parseNumber.
  set (sign := match s with
               | [] => (false, s)
               | c :: tl => if (c =? 45)%N then (true, tl) else (false, s)
               end).
  destruct sign as [neg s1].
  destruct (intPart s1) as [|d ds]; [discriminate|].
  destruct (fracPart _) as [fr| |]; try discriminate. cbn [bindP].
  destruct (expPart _) as [ex| |]; try discriminate. cbn [bindP]. cbv zeta.
  destruct (0 <=? _)%Z.
  - destruct (classify _ _ _) as [x| |] eqn:E; try discriminate.
    cbn [bindP]. intros [= <- _]. eapply classify_wellFormed, E. lia.
  - destruct (classify _ _ _) as [x| |] eqn:E; try discriminate.
    cbn [bindP]. intros [= <- _]. eapply classify_wellFormed, E.
    apply N2Z.inj_lt. rewrite N2Z.inj_pow. apply Z.pow_pos_nonneg; lia.
Qed.

Lemma setExisting_keys acc k (v : value) : map fst (setExisting acc k v) = map fst acc.
Proof.
  unfold setExisting. induction acc as [|a tl IH]; [reflexivity|].
  cbn [map]. rewrite IH. f_equal.
  destruct (strEq (fst a) k) eqn:E; [|reflexivity].
  apply strEq_true in E. now subst.
Qed.

Lemma Forall_insertIndex (P : jsstring * value -> Prop) i k v acc :
  Forall P (insertIndex i k v acc) <-> P (k, v) /\ Forall P acc.
Proof.
  induction acc as [|a tl IH]; cbn [insertIndex].
  - rewrite Forall_cons. tauto.
  - destruct (arrayIndex (fst a)) as [j|].
    + destruct (i <? j)%N.
      * rewrite Forall_cons. tauto.
      * rewrite !Forall_cons, IH. tauto.
    + rewrite Forall_cons. tauto.
Qed.

Lemma Forall_map_fst (P : jsstring -> Prop) (l : list (jsstring * value)) :
  Forall P (map fst l) <-> Forall (fun kv => P (fst kv)) l.
Proof. apply Forall_map. Qed.

Lemma insertIndex_ordered i k (v : value) acc :
  arrayIndex k = Some i ->
  Forall (fun a => a <> k) (map fst acc) ->
  keysOrdered (map fst acc) ->
  keysOrdered (map fst (insertIndex i k v acc)).
Proof.
  intros Hk. induction acc as [|a tl IH]; intros Hne Hord.
  { cbn. split; [constructor|trivial]. }
  cbn [map] in Hne, Hord. apply Forall_cons in Hne as [Ha Hne].
  cbn [keysOrdered] in Hord. destruct Hord as [Hall Hord].
  cbn [insertIndex].
  assert (Hfront : forall j, arrayIndex (fst a) = Some j -> (i < j)%N \/ (j < i)%N).
  { intros j Hj. destruct (N.lt_trichotomy i j) as [|[->|]]; auto.
    exfalso. apply Ha. apply arrayIndex_digits in Hj, Hk. congruence. }
  assert (Hhead : (match arrayIndex (fst a) with
                   | Some j => (i < j)%N
                   | None => True
                   end) ->
                  keysOrdered (map fst ((k, v) :: a :: tl))).
  { intros Hlt. cbn [map keysOrdered fst]. repeat split; try assumption.
    constructor.
    - split; [assumption|]. unfold keyBefore. rewrite Hk.
      destruct (arrayIndex (fst a)); [assumption|trivial].
    - rewrite List.Forall_forall in Hall, Hne |- *. intros t Ht.
      split; [now apply Hne|].
      destruct (Hall t Ht) as [_ Hbefore]. unfold keyBefore in *. rewrite Hk.
      destruct (arrayIndex (fst a)), (arrayIndex t); try trivial; try contradiction.
      lia. }
  destruct (arrayIndex (fst a)) as [j|] eqn:Hj; [|now apply Hhead].
  destruct (N.ltb_spec i j) as [Hlt|Hge]; [now apply Hhead|].
  cbn [map keysOrdered]. split; [|now apply IH].
  apply Forall_map_fst, Forall_insertIndex. cbn [fst].
  split;
    [|exact (proj1 (Forall_map_fst
                      (fun k' => k' <> fst a /\ keyBefore (fst a) k') tl) Hall)].
  split; [congruence|]. unfold keyBefore. rewrite Hj, Hk.
  destruct (Hfront j eq_refl); lia.
Qed.

Lemma keysOrdered_snoc l k :
  keysOrdered l ->
  Forall (fun a => k <> a /\ keyBefore a k) l ->
  keysOrdered (l ++ [k]).
Proof.
  induction l as [|a tl IH]; intros Hord Hall.
  { cbn. split; [constructor|trivial]. }
  cbn [keysOrdered] in Hord. destruct Hord as [Ha Hord].
  apply Forall_cons in Hall as [[Hne Hbefore] Hall].
  cbn [app keysOrdered]. split; [|now apply IH].
  apply Forall_app. split; [assumption|]. constructor; [|constructor]. tauto.
Qed.

Lemma objectSet_ordered acc k (v : value) :
  keysOrdered (map fst acc) -> keysOrdered (map fst (objectSet acc k v)).
Proof.
  intros Hord. unfold objectSet.
  destruct (hasKey acc k) eqn:Hhas; [now rewrite setExisting_keys|].
  apply hasKey_false in Hhas.
  destruct (arrayIndex k) as [i|] eqn:Hk.
  - now apply insertIndex_ordered.
  - rewrite map_app. apply keysOrdered_snoc; [assumption|].
    eapply Forall_impl; [exact Hhas|]. cbv beta. intros a Ha.
    cbn [fst]. split; [now apply not_eq_sym|]. unfold keyBefore. rewrite Hk.
    now destruct (arrayIndex a).
Qed.

Lemma objectSet_values (P : value -> Prop) acc k v :
  Forall (fun kv => P (snd kv)) acc -> P v ->
  Forall (fun kv => P (snd kv)) (objectSet acc k v).
Proof.
  intros Hacc Hv. unfold objectSet.
  destruct (hasKey acc k).
  - unfold setExisting. apply Forall_map. eapply Forall_impl; [exact Hacc|].
    cbv beta. intros a Ha. now destruct (strEq (fst a) k).
  - destruct (arrayIndex k).
    + now apply Forall_insertIndex.
    + apply Forall_app. split; [assumption|]. now constructor.
Qed.

Lemma wellFormed_array items : wellFormed (JArray items) <-> Forall wellFormed items.
Proof. cbn [wellFormed]. apply foldr_and_Forall. Qed.

Lemma wellFormed_object props :
  wellFormed (JObject props)
  <-> keysOrdered (map fst props) /\ Forall (fun kv => wellFormed (snd kv)) props.
Proof. cbn [wellFormed]. now rewrite foldr_and_Forall. Qed.

Lemma parse_wellFormed fuel :
  (forall s v r, parseValue fuel s = Parsed (v, r) -> wellFormed v)
  /\ (forall s acc v r,
        parseElements fuel s acc = Parsed (v, r) ->
        Forall wellFormed acc -> wellFormed v)
  /\ (forall s acc v r,
        parseMembers fuel s acc = Parsed (v, r) ->
        keysOrdered (map fst acc) ->
        Forall (fun kv => wellFormed (snd kv)) acc -> wellFormed v).
Proof.
  induction fuel as [|fuel (IHv & IHe & IHm)]; [repeat split; discriminate|].
  repeat split.
  - intros s v r. cbn [parseValue].
    destruct (skipWs s) as [|c tl]; [discriminate|].
    destruct (c =? 123)%N.
    { destruct (skipWs tl) as [|d rest]; [discriminate|].
      destruct (d =? 125)%N.
      - intros [= <- _]. apply wellFormed_object. split; constructor.
      - intros H. eapply IHm; [exact H| |]; constructor. }
    destruct (c =? 91)%N.
    { destruct (skipWs tl) as [|d rest]; [discriminate|].
      destruct (d =? 93)%N.
      - intros [= <- _]. apply wellFormed_array. constructor.
      - intros H. eapply IHe; [exact H|]. constructor. }
    destruct (c =? 34)%N.
    { destruct (parseStringBody tl) as [p| |]; try discriminate.
      cbn [bindP]. now intros [= <- _]. }
    unfold literal.
    destruct (c =? 110)%N.
    { destruct (stripPrefix _ _); [|discriminate]. now intros [= <- _]. }
    destruct (c =? 116)%N.
    { destruct (stripPrefix _ _); [|discriminate]. now intros [= <- _]. }
    destruct (c =? 102)%N.
    { destruct (stripPrefix _ _); [|discriminate]. now intros [= <- _]. }
    destruct ((c =? 45)%N || isDigit c); [|discriminate].
    destruct (parseNumber (c :: tl)) as [[n r']| |] eqn:E; try discriminate.
    cbn [bindP fst]. intros [= <- _]. eapply parseNumber_wellFormed, E.
  - intros s acc v r. rewrite parseElements_step.
    destruct (parseValue fuel s) as [[x r1]| |] eqn:E; try discriminate.
    cbn [bindP snd fst]. apply IHv in E.
    destruct (skipWs r1) as [|d rest]; [discriminate|].
    destruct (d =? 44)%N.
    { intros H Hacc. eapply IHe; [exact H|].
      apply Forall_app. split; [assumption|now constructor]. }
    destruct (d =? 93)%N; [|discriminate].
    intros [= <- _] Hacc. apply wellFormed_array.
    apply Forall_app. split; [assumption|now constructor].
  - intros s acc v r. cbn [parseMembers].
    destruct (skipWs s) as [|q tl]; [discriminate|].
    destruct (q =? 34)%N; [|discriminate].
    destruct (parseStringBody tl) as [[k r0]| |]; try discriminate.
    cbn [bindP snd fst].
    destruct (skipWs r0) as [|colon rest]; [discriminate|].
    destruct (colon =? 58)%N; [|discriminate].
    destruct (parseValue fuel rest) as [[x r1]| |] eqn:E; try discriminate.
    cbn [bindP snd fst]. apply IHv in E.
    destruct (skipWs r1) as [|d rest']; [discriminate|].
    destruct (d =? 44)%N.
    { intros H Hord Hacc. eapply IHm; [exact H| |].
      - now apply objectSet_ordered.
      - now apply objectSet_values. }
    destruct (d =? 125)%N; [|discriminate].
    intros [= <- _] Hord Hacc. apply wellFormed_object. split.
    + now apply objectSet_ordered.
    + now apply objectSet_values.
Qed.

Lemma JSON_parse_wellFormed input v : JSON_parse input = Parsed v -> wellFormed v.
Proof.
  unfold JSON_parse.
  destruct (parseValue _ input) as [[x r]| |] eqn:E; try discriminate.
  cbn [bindP fst snd]. destruct (isEmpty _); [|discriminate].
  intros [= <-]. exact (proj1 (parse_wellFormed _) _ _ _ E).
Qed.

(** ** The recursion bound of [JSON.parse] is never reached *)

Lemma skipWs_length s : length (skipWs s) <= length s.
Proof.
  unfold skipWs. induction s as [|c tl IH]; [reflexivity|].
  cbn [dropWhile]. destruct (isJsonWs c); cbn [length]; lia.
Qed.

Lemma stripPrefix_length p : forall s r,
  stripPrefix p s = Some r -> length r + length p = length s.
Proof.
  induction p as [|a p IH]; intros s r.
  - cbn. intros [= ->]. lia.
  - destruct s as [|b s]; [discriminate|]. cbn [stripPrefix].
    destruct (a =? b)%N; [|discriminate].
    intros H. apply IH in H. cbn [length]. lia.
Qed.

Lemma consChar_Parsed c m a r :
  consChar c m = Parsed (a, r) -> exists a', m = Parsed (a', r).
Proof.
  unfold consChar. destruct m as [[a' r']| |]; try discriminate.
  cbn [bindP fst snd]. intros [= _ <-]. now exists a'.
Qed.

Lemma parseStringBody_length_aux n : forall s a r,
  length s <= n -> parseStringBody s = Parsed (a, r) -> length r < length s.
Proof.
  induction n as [|n IH]; intros s a r Hn.
  { destruct s; [discriminate|cbn in Hn; lia]. }
  destruct s as [|c tl]; [discriminate|]. cbn [length] in Hn.
  cbn [parseStringBody].
  destruct (c =? 34)%N; [intros [= _ <-]; cbn [length]; lia|].
  destruct (c =? 92)%N.
  - destruct tl as [|e tl']; [discriminate|].
    destruct (e =? 117)%N.
    + destruct tl' as [|h1 [|h2 [|h3 [|h4 rest]]]]; try discriminate.
      destruct (hexValue h1), (hexValue h2), (hexValue h3), (hexValue h4);
        try discriminate.
      intros H. apply consChar_Parsed in H as [a' H].
      apply IH in H; cbn [length] in *; lia.
    + destruct (unescape e); [|discriminate].
      intros H. apply consChar_Parsed in H as [a' H].
      apply IH in H; cbn [length] in *; lia.
  - destruct (c <? 32)%N; [discriminate|].
    intros H. apply consChar_Parsed in H as [a' H].
    apply IH in H; cbn [length] in *; lia.
Qed.

Lemma parseStringBody_length s a r :
  parseStringBody s = Parsed (a, r) -> length r < length s.
Proof. now apply (parseStringBody_length_aux (length s)). Qed.

Lemma fracPart_length s fr : fracPart s = Parsed fr -> length (snd fr) <= length s.
Proof.
  unfold fracPart. destruct s as [|c tl]; [now intros [= <-]|].
  destruct (c =? 46)%N; [|now intros [= <-]].
  destruct (takeWhile isDigit tl) as [|d ds]; [discriminate|].
  intros [= <-]. cbn [snd]. rewrite length_drop. cbn [length]. lia.
Qed.

Lemma expPart_length s ex : expPart s = Parsed ex -> length (snd ex) <= length s.
Proof.
  unfold expPart. destruct s as [|c tl]; [now intros [= <-]|].
  destruct ((c =? 101)%N || (c =? 69)%N); [|now intros [= <-]].
  assert (H : forall (b : bool) (tl' : jsstring), length tl' <= length tl ->
            match takeWhile isDigit tl' with
            | [] => SyntaxError
            | d :: ds =>
                Parsed (if b then (- Z.of_N (digitsValue (d :: ds)))%Z
                        else Z.of_N (digitsValue (d :: ds)),
                        drop (length (d :: ds)) tl')
            end = Parsed ex -> length (snd ex) <= length (c :: tl)).
  { intros b tl' Hle. destruct (takeWhile isDigit tl'); [discriminate|].
    intros [= <-]. cbn [snd]. rewrite length_drop. cbn [length]. lia. }
  destruct tl as [|sg tl']; [discriminate|].
  destruct (sg =? 45)%N; [apply (H true tl'); cbn [length]; lia|].
  destruct (sg =? 43)%N; [apply (H false tl'); cbn [length]; lia|].
  apply (H false (sg :: tl')). reflexivity.
Qed.

Lemma intPart_nonempty s d ds : intPart s = d :: ds -> s <> [].
Proof. now destruct s. Qed.

Lemma parseNumber_length s n r :
  parseNumber s = Parsed (n, r) -> length r < length s.
Proof.
  unfold parseNumber.
  assert (H : forall (neg : bool) (s1 : jsstring), length s1 <= length s ->
            match intPart s1 with
            | [] => SyntaxError
            | ints =>
                bindP (fracPart (drop (length ints) s1)) (fun fr =>
                bindP (expPart (snd fr)) (fun ex =>
                  let m := digitsValue (ints ++ fst fr) in
                  let k := (fst ex - Z.of_nat (length (fst fr)))%Z in
                  bindP (if (0 <=? k)%Z then classify neg (m * 10 ^ Z.to_N k) 1
                         else classify neg m (10 ^ Z.to_N (- k)))
                        (fun x => Parsed (x, snd ex))))
            end = Parsed (n, r) -> length r < length s).
  { intros neg s1 Hle. destruct (intPart s1) as [|d ds] eqn:Ei; [discriminate|].
    apply intPart_nonempty in Ei. cbv beta iota zeta.
    destruct (fracPart _) as [fr| |] eqn:Ef; try discriminate. cbn [bindP].
    destruct (expPart _) as [ex| |] eqn:Ee; try discriminate. cbn [bindP]. cbv zeta.
    apply fracPart_length in Ef. apply expPart_length in Ee.
    rewrite length_drop in Ef. cbn [length] in Ef.
    assert (length s1 <> 0) by (destruct s1; [congruence|cbn; lia]).
    destruct (0 <=? _)%Z; (destruct (classify _ _ _); try discriminate);
      cbn [bindP]; intros [= _ <-]; lia. }
  destruct s as [|c tl]; [discriminate|].
  destruct (c =? 45)%N; [|apply (H false (c :: tl)); reflexivity].
  intros Hp. apply (H true tl) in Hp; cbn [length] in *; lia.
Qed.

(** A parsed value takes at least one character of the text. *)
Lemma parse_consumes fuel :
  (forall s v r, parseValue fuel s = Parsed (v, r) -> length r < length s)
  /\ (forall s acc v r,
        parseElements fuel s acc = Parsed (v, r) -> length r < length s)
  /\ (forall s acc v r,
        parseMembers fuel s acc = Parsed (v, r) -> length r < length s).
Proof.
  induction fuel as [|fuel (IHv & IHe & IHm)]; [repeat split; discriminate|].
  repeat split.
  - intros s v r. cbn [parseValue]. pose proof (skipWs_length s) as Hs.
    destruct (skipWs s) as [|c tl]; [discriminate|]. cbn [length] in Hs.
    destruct (c =? 123)%N.
    { pose proof (skipWs_length tl) as Ht.
      destruct (skipWs tl) as [|d rest]; [discriminate|]. cbn [length] in Ht.
      destruct (d =? 125)%N; [intros [= _ <-]; lia|].
      intros H. apply IHm in H. cbn [length] in H. lia. }
    destruct (c =? 91)%N.
    { pose proof (skipWs_length tl) as Ht.
      destruct (skipWs tl) as [|d rest]; [discriminate|]. cbn [length] in Ht.
      destruct (d =? 93)%N; [intros [= _ <-]; lia|].
      intros H. apply IHe in H. cbn [length] in H. lia. }
    destruct (c =? 34)%N.
    { destruct (parseStringBody tl) as [[a r']| |] eqn:E; try discriminate.
      cbn [bindP fst snd]. intros [= _ <-].
      apply parseStringBody_length in E. lia. }
    unfold literal.
    destruct (c =? 110)%N.
    { match goal with |- context [stripPrefix (str ?x) _] => set (w := x) end.
      destruct (stripPrefix _ _) eqn:E; [|discriminate]. intros [= _ <-].
      apply stripPrefix_length in E.
      assert (1 <= length (str w)) by (subst w; cbn; lia).
      cbn [length] in E. lia. }
    destruct (c =? 116)%N.
    { match goal with |- context [stripPrefix (str ?x) _] => set (w := x) end.
      destruct (stripPrefix _ _) eqn:E; [|discriminate]. intros [= _ <-].
      apply stripPrefix_length in E.
      assert (1 <= length (str w)) by (subst w; cbn; lia).
      cbn [length] in E. lia. }
    destruct (c =? 102)%N.
    { match goal with |- context [stripPrefix (str ?x) _] => set (w := x) end.
      destruct (stripPrefix _ _) eqn:E; [|discriminate]. intros [= _ <-].
      apply stripPrefix_length in E.
      assert (1 <= length (str w)) by (subst w; cbn; lia).
      cbn [length] in E. lia. }
    destruct ((c =? 45)%N || isDigit c); [|discriminate].
    destruct (parseNumber (c :: tl)) as [[n r']| |] eqn:E; try discriminate.
    cbn [bindP fst snd]. intros [= _ <-].
    apply parseNumber_length in E. cbn [length] in E. lia.
  - intros s acc v r. rewrite parseElements_step.
    destruct (parseValue fuel s) as [[x r1]| |] eqn:E; try discriminate.
    cbn [bindP snd fst]. apply IHv in E.
    pose proof (skipWs_length r1) as Hs.
    destruct (skipWs r1) as [|d rest]; [discriminate|]. cbn [length] in Hs.
    destruct (d =? 44)%N; [intros H; apply IHe in H; lia|].
    destruct (d =? 93)%N; [|discriminate].
    intros [= _ <-]. lia.
  - intros s acc v r. cbn [parseMembers]. pose proof (skipWs_length s) as Hs.
    destruct (skipWs s) as [|q tl]; [discriminate|]. cbn [length] in Hs.
    destruct (q =? 34)%N; [|discriminate].
    destruct (parseStringBody tl) as [[k r0]| |] eqn:Ek; try discriminate.
    cbn [bindP snd fst]. apply parseStringBody_length in Ek.
    pose proof (skipWs_length r0) as Hs0.
    destruct (skipWs r0) as [|colon rest]; [discriminate|]. cbn [length] in Hs0.
    destruct (colon =? 58)%N; [|discriminate].
    destruct (parseValue fuel rest) as [[x r1]| |] eqn:E; try discriminate.
    cbn [bindP snd fst]. apply IHv in E.
    pose proof (skipWs_length r1) as Hs1.
    destruct (skipWs r1) as [|d rest']; [discriminate|]. cbn [length] in Hs1.
    destruct (d =? 44)%N; [intros H; apply IHm in H; lia|].
    destruct (d =? 125)%N; [|discriminate].
    intros [= _ <-]. lia.
Qed.

Lemma consChar_bounded c m : m <> OutOfFuel -> consChar c m <> OutOfFuel.
Proof. unfold consChar. now destruct m. Qed.

Lemma parseStringBody_bounded_aux n : forall s,
  length s <= n -> parseStringBody s <> OutOfFuel.
Proof.
  induction n as [|n IH]; intros s Hn.
  { destruct s; [discriminate|cbn in Hn; lia]. }
  destruct s as [|c tl]; [discriminate|]. cbn [length] in Hn.
  cbn [parseStringBody].
  destruct (c =? 34)%N; [discriminate|].
  destruct (c =? 92)%N.
  - destruct tl as [|e tl']; [discriminate|].
    destruct (e =? 117)%N.
    + destruct tl' as [|h1 [|h2 [|h3 [|h4 rest]]]]; try discriminate.
      destruct (hexValue h1), (hexValue h2), (hexValue h3), (hexValue h4);
        try discriminate.
      apply consChar_bounded, IH. cbn [length] in *. lia.
    + destruct (unescape e); [|discriminate].
      apply consChar_bounded, IH. cbn [length] in *. lia.
  - destruct (c <? 32)%N; [discriminate|].
    apply consChar_bounded, IH. lia.
Qed.

Lemma parseStringBody_bounded s : parseStringBody s <> OutOfFuel.
Proof. now apply (parseStringBody_bounded_aux (length s)). Qed.

Lemma classify_bounded neg num den : classify neg num den <> OutOfFuel.
Proof.
  unfold classify. discriminate.
Qed.

Lemma parseNumber_bounded s : parseNumber s <> OutOfFuel.
Proof.
  unfold parseNumber.
  assert (H : forall (neg : bool) (s1 : jsstring),
            match intPart s1 with
            | [] => SyntaxError
            | ints =>
                bindP (fracPart (drop (length ints) s1)) (fun fr =>
                bindP (expPart (snd fr)) (fun ex =>
                  let m := digitsValue (ints ++ fst fr) in
                  let k := (fst ex - Z.of_nat (length (fst fr)))%Z in
                  bindP (if (0 <=? k)%Z then classify neg (m * 10 ^ Z.to_N k) 1
                         else classify neg m (10 ^ Z.to_N (- k)))
                        (fun x => Parsed (x, snd ex))))
            end <> @OutOfFuel (number * jsstring)).
  { intros neg s1. destruct (intPart s1) as [|d ds]; [discriminate|].
    cbv beta iota zeta.
    assert (Hf : forall x, fracPart x <> OutOfFuel).
    { intros [|c tl]; [discriminate|]. cbn [fracPart].
      destruct (c =? 46)%N; [|discriminate].
      destruct (takeWhile isDigit tl); discriminate. }
    assert (He : forall x, expPart x <> OutOfFuel).
    { intros [|c tl]; [discriminate|]. cbn [expPart].
      destruct (_ || _); [|discriminate].
      destruct tl as [|sg tl']; [discriminate|].
      destruct (sg =? 45)%N; [destruct (takeWhile isDigit tl'); discriminate|].
      destruct (sg =? 43)%N; [destruct (takeWhile isDigit tl'); discriminate|].
      destruct (takeWhile isDigit (sg :: tl')); discriminate. }
    specialize (Hf (drop (length (d :: ds)) s1)).
    destruct (fracPart _) as [fr| |]; cbn [bindP]; try congruence.
    specialize (He (snd fr)).
    destruct (expPart _) as [ex| |]; cbn [bindP]; try congruence.
    destruct (0 <=? _)%Z;
      match goal with
      | |- context [classify ?a ?b ?c] =>
          pose proof (classify_bounded a b c); destruct (classify a b c)
      end; cbn [bindP]; congruence. }
  destruct s as [|c tl]; [apply (H false)|].
  destruct (c =? 45)%N; apply H.
Qed.

(** With a bound of twice the length of the text and one more, the
    recursion bound is not reached. *)
Lemma parse_bounded fuel :
  (forall s, 2 * length s + 1 <= fuel -> parseValue fuel s <> OutOfFuel)
  /\ (forall s acc, 2 * length s + 2 <= fuel -> parseElements fuel s acc <> OutOfFuel)
  /\ (forall s acc, 2 * length s + 2 <= fuel -> parseMembers fuel s acc <> OutOfFuel).
Proof.
  induction fuel as [|fuel (IHv & IHe & IHm)]; [repeat split; intros; lia|].
  repeat split.
  - intros s Hf. cbn [parseValue]. pose proof (skipWs_length s) as Hs.
    destruct (skipWs s) as [|c tl]; [discriminate|]. cbn [length] in Hs.
    destruct (c =? 123)%N.
    { pose proof (skipWs_length tl) as Ht.
      destruct (skipWs tl) as [|d rest]; [discriminate|].
      destruct (d =? 125)%N; [discriminate|]. apply IHm. lia. }
    destruct (c =? 91)%N.
    { pose proof (skipWs_length tl) as Ht.
      destruct (skipWs tl) as [|d rest]; [discriminate|].
      destruct (d =? 93)%N; [discriminate|]. apply IHe. lia. }
    destruct (c =? 34)%N.
    { pose proof (parseStringBody_bounded tl).
      destruct (parseStringBody tl); cbn [bindP]; congruence. }
    unfold literal.
    destruct (c =? 110)%N; [destruct (stripPrefix _ _); discriminate|].
    destruct (c =? 116)%N; [destruct (stripPrefix _ _); discriminate|].
    destruct (c =? 102)%N; [destruct (stripPrefix _ _); discriminate|].
    destruct ((c =? 45)%N || isDigit c); [|discriminate].
    pose proof (parseNumber_bounded (c :: tl)).
    destruct (parseNumber (c :: tl)); cbn [bindP]; congruence.
  - intros s acc Hf. rewrite parseElements_step.
    specialize (IHv s ltac:(lia)).
    destruct (parseValue fuel s) as [[x r1]| |] eqn:E;
      cbn [bindP snd fst]; try congruence.
    apply (proj1 (parse_consumes fuel)) in E.
    pose proof (skipWs_length r1) as Hs.
    destruct (skipWs r1) as [|d rest]; [discriminate|]. cbn [length] in Hs.
    destruct (d =? 44)%N; [apply IHe; lia|].
    destruct (d =? 93)%N; discriminate.
  - intros s acc Hf. cbn [parseMembers]. pose proof (skipWs_length s) as Hs.
    destruct (skipWs s) as [|q tl]; [discriminate|]. cbn [length] in Hs.
    destruct (q =? 34)%N; [|discriminate].
    pose proof (parseStringBody_bounded tl) as Hb.
    destruct (parseStringBody tl) as [[k r0]| |] eqn:Ek;
      cbn [bindP snd fst]; try congruence.
    apply parseStringBody_length in Ek.
    pose proof (skipWs_length r0) as Hs0.
    destruct (skipWs r0) as [|colon rest]; [discriminate|]. cbn [length] in Hs0.
    destruct (colon =? 58)%N; [|discriminate].
    specialize (IHv rest ltac:(lia)).
    destruct (parseValue fuel rest) as [[x r1]| |] eqn:E;
      cbn [bindP snd fst]; try congruence.
    apply (proj1 (parse_consumes fuel)) in E.
    pose proof (skipWs_length r1) as Hs1.
    destruct (skipWs r1) as [|d rest']; [discriminate|]. cbn [length] in Hs1.
    destruct (d =? 44)%N; [apply IHm; lia|].
    destruct (d =? 125)%N; discriminate.
Qed.

(** [JSON_parse] always comes to a value or a [SyntaxError]. *)
Lemma JSON_parse_bounded text : JSON_parse text <> OutOfFuel.
Proof.
  unfold JSON_parse.
  pose proof (proj1 (parse_bounded (S (2 * length text))) text ltac:(lia)) as H.
  destruct (parseValue _ text) as [[v r]| |];
    cbn [bindP fst snd]; try congruence.
  destruct (isEmpty _); discriminate.
Qed.

(** ** The post-pass on serializations without marker text *)

Lemma replaceUnquotedFrom_skip a rest :
  replaceUnquotedFrom (length a) (a ++ rest) = replaceUnquotedFrom 0 rest.
Proof.
  induction a as [|c tl IH]; [reflexivity|].
  cbn [length app replaceUnquotedFrom]. exact IH.
Qed.

Lemma replaceUnquoted_char c tl :
  c <> 34%N ->
  replaceUnquotedFrom 0 (c :: tl) = c :: replaceUnquotedFrom 0 tl.
Proof.
  intros Hc. cbn [replaceUnquotedFrom]. unfold matchUnquoted. cbn [stripPrefix].
  assert ((34 =? c)%N = false) as -> by (apply N.eqb_neq; congruence).
  reflexivity.
Qed.

Lemma replaceUnquoted_plain a rest :
  noQuote a = true ->
  replaceUnquotedFrom 0 (a ++ rest) = a ++ replaceUnquotedFrom 0 rest.
Proof.
  unfold noQuote. induction a as [|c tl IH]; [reflexivity|].
  cbn [forallb app]. intros [Hc Htl]%andb_prop.
  apply negb_true_iff, N.eqb_neq in Hc.
  rewrite replaceUnquoted_char by assumption. now rewrite IH.
Qed.

Lemma replaceUnquoted_quote rest :
  notMarked rest = true ->
  replaceUnquotedFrom 0 (34%N :: rest) = 34%N :: replaceUnquotedFrom 0 rest.
Proof.
  unfold notMarked. intros H. cbn [replaceUnquotedFrom]. unfold matchUnquoted.
  cbn [stripPrefix]. change (34 =? 34)%N with true. cbv iota.
  destruct (stripPrefix marker rest); [discriminate|reflexivity].
Qed.

Lemma notMarked_head c tl : c <> 95%N -> notMarked (c :: tl) = true.
Proof.
  intros Hc. unfold notMarked, marker. cbn [str list_ascii_of_string map stripPrefix].
  change (N_of_ascii "_") with 95%N.
  assert ((95 =? c)%N = false) as -> by (apply N.eqb_neq; congruence).
  reflexivity.
Qed.

(** Bare-word characters are written as they are. *)
Lemma isBareChar_plain c :
  isBareChar c = true ->
  c <> 34%N /\ c <> 92%N /\ isHighSurrogate c = false /\ isLowSurrogate c = false
  /\ escapeUnit c = [c] /\ isLineTerminator c = false.
Proof.
  intros H. apply isBareChar_spec in H. unfold specWordChar in H.
  assert (E : forall k, (k < 45 \/ 122 < k -> (c =? k) = false)%N)
    by (intros k ?; apply N.eqb_neq; lia).
  repeat split; try lia.
  - unfold isHighSurrogate, inRange. apply andb_false_iff. left. apply N.leb_gt. lia.
  - unfold isLowSurrogate, inRange. apply andb_false_iff. left. apply N.leb_gt. lia.
  - unfold escapeUnit. rewrite !E by lia.
    assert ((c =? 92)%N = false) as -> by (apply N.eqb_neq; lia).
    assert ((c <? 32)%N = false) as -> by (apply N.ltb_ge; lia). reflexivity.
  - unfold isLineTerminator. rewrite !E by lia. reflexivity.
Qed.

Lemma quoteBody_bare x : forallb isBareChar x = true -> quoteBody x = x.
Proof.
  induction x as [|c tl IH]; [reflexivity|].
  cbn [forallb]. intros [Hc Htl]%andb_prop.
  destruct (isBareChar_plain c Hc) as (_ & _ & Hh & Hl & He & _).
  cbn [quoteBody]. rewrite Hh, Hl, He. cbn [app]. now rewrite IH.
Qed.

Lemma quoteBody_head c tl :
  exists h t, quoteBody (c :: tl) = h :: t /\ (h = c \/ h = 92%N).
Proof.
  cbn [quoteBody]. destruct (isHighSurrogate c).
  - destruct tl as [|d tl']; [eexists _, _; split; [reflexivity|now right]|].
    destruct (isLowSurrogate d); eexists _, _; (split; [reflexivity|auto]).
  - destruct (isLowSurrogate c); [eexists _, _; split; [reflexivity|now right]|].
    unfold escapeUnit.
    repeat match goal with
           | |- context [if ?b then _ else _] =>
               destruct b; [eexists _, _; split; [reflexivity|auto]|]
           end.
    eexists _, _; split; [reflexivity|auto].
Qed.

(** A word of bare characters that is not at the head of a string is not
    at the head of its quoted form either. *)
Lemma stripPrefix_quoteBody p : forall s rest,
  forallb isBareChar p = true ->
  stripPrefix p s = None ->
  stripPrefix p (quoteBody s ++ 34%N :: rest) = None.
Proof.
  induction p as [|a p IH]; intros s rest Hp Hs; [discriminate Hs|].
  cbn [forallb] in Hp. apply andb_prop in Hp as [Ha Hp].
  destruct (isBareChar_plain a Ha) as (Ha34 & Ha92 & Hh & Hl & He & _).
  destruct s as [|c tl].
  - cbn [quoteBody app stripPrefix].
    assert ((a =? 34)%N = false) as -> by (apply N.eqb_neq; congruence).
    reflexivity.
  - cbn [stripPrefix] in Hs. destruct (N.eqb_spec a c) as [<-|Hne].
    + cbn [quoteBody]. rewrite Hh, Hl, He. cbn [app stripPrefix].
      rewrite N.eqb_refl. now apply IH.
    + destruct (quoteBody_head c tl) as (h & t & -> & Hhd).
      cbn [app stripPrefix].
      assert ((a =? h)%N = false) as ->; [|reflexivity].
      apply N.eqb_neq. destruct Hhd; congruence.
Qed.

Lemma marker_bare : forallb isBareChar marker = true.
Proof. reflexivity. Qed.

Lemma containsMarker_cons c tl :
  containsMarker (c :: tl) = false ->
  stripPrefix marker (c :: tl) = None /\ containsMarker tl = false.
Proof. cbn [containsMarker]. destruct (stripPrefix marker (c :: tl)); [discriminate|auto]. Qed.

Lemma containsMarker_head s : containsMarker s = false -> stripPrefix marker s = None.
Proof. destruct s; [reflexivity|]. intros H. now apply containsMarker_cons in H. Qed.

Lemma notMarked_quoteBody s rest :
  containsMarker s = false -> notMarked (quoteBody s ++ 34%N :: rest) = true.
Proof.
  intros H. unfold notMarked.
  rewrite (stripPrefix_quoteBody marker s rest marker_bare (containsMarker_head s H)).
  reflexivity.
Qed.

Lemma unicodeEscape_noQuote c : noQuote (unicodeEscape c) = true.
Proof.
  assert (H : forall d, negb (hexDigit d =? 34)%N = true).
  { intros d. apply negb_true_iff, N.eqb_neq. unfold hexDigit.
    destruct (d <? 10)%N; lia. }
  unfold unicodeEscape, noQuote. cbn [forallb]. now rewrite !H.
Qed.

(** The post-pass leaves the body of a quoted string without marker text
    as it is. *)
Lemma replaceUnquoted_quoteBody_aux n : forall s rest,
  length s <= n ->
  containsMarker s = false ->
  notMarked rest = true ->
  replaceUnquotedFrom 0 (quoteBody s ++ 34%N :: rest)
  = quoteBody s ++ 34%N :: replaceUnquotedFrom 0 rest.
Proof.
  induction n as [|n IH]; intros s rest Hn Hs Hrest.
  { destruct s; [|cbn in Hn; lia]. now apply replaceUnquoted_quote. }
  destruct s as [|c tl]; [now apply replaceUnquoted_quote|].
  cbn [length] in Hn. apply containsMarker_cons in Hs as [_ Htl].
  cbn [quoteBody].
  destruct (isHighSurrogate c) eqn:Hhi.
  - pose proof (surrogate_bounds c (or_introl Hhi)) as Hb.
    destruct tl as [|d tl'].
    + rewrite replaceUnquoted_plain by apply unicodeEscape_noQuote.
      now rewrite replaceUnquoted_quote.
    + destruct (isLowSurrogate d) eqn:Hlo.
      * pose proof (surrogate_bounds d (or_intror Hlo)) as Hd.
        apply containsMarker_cons in Htl as [_ Htl'].
        cbn [app]. rewrite !replaceUnquoted_char by lia.
        rewrite IH by (cbn [length] in *; try lia; assumption). reflexivity.
      * rewrite <- app_assoc, replaceUnquoted_plain by apply unicodeEscape_noQuote.
        rewrite IH by (try lia; assumption). now rewrite <- app_assoc.
  - destruct (isLowSurrogate c) eqn:Hlo.
    + rewrite <- app_assoc, replaceUnquoted_plain by apply unicodeEscape_noQuote.
      rewrite IH by (try lia; assumption). now rewrite <- app_assoc.
    + rewrite <- app_assoc. unfold escapeUnit.
      destruct (N.eqb_spec c 34) as [->|Hq].
      * cbn [N.eqb Pos.eqb app].
        rewrite replaceUnquoted_char by lia.
        rewrite replaceUnquoted_quote by now apply notMarked_quoteBody.
        rewrite IH by (try lia; assumption). reflexivity.
      * assert (Hplain : forall x : jsstring, noQuote x = true ->
                  replaceUnquotedFrom 0 (x ++ quoteBody tl ++ 34%N :: rest)
                  = x ++ quoteBody tl ++ 34%N :: replaceUnquotedFrom 0 rest).
        { intros x Hx. rewrite replaceUnquoted_plain by assumption.
          now rewrite IH by (try lia; assumption). }
        repeat match goal with
               | |- context [if ?b then _ else _] =>
                   destruct b; [apply Hplain; first [reflexivity|apply unicodeEscape_noQuote]|]
               end.
        apply Hplain. unfold noQuote. cbn [forallb].
        apply N.eqb_neq in Hq. now rewrite Hq.
Qed.

Lemma replaceUnquoted_quoted s rest :
  containsMarker s = false ->
  notMarked rest = true ->
  replaceUnquotedFrom 0 (QuoteJSONString s ++ rest)
  = QuoteJSONString s ++ replaceUnquotedFrom 0 rest.
Proof.
  intros Hs Hrest. unfold QuoteJSONString. cbn [app]. rewrite <- !app_assoc. cbn [app].
  rewrite replaceUnquoted_quote by now apply notMarked_quoteBody.
  now rewrite (replaceUnquoted_quoteBody_aux (length s)).
Qed.

Lemma stripPrefix_app p rest : stripPrefix p (p ++ rest) = Some rest.
Proof. induction p as [|a p IH]; [reflexivity|]. cbn [app stripPrefix]. now rewrite N.eqb_refl. Qed.

(** Before the end of a bare word the closing text of a marked string
    does not occur. *)
Lemma closing_not_inside w rest :
  w <> [] -> forallb isBareChar w = true ->
  stripPrefix [95; 95; 34]%N (w ++ 95%N :: 95%N :: 34%N :: rest) = None.
Proof.
  intros Hne Hw.
  assert (Hq : forall c, isBareChar c = true -> (34 =? c)%N = false).
  { intros c Hc. apply N.eqb_neq. destruct (isBareChar_plain c Hc) as [? _]. congruence. }
  destruct w as [|a [|b [|c tl]]]; [congruence| | |]; cbn [app stripPrefix].
  - destruct (95 =? a)%N; reflexivity.
  - destruct (95 =? a)%N, (95 =? b)%N; reflexivity.
  - cbn [forallb] in Hw. apply andb_prop in Hw as [_ Hw].
    apply andb_prop in Hw as [_ Hw]. apply andb_prop in Hw as [Hc _].
    rewrite (Hq c Hc). destruct (95 =? a)%N, (95 =? b)%N; reflexivity.
Qed.

Lemma lazyDotThen_bare w rest :
  w <> [] -> forallb isBareChar w = true ->
  lazyDotThen [95; 95; 34]%N (w ++ 95%N :: 95%N :: 34%N :: rest) = Some (w, rest).
Proof.
  induction w as [|c tl IH]; [congruence|]. intros _ Hw.
  cbn [forallb] in Hw. apply andb_prop in Hw as [Hc Htl].
  destruct (isBareChar_plain c Hc) as (_ & _ & _ & _ & _ & Hlt).
  cbn [app lazyDotThen]. rewrite Hlt.
  destruct tl as [|d tl'].
  - cbn [app stripPrefix]. reflexivity.
  - rewrite closing_not_inside by (discriminate || assumption).
    rewrite IH by (discriminate || assumption). reflexivity.
Qed.

(** The post-pass turns a marked bare word into the word. *)
Lemma replaceUnquoted_marked w rest :
  isSafeBareWord w = true ->
  replaceUnquotedFrom 0 (QuoteJSONString (marker ++ w ++ str "__") ++ rest)
  = w ++ replaceUnquotedFrom 0 rest.
Proof.
  intros Hsafe. unfold isSafeBareWord in Hsafe.
  apply andb_prop in Hsafe as [Hw _]. unfold testBareWord in Hw.
  apply andb_prop in Hw as [Hne Hw].
  assert (w <> []) as Hne' by (destruct w; [discriminate|discriminate]).
  unfold QuoteJSONString. rewrite quoteBody_bare.
  2:{ rewrite !forallb_app, Hw. reflexivity. }
  cbn [app]. rewrite <- !app_assoc.
  change (str "__" ++ [34%N] ++ rest) with (95%N :: 95%N :: 34%N :: rest).
  cbn [replaceUnquotedFrom]. unfold matchUnquoted.
  change (stripPrefix (34%N :: marker) (34%N :: ?x)) with (stripPrefix marker x).
  rewrite stripPrefix_app.
  change (str "__" ++ [34%N]) with [95; 95; 34]%N.
  rewrite lazyDotThen_bare by assumption.
  f_equal.
  replace (length (34%N :: marker) + length w + 3 - 1)
    with (length (marker ++ w ++ [95; 95; 34]%N))
    by (rewrite !length_app; cbn [length]; lia).
  change (marker ++ w ++ 95%N :: 95%N :: 34%N :: rest)
    with (marker ++ w ++ [95; 95; 34]%N ++ rest).
  rewrite !app_assoc. rewrite <- (app_assoc marker w).
  apply replaceUnquotedFrom_skip.
Qed.

(** A string value without marker text: the post-pass turns what the
    code serializes into what the specification writes. *)
Lemma replaceUnquoted_string s rest :
  containsMarker s = false ->
  notMarked rest = true ->
  replaceUnquotedFrom 0 (quoteMarked s ++ rest)
  = quoteBare s ++ replaceUnquotedFrom 0 rest.
Proof.
  intros Hs Hrest. unfold quoteMarked, quoteBare.
  destruct (isSafeBareWord s) eqn:Hsafe.
  - now apply replaceUnquoted_marked.
  - now apply replaceUnquoted_quoted.
Qed.

Lemma noQuote_app a b : noQuote (a ++ b) = noQuote a && noQuote b.
Proof. apply forallb_app. Qed.

Lemma replaceUnquoted_join {A} (fm fs : A -> jsstring) sep items tail :
  Forall (fun x => forall rest, notMarked rest = true ->
                     replaceUnquotedFrom 0 (fm x ++ rest)
                     = fs x ++ replaceUnquotedFrom 0 rest) items ->
  noQuote sep = true ->
  (forall t, notMarked (sep ++ t) = true) ->
  notMarked tail = true ->
  replaceUnquotedFrom 0 (join sep (map fm items) ++ tail)
  = join sep (map fs items) ++ replaceUnquotedFrom 0 tail.
Proof.
  intros Hall Hsep Hhead Htail.
  induction Hall as [|x tl Hx _ IH]; [reflexivity|].
  destruct tl as [|y tl'].
  - cbn [map join]. now apply Hx.
  - rewrite (map_cons fm x), (map_cons fs x), !join_cons, <- !app_assoc.
    rewrite Hx by apply Hhead.
    rewrite replaceUnquoted_plain by assumption.
    now rewrite IH.
Qed.

Lemma replaceUnquoted_wrap a b gap stepback indent (pm ps : list jsstring) rest :
  a <> 34%N -> b <> 34%N -> b <> 95%N ->
  noQuote gap = true -> noQuote stepback = true -> noQuote indent = true ->
  (pm = [] <-> ps = []) ->
  (forall sep tail,
      noQuote sep = true -> (forall t, notMarked (sep ++ t) = true) ->
      notMarked tail = true ->
      replaceUnquotedFrom 0 (join sep pm ++ tail)
      = join sep ps ++ replaceUnquotedFrom 0 tail) ->
  replaceUnquotedFrom 0 (wrap [a] [b] gap stepback indent pm ++ rest)
  = wrap [a] [b] gap stepback indent ps ++ replaceUnquotedFrom 0 rest.
Proof.
  intros Ha Hb Hb' Hgap Hstep Hind Hnil Hjoin.
  assert (Hq : forall c, c <> 34%N -> negb (c =? 34)%N = true)
    by (intros c Hc; now apply negb_true_iff, N.eqb_neq).
  assert (Hempty : replaceUnquotedFrom 0 (([a] ++ [b]) ++ rest)
                   = ([a] ++ [b]) ++ replaceUnquotedFrom 0 rest).
  { apply replaceUnquoted_plain. unfold noQuote. cbn [app forallb].
    now rewrite !Hq. }
  unfold wrap.
  destruct pm as [|p pm'], ps as [|q ps'];
    try (exfalso; destruct Hnil as [H1 H2];
         (discriminate (H1 eq_refl) || discriminate (H2 eq_refl))).
  { exact Hempty. }
  destruct (isEmpty gap).
  - rewrite <- !app_assoc. cbn [app].
    rewrite replaceUnquoted_char by assumption.
    rewrite (Hjoin [44%N] (b :: rest)); [| reflexivity | | now apply notMarked_head].
    + rewrite replaceUnquoted_char by assumption. reflexivity.
    + intros t. now apply notMarked_head.
  - rewrite <- !app_assoc. cbn [app].
    rewrite replaceUnquoted_char by assumption.
    change (10%N :: indent ++ ?x) with ((10%N :: indent) ++ x).
    rewrite replaceUnquoted_plain by (unfold noQuote in *; cbn [forallb]; now rewrite Hind).
    rewrite (Hjoin (44%N :: 10%N :: indent) (10%N :: stepback ++ b :: rest));
      [| | | now apply notMarked_head].
    + change (10%N :: stepback ++ b :: rest) with ((10%N :: stepback) ++ b :: rest).
      rewrite replaceUnquoted_plain
        by (unfold noQuote in *; cbn [forallb]; now rewrite Hstep).
      rewrite replaceUnquoted_char by assumption.
      reflexivity.
    + unfold noQuote in *. cbn [forallb]. now rewrite Hind.
    + intros t. now apply notMarked_head.
Qed.

Lemma uintToString_noQuote u : noQuote (uintToString u) = true.
Proof. induction u; cbn [uintToString]; try exact IHu; reflexivity. Qed.

Lemma Number_toString_noQuote z : noQuote (Number_toString (Finite z)) = true.
Proof.
  cbn [Number_toString]. unfold digits.
  destruct (z <? 0)%Z; [cbn [noQuote forallb]|]; apply uintToString_noQuote.
Qed.

Lemma markerFree_postPassAgrees v : markerFree v = true -> postPassAgrees v.
Proof.
  induction v as [| b | n | s | items IH | props IH] using value_induction;
    intros Hfree gap indent rest Hgap Hind Hrest.
  - now apply replaceUnquoted_plain.
  - destruct b; now apply replaceUnquoted_plain.
  - destruct n as [z|neg|neg m e]; cbn [serialize].
    + apply replaceUnquoted_plain, Number_toString_noQuote.
    + now apply replaceUnquoted_plain.
    + apply replaceUnquoted_plain. unfold noQuote.
      apply Number_toString_binary_forallb; try reflexivity.
      intros c Hc. rewrite (isDigit_not c 34 Hc); [reflexivity|lia].
  - cbn [serialize]. cbn [markerFree] in Hfree. apply negb_true_iff in Hfree.
    now apply replaceUnquoted_string.
  - cbn [serialize]. cbn [markerFree] in Hfree. apply forallb_Forall' in Hfree.
    apply replaceUnquoted_wrap; try assumption; try discriminate.
    + now rewrite noQuote_app, Hind, Hgap.
    + destruct items; split; discriminate || reflexivity.
    + intros sep tail Hsep Hhead Htail.
      apply replaceUnquoted_join; try assumption.
      apply List.Forall_forall. intros x Hx rest' Hrest'.
      rewrite List.Forall_forall in IH, Hfree.
      apply (IH x Hx (Hfree x Hx)); try assumption.
      now rewrite noQuote_app, Hind, Hgap.
  - cbn [serialize]. cbn [markerFree] in Hfree. apply forallb_Forall' in Hfree.
    apply replaceUnquoted_wrap; try assumption; try discriminate.
    + now rewrite noQuote_app, Hind, Hgap.
    + destruct props; split; discriminate || reflexivity.
    + intros sep tail Hsep Hhead Htail.
      apply (replaceUnquoted_join
               (fun kv => QuoteJSONString (fst kv) ++ [58%N]
                            ++ (if isEmpty gap then [] else [32%N])
                            ++ serialize quoteMarked gap (indent ++ gap) (snd kv))
               (fun kv => QuoteJSONString (fst kv) ++ [58%N]
                            ++ (if isEmpty gap then [] else [32%N])
                            ++ serialize quoteBare gap (indent ++ gap) (snd kv)));
        try assumption.
      apply List.Forall_forall. intros kv Hkv rest' Hrest'.
      rewrite List.Forall_forall in IH, Hfree.
      specialize (Hfree kv Hkv). apply andb_prop in Hfree as [Hkey Hval].
      apply negb_true_iff in Hkey.
      rewrite <- !app_assoc.
      rewrite replaceUnquoted_quoted; [|assumption|now apply notMarked_head].
      cbn [app]. rewrite replaceUnquoted_char by discriminate.
      rewrite replaceUnquoted_plain by now destruct (isEmpty gap).
      rewrite (IH kv Hkv Hval)
        by (try assumption; now rewrite noQuote_app, Hind, Hgap).
      reflexivity.
Qed.

Lemma noQuote_gapOf_number n : noQuote (gapOf (SpaceNumber n)) = true.
Proof.
  cbn [gapOf]. induction (Nat.min 10 n) as [|k IH]; [reflexivity|].
  cbn [repeat_ app]. exact IH.
Qed.

(** On values without marker text, token-aware [jsonStringify] writes
    what the specification describes: the standard serialization with the
    safe bare words unquoted. *)
Lemma jsonStringify_tokenAware_agrees (v : value) (space : Space) :
  markerFree v = true ->
  noQuote (gapOf space) = true ->
  jsonStringify v true space = Some (specTokenAwareJson v space).
Proof.
  intros Hfree Hgap. rewrite jsonStringify_total. f_equal.
  unfold replaceUnquoted, specTokenAwareJson.
  pose proof (markerFree_postPassAgrees v Hfree (gapOf space) [] []
                Hgap eq_refl eq_refl) as H.
  rewrite !app_nil_r in H. exact H.
Qed.

(** ** The minified round trip *)

(** C1, as the specification states it, fails even with token-aware mode
    off: the valid JSON text [1e400] parses to [Infinity], which has no
    bare-word-eligible string, [JSON.stringify] writes [Infinity] as
    [null], and [null] parses to [null]. *)
Lemma minified_roundtrip_fails_at_overflow :
  ~ (forall input v tokenAware,
       JSON_parse input = Parsed v ->
       tokenAware = false \/ noBareWords v = true ->
       roundTrips v tokenAware).
Proof.
  intros H.
  destruct (H (str "1e400") (JNumber (Infinity false)) false) as (out & Hout & Hp).
  - vm_compute. reflexivity.
  - now left.
  - vm_compute in Hout. injection Hout as <-. vm_compute in Hp. discriminate.
Qed.

Lemma serialize_noBareWords v :
  noBareWords v = true ->
  forall gap indent,
    serialize quoteBare gap indent v = serialize QuoteJSONString gap indent v.
Proof.
  induction v as [| b | n | s | items IH | props IH] using value_induction;
    intros Hno gap indent; try reflexivity.
  - cbn [noBareWords] in Hno. apply negb_true_iff in Hno.
    cbn [serialize]. unfold quoteBare. now rewrite Hno.
  - cbn [noBareWords] in Hno. apply forallb_Forall' in Hno.
    cbn [serialize]. f_equal. apply map_ext_in. intros x Hx.
    rewrite List.Forall_forall in IH, Hno. now apply IH; auto.
  - cbn [noBareWords] in Hno. apply forallb_Forall' in Hno.
    cbn [serialize]. f_equal. apply map_ext_in. intros kv Hkv.
    rewrite List.Forall_forall in IH, Hno. now rewrite IH by auto.
Qed.

(** Numbers that are not integers are parsed to the nearest double and
    written in the shortest notation that reads back as that double. *)
Lemma fractions_minified_spec :
  JSON_parse fractions_input = Parsed fractions_value
  /\ jsonStringify fractions_value false SpaceUndefined = Some fractions_minified
  /\ JSON_parse fractions_minified = Parsed fractions_value.
Proof. repeat split; vm_compute; reflexivity. Qed.

(** C1, amended: for every value parsed from valid JSON input in which no
    number overflows to an infinity, the minified output, parsed again,
    is that value, whenever token-aware mode is off, or the value has no
    bare-word-eligible string value and no string value or key that
    contains the marker text.  Numbers are doubles: a literal is parsed
    to the nearest double and written in the shortest decimal notation
    that reads back as that double. *)
Theorem minified_roundtrip (input : jsstring) (v : value) (tokenAware : bool) :
  JSON_parse input = Parsed v ->
  finiteNumbers v = true ->
  tokenAware = false \/ (noBareWords v = true /\ markerFree v = true) ->
  roundTrips v tokenAware.
Proof.
  intros Hparse Hfin Hmode. exists (standardJson v SpaceUndefined). split.
  - destruct tokenAware; [|apply jsonStringify_total].
    destruct Hmode as [|[Hno Hfree]]; [discriminate|].
    rewrite jsonStringify_tokenAware_agrees by (assumption || reflexivity).
    unfold specTokenAwareJson, standardJson.
    now rewrite (serialize_noBareWords v Hno).
  - apply JSON_parse_minified; [|assumption].
    eapply JSON_parse_wellFormed, Hparse.
Qed.

Lemma minified_roundtrip_witness :
  JSON_parse sample_input = Parsed sample_value
  /\ finiteNumbers sample_value = true
  /\ noBareWords sample_value = true
  /\ markerFree sample_value = true
  /\ roundTrips sample_value true
  /\ JSON_parse fractions_input = Parsed fractions_value
  /\ finiteNumbers fractions_value = true
  /\ roundTrips fractions_value false.
Proof.
  assert (H : JSON_parse sample_input = Parsed sample_value)
    by (vm_compute; reflexivity).
  assert (H' : JSON_parse fractions_input = Parsed fractions_value)
    by (vm_compute; reflexivity).
  split; [exact H|]. split; [reflexivity|]. split; [reflexivity|].
  split; [reflexivity|]. split.
  { apply (minified_roundtrip sample_input sample_value true H); [reflexivity|].
    right. split; reflexivity. }
  split; [exact H'|]. split; [reflexivity|].
  apply (minified_roundtrip fractions_input fractions_value false H');
    [reflexivity|now left].
Defined.

(** ** Token-aware JSON against the specification *)

(** C3 does not hold of the code: the post-pass strips the quotes of any
    serialized string of the marked form, so a leaf string that is not a
    safe bare word but reads like a marker loses its quotes (and its
    marker text), in the minified and in the pretty view, where the
    specification keeps the standard quoted string; on values without
    marker text the two agree ([jsonStringify_tokenAware_agrees]), as at
    [sample_value] and at a list of words. *)
Theorem jsonStringify_marker_collision :
  isSafeBareWord marker_like = false
  /\ jsonStringify (JArray [JString marker_like]) true SpaceUndefined
     = Some (str "[a b]")
  /\ specTokenAwareJson (JArray [JString marker_like]) SpaceUndefined
     = str "[" ++ QuoteJSONString marker_like ++ str "]"
  /\ jsonStringify (JArray [JString marker_like]) true (SpaceNumber 2)
     <> Some (specTokenAwareJson (JArray [JString marker_like]) (SpaceNumber 2))
  /\ JSON_parse (str "[a b]") = SyntaxError
  /\ jsonStringify sample_value true (SpaceNumber 2)
     = Some (specTokenAwareJson sample_value (SpaceNumber 2))
  /\ jsonStringify (JArray [JString (str "abc"); JString (str "True");
                            JString (str "hello_world-1")]) true SpaceUndefined
     = Some (str "[abc," ++ quoted "True" ++ str ",hello_world-1]").
Proof. repeat split; vm_compute; congruence. Qed.

(** ** The exact-tokenizer route *)

Lemma POST_not_string encodeText req body :
  json req = Some body -> body <> JNull ->
  typeofString (getProp body (str "model")) = false ->
  POST encodeText req = bad "Missing or invalid model".
Proof.
  intros Hj Hnull Hty. unfold POST. rewrite Hj.
  destruct body; try congruence; cbv zeta; rewrite Hty;
    now rewrite orb_true_r.
Qed.

(** C8: a request whose model identifier is not [cl100k_base] is answered
    with status 400 and a non-empty error message, without tokens and
    without the encoding being loaded. *)
Theorem unsupported_model_rejected
    (encodeText : value -> attempt (list ExactToken)) (req : Request) :
  json req <> Some JNull ->
  requestModel req <> Some (JString cl100k_base) ->
  exists message,
    POST encodeText req
    = Responded {| status := 400; payload := ErrorPayload message |} NotLoaded
    /\ message <> [].
Proof.
  intros Hnull Hmodel. unfold requestModel in Hmodel.
  destruct (json req) as [body|] eqn:Hj.
  2:{ exists (str "Invalid JSON body"). unfold POST. rewrite Hj.
      split; [reflexivity|discriminate]. }
  assert (Hb : body <> JNull) by congruence.
  destruct (typeofString (getProp body (str "model"))) eqn:Hty.
  2:{ exists (str "Missing or invalid model").
      split; [now apply (POST_not_string encodeText req body)|discriminate]. }
  destruct (getProp body (str "model")) as [[| | |m| |]|] eqn:Hm;
    try discriminate Hty.
  assert (Heq : strEq m cl100k_base = false).
  { unfold strEq. apply bool_decide_eq_false. congruence. }
  unfold POST. rewrite Hj.
  destruct body; try congruence; cbv zeta; rewrite Hm;
    cbn [typeofString negb orb stringOf truthy];
    (destruct m as [|c m'];
     [ exists (str "Missing or invalid model"); split; [reflexivity|discriminate] |]);
    cbn [isEmpty negb];
    (destruct (negb (truthy _) || negb (typeofObjectOpt _));
     [ exists (str "Missing or invalid texts"); split; [reflexivity|discriminate] |]);
    rewrite Heq; cbn [negb];
    (eexists; split; [reflexivity|discriminate]).
Qed.

Lemma unsupported_model_rejected_witness :
  exists message,
    POST (fun _ => Returned []) not_a_model_request
    = Responded {| status := 400; payload := ErrorPayload message |} NotLoaded
    /\ message <> [].
Proof.
  apply (unsupported_model_rejected (fun _ => Returned []) not_a_model_request).
  - vm_compute. discriminate.
  - vm_compute. discriminate.
Defined.

(** ** The tokenization effect *)

Lemma runCleanup_length s : length (runCleanup s) = length (runs s).
Proof.
  unfold runCleanup. destruct (current s); [apply length_alter|reflexivity].
Qed.

Lemma runCleanup_all_cancelled s i r :
  onlyCurrentLive s -> runCleanup s !! i = Some r -> cancelled r = true.
Proof.
  intros [_ Hinv]. unfold runCleanup.
  destruct (current s) as [c|] eqn:Hc.
  - destruct (decide (c = i)) as [->|Hne].
    + rewrite list_lookup_alter_eq.
      destruct (runs s !! i); [|discriminate]. now intros [= <-].
    + rewrite list_lookup_alter_ne by assumption.
      intros Hr. apply (Hinv i r Hr). congruence.
  - intros Hr. apply (Hinv i r Hr). discriminate.
Qed.

Lemma step_preserves s e : onlyCurrentLive s -> onlyCurrentLive (step s e).
Proof.
  intros Hinv. destruct e as [deps|i how].
  - assert (Hguard : onlyCurrentLive
              {| shared := cleared; runs := runCleanup s; current := None |}).
    { split; cbn [current runs]; [discriminate|].
      intros i r Hr _. eapply runCleanup_all_cancelled; eassumption. }
    cbn [step].
    destruct (negb (strEq _ _)); [exact Hguard|].
    destruct (negb _ && negb _); [exact Hguard|].
    destruct (isEmpty _ && isEmpty _ && isEmpty _ && isEmpty _); [exact Hguard|].
    split; cbn [current runs].
    + intros i [= <-]. rewrite length_app. cbn [length]. lia.
    + intros i r Hr Hne.
      apply lookup_app_Some in Hr as [Hr|[Hge Hr]].
      * eapply runCleanup_all_cancelled; eassumption.
      * destruct (i - length (runCleanup s)) as [|k] eqn:Hk; [|discriminate].
        exfalso. apply Hne. f_equal. lia.
  - cbn [step]. destruct (runs s !! i) as [r|] eqn:Hr; [|exact Hinv].
    destruct (resume r how (shared s)) as [[sh ph]|]; [|exact Hinv].
    destruct Hinv as [Hcur Hinv]. split; cbn [current runs].
    + intros j Hj. rewrite length_insert. now apply Hcur.
    + intros j r' Hr' Hne.
      destruct (decide (i = j)) as [->|Hij].
      * rewrite list_lookup_insert_eq in Hr' by (eapply lookup_lt_Some; eassumption).
        injection Hr' as <-. cbn [cancelled]. now apply (Hinv j r).
      * rewrite list_lookup_insert_ne in Hr' by assumption.
        now apply (Hinv j r').
Qed.

Lemma reachable_onlyCurrentLive trace : onlyCurrentLive (execute init trace).
Proof.
  unfold execute.
  assert (H : forall s, onlyCurrentLive s -> onlyCurrentLive (fold_left step trace s)).
  { induction trace as [|e tr IH]; intros s Hs; [exact Hs|].
    cbn [fold_left]. apply IH, step_preserves, Hs. }
  apply H. split; cbn; [discriminate|]. intros i r Hr. now destruct i.
Qed.

(** A cancelled instance writes nothing when it continues. *)
Lemma resume_cancelled r how sh sh' ph :
  cancelled r = true -> resume r how sh = Some (sh', ph) -> sh' = sh.
Proof.
  intros Hc. unfold resume, finally. rewrite Hc. cbn [negb orb].
  destruct (phase r), how; intros [= <- _]; reflexivity.
Qed.

(** C9: in every state the page reaches, whatever the order in which the
    pending promises settled, a request that has been superseded leaves
    the shared state (the exact tokens, the flag and the error) as it
    is when its promise settles, with whatever result; so a settling
    request that changes the exact tokens is the latest one. *)
Theorem stale_result_never_applied (trace : list Event) (a : nat) (how : Settled) :
  superseded (execute init trace) a ->
  shared (step (execute init trace) (Settle a how)) = shared (execute init trace)
  /\ forall i how',
       exactTokens (shared (step (execute init trace) (Settle i how')))
       <> exactTokens (shared (execute init trace)) ->
       current (execute init trace) = Some i.
Proof.
  intros [Hlt Hne].
  pose proof (reachable_onlyCurrentLive trace) as [_ Hinv].
  assert (Hstale : forall i how',
            current (execute init trace) <> Some i ->
            shared (step (execute init trace) (Settle i how'))
            = shared (execute init trace)).
  { intros i how' Hi. cbn [step].
    destruct (runs (execute init trace) !! i) as [r|] eqn:Hr; [|reflexivity].
    destruct (resume r how' (shared (execute init trace))) as [[sh ph]|] eqn:Hres;
      [|reflexivity].
    cbn [shared]. eapply resume_cancelled; [|eassumption].
    now apply (Hinv i r). }
  split; [now apply Hstale|].
  intros i how' Hchg.
  destruct (decide (current (execute init trace) = Some i)) as [|Hi]; [assumption|].
  exfalso. apply Hchg. now rewrite Hstale.
Qed.

Lemma stale_result_never_applied_witness :
  superseded (execute init superseding_trace) 0
  /\ shared (step (execute init superseding_trace) (Settle 0 (BodyParsed (Some stale_tokens))))
     = shared (execute init superseding_trace).
Proof.
  assert (H : superseded (execute init superseding_trace) 0).
  { split; vm_compute; [lia|discriminate]. }
  split; [exact H|].
  apply (stale_result_never_applied superseding_trace 0
           (BodyParsed (Some stale_tokens)) H).
Defined.

(** The result of the latest request is applied, whether the superseded
    request settles before it or after it. *)
Lemma latest_result_applied_either_order :
  exactTokens (shared (execute init
    (superseding_trace
       ++ [Settle 0 (BodyParsed (Some stale_tokens)); Settle 1 FetchOk;
           Settle 1 (BodyParsed (Some fresh_tokens))]))) = fresh_tokens
  /\ exactTokens (shared (execute init
    (superseding_trace
       ++ [Settle 1 FetchOk; Settle 1 (BodyParsed (Some fresh_tokens));
           Settle 0 (BodyParsed (Some stale_tokens))]))) = fresh_tokens.
Proof. split; reflexivity. Qed.

(** ** The parse/convert step *)

Lemma dropWhile_all p s : forallb p s = true -> dropWhile p s = [].
Proof.
  induction s as [|c tl IH]; [reflexivity|].
  cbn [forallb dropWhile]. intros [-> Htl]%andb_prop. now apply IH.
Qed.

Lemma trim_blank s : forallb isWhiteSpace s = true -> trim s = [].
Proof. intros H. unfold trim. now rewrite (dropWhile_all _ s H). Qed.

Lemma forallb_dropWhile p q s :
  forallb p s = true -> forallb p (dropWhile q s) = true.
Proof.
  induction s as [|c tl IH]; [reflexivity|].
  cbn [forallb dropWhile]. intros [Hc Htl]%andb_prop.
  destruct (q c); [now apply IH|]. cbn [forallb]. now rewrite Hc, Htl.
Qed.

Lemma isWhiteSpace_cases c :
  isWhiteSpace c = true -> (c <= 13 \/ c = 32 \/ 160 <= c)%N.
Proof.
  unfold isWhiteSpace, inRange.
  rewrite !orb_true_iff, !andb_true_iff, !N.leb_le, !N.eqb_eq. lia.
Qed.

(** White space alone is not a JSON text. *)
Lemma blank_input_not_json input :
  forallb isWhiteSpace input = true -> JSON_parse input = SyntaxError.
Proof.
  intros H. unfold JSON_parse. cbn [parseValue].
  pose proof (forallb_dropWhile isWhiteSpace isJsonWs input H) as Hrest.
  fold (skipWs input) in Hrest.
  destruct (skipWs input) as [|c tl]; [reflexivity|].
  cbn [forallb] in Hrest. apply andb_prop in Hrest as [Hc _].
  apply isWhiteSpace_cases in Hc.
  assert (E : forall k, (13 < k -> k <> 32 -> k < 160 -> (c =? k) = false)%N)
    by (intros k ? ? ?; apply N.eqb_neq; lia).
  assert (isDigit c = false) as Hd.
  { unfold isDigit, inRange. apply andb_false_iff. rewrite !N.leb_gt. lia. }
  rewrite !E, Hd by lia. reflexivity.
Qed.

(** C10: for an input that is empty or made of white space only, the
    step yields the empty string for every output and for the error,
    whatever the converters and the parser's message are: none of them is
    consulted, although [JSON.parse] would reject the input. *)
Theorem blank_input_blank_outputs
    (encodeToon : value -> Delimiter -> KeyFolding -> attempt jsstring)
    (jsonToToml : value -> bool -> attempt jsstring)
    (syntaxErrorMessage : jsstring -> jsstring)
    (cfg : Config) (input : jsstring) :
  forallb isWhiteSpace input = true ->
  convert encodeToon jsonToToml syntaxErrorMessage cfg input
  = Some {| error := []; prettyJson := []; minifiedJson := []; yaml := [];
            toon := []; toml := [] |}
  /\ JSON_parse input = SyntaxError.
Proof.
  intros H. split; [|now apply blank_input_not_json].
  unfold convert. now rewrite (trim_blank input H).
Qed.

Lemma blank_input_blank_outputs_witness :
  forallb isWhiteSpace blank_sample = true
  /\ convert failingToon failingToml sampleMessage sample_config blank_sample
     = Some (blank [])
  /\ JSON_parse blank_sample = SyntaxError.
Proof.
  split; [reflexivity|].
  apply (blank_input_blank_outputs failingToon failingToml sampleMessage
           sample_config blank_sample).
  reflexivity.
Defined.

(** ** The ids and offsets of the approximate tokenizer *)

Lemma idMapOk_empty : idMapOk ∅ 1.
Proof.
  split; [lia|]. split; intros *; rewrite lookup_empty; discriminate.
Qed.

Lemma idMapOk_insert idMap nextId k :
  idMapOk idMap nextId -> idMap !! k = None ->
  idMapOk (<[k := nextId]> idMap) (S nextId).
Proof.
  intros (H1 & H2 & H3) Hk. split; [lia|]. split.
  - intros k' n. destruct (decide (k = k')) as [->|Hne].
    + rewrite lookup_insert_eq. intros [= <-]. lia.
    + rewrite lookup_insert_ne by assumption. intros H. apply H2 in H. lia.
  - intros k1 k2 n.
    destruct (decide (k1 = k)) as [->|Hn1]; destruct (decide (k2 = k)) as [->|Hn2];
      rewrite ?lookup_insert_eq, ?lookup_insert_ne by (now apply not_eq_sym).
    + reflexivity.
    + intros [= <-] H. apply H2 in H. lia.
    + intros H [= <-]. apply H2 in H. lia.
    + apply H3.
Qed.

(** The tokens of the loop carry the identifiers of one final map that
    extends the map the loop started from. *)
Lemma tokenizeFrom_ids s :
  forall skip pos idMap nextId,
    idMapOk idMap nextId ->
    exists idMap' nextId',
      idMapOk idMap' nextId' /\ idMap ⊆ idMap'
      /\ Forall (fun t =>
                   text t <> []
                   /\ if testAllWhiteSpace (text t) then id t = None
                      else id t <> None /\ id t = idMap' !! text t)
                (tokenizeFrom skip pos s idMap nextId).
Proof.
  induction s as [|c tl IH]; intros skip pos idMap nextId Hok.
  { exists idMap, nextId. split; [exact Hok|]. split; [reflexivity|constructor]. }
  cbn [tokenizeFrom]. destruct skip as [|k]; [|now apply IH].
  destruct (tokenRegexAt (c :: tl)) as [m|] eqn:Em;
    [|now apply tokenRegexAt_total in Em].
  apply tokenRegexAt_Some in Em as [Hne _].
  destruct (testAllWhiteSpace m) eqn:Ews.
  - destruct (IH (length m - 1) (S pos) idMap nextId Hok)
      as (idMap' & nextId' & Hok' & Hsub & Hall).
    exists idMap', nextId'. split; [exact Hok'|]. split; [exact Hsub|].
    constructor; [|exact Hall]. cbn [text id]. rewrite Ews. now split.
  - destruct (idMap !! m) as [n|] eqn:Elook.
    + destruct (IH (length m - 1) (S pos) idMap nextId Hok)
        as (idMap' & nextId' & Hok' & Hsub & Hall).
      exists idMap', nextId'. split; [exact Hok'|]. split; [exact Hsub|].
      constructor; [|exact Hall]. cbn [text id]. rewrite Ews, Elook.
      split; [assumption|]. split; [discriminate|].
      symmetry. eapply lookup_weaken; eassumption.
    + destruct (IH (length m - 1) (S pos) (<[m := nextId]> idMap) (S nextId)
                  (idMapOk_insert _ _ _ Hok Elook))
        as (idMap' & nextId' & Hok' & Hsub & Hall).
      exists idMap', nextId'. split; [exact Hok'|].
      split; [etransitivity; [|exact Hsub]; now apply insert_subseteq|].
      constructor; [|exact Hall]. cbn [text id]. rewrite Ews, lookup_insert_eq.
      split; [assumption|]. split; [discriminate|].
      symmetry. eapply lookup_weaken; [|exact Hsub]. apply lookup_insert_eq.
Qed.

(** What the ids of the tokens of [simpleTokenize] tell. *)
Lemma simpleTokenize_ids (input : jsstring) :
  Forall (fun t =>
            text t <> []
            /\ match id t with
               | None => forallb isWhiteSpace (text t) = true
               | Some n => forallb isWhiteSpace (text t) = false /\ 1 <= n
               end)
         (simpleTokenize input).
Proof.
  unfold simpleTokenize. destruct (isEmpty input); [constructor|].
  destruct (tokenizeFrom_ids input 0 0 ∅ 1 idMapOk_empty)
    as (idMap' & nextId' & (_ & Hrange & _) & _ & Hall).
  eapply Forall_impl; [exact Hall|]. cbn beta.
  intros t [Hne Hid]. split; [exact Hne|].
  unfold testAllWhiteSpace in Hid.
  destruct (text t) as [|c tl] eqn:Et; [congruence|]. cbn [isEmpty negb andb] in Hid.
  destruct (forallb isWhiteSpace (c :: tl)).
  - now rewrite Hid.
  - destruct Hid as [Hsome Hlook]. destruct (id t) as [n|]; [|congruence].
    split; [reflexivity|]. symmetry in Hlook. apply Hrange in Hlook. lia.
Qed.

(** X1: a token of [simpleTokenize] is never empty; its id is null
    exactly when its text is white space, and every other id is a
    positive number. *)
Theorem simpleTokenize_null_id_iff_whitespace (input : jsstring) (t : Token) :
  In t (simpleTokenize input) ->
  text t <> []
  /\ (id t = None <-> forallb isWhiteSpace (text t) = true)
  /\ (forall n, id t = Some n -> 1 <= n).
Proof.
  intros Hin.
  pose proof (simpleTokenize_ids input) as Hall.
  rewrite List.Forall_forall in Hall. destruct (Hall t Hin) as [Hne Hid].
  split; [exact Hne|]. destruct (id t) as [n|].
  - destruct Hid as [Hws Hn]. split.
    + split; [discriminate|]. intros H. congruence.
    + now intros m [= <-].
  - split; [tauto|discriminate].
Qed.

Lemma simpleTokenize_null_id_iff_whitespace_witness :
  let t := {| id := None; text := str " "; start := 1; end_ := 2 |} in
  In t (simpleTokenize sample_text)
  /\ (id t = None <-> forallb isWhiteSpace (text t) = true).
Proof.
  cbv zeta.
  assert (H : In {| id := None; text := str " "; start := 1; end_ := 2 |}
                 (simpleTokenize sample_text)) by (vm_compute; tauto).
  split; [exact H|].
  apply (simpleTokenize_null_id_iff_whitespace sample_text _ H).
Defined.

(** X2: two tokens of one call that are not white space have the same
    id exactly when they have the same text. *)
Theorem simpleTokenize_same_id_iff_same_text (input : jsstring) (t1 t2 : Token) :
  In t1 (simpleTokenize input) -> In t2 (simpleTokenize input) ->
  id t1 <> None -> id t2 <> None ->
  (id t1 = id t2 <-> text t1 = text t2).
Proof.
  unfold simpleTokenize. destruct (isEmpty input); [contradiction|].
  destruct (tokenizeFrom_ids input 0 0 ∅ 1 idMapOk_empty)
    as (idMap' & nextId' & (_ & _ & Hinj) & _ & Hall).
  rewrite List.Forall_forall in Hall.
  intros H1 H2 Hn1 Hn2.
  destruct (Hall _ H1) as [_ Hid1]. destruct (Hall _ H2) as [_ Hid2].
  destruct (testAllWhiteSpace (text t1)); [congruence|].
  destruct (testAllWhiteSpace (text t2)); [congruence|].
  destruct Hid1 as [_ Hid1], Hid2 as [_ Hid2]. split.
  - intros Heq. destruct (id t1) as [n|] eqn:E1; [|congruence].
    eapply Hinj; [symmetry; exact Hid1|]. now rewrite <- Hid2, <- Heq.
  - intros Heq. now rewrite Hid1, Hid2, Heq.
Qed.

Lemma simpleTokenize_same_id_iff_same_text_witness :
  let t1 := {| id := Some 1; text := str "a"; start := 0; end_ := 1 |} in
  let t2 := {| id := Some 1; text := str "a"; start := 5; end_ := 6 |} in
  In t1 (simpleTokenize sample_text) /\ In t2 (simpleTokenize sample_text)
  /\ (id t1 = id t2 <-> text t1 = text t2).
Proof.
  cbv zeta. split; [|split].
  - vm_compute. tauto.
  - vm_compute. tauto.
  - apply (simpleTokenize_same_id_iff_same_text sample_text).
    + vm_compute. tauto.
    + vm_compute. tauto.
    + discriminate.
    + discriminate.
Defined.

(** Identifiers the loop hands out itself are used in increasing
    order, none skipped. *)
Lemma tokenizeFrom_counts_up s :
  forall skip pos idMap nextId j t b,
    idMapOk idMap nextId ->
    tokenizeFrom skip pos s idMap nextId !! j = Some t ->
    id t = Some b ->
    forall b', nextId <= b' < b ->
      exists i' t', i' < j
        /\ tokenizeFrom skip pos s idMap nextId !! i' = Some t'
        /\ id t' = Some b'.
Proof.
  induction s as [|c tl IH]; intros skip pos idMap nextId j t b Hok Hj Hb b' Hb'.
  { cbn in Hj. discriminate. }
  cbn [tokenizeFrom] in *. destruct skip as [|k]; [|eapply IH; eassumption].
  destruct (tokenRegexAt (c :: tl)) as [m|] eqn:Em;
    [|now apply tokenRegexAt_total in Em].
  destruct (testAllWhiteSpace m) eqn:Ews.
  - destruct j as [|j]; cbn in Hj.
    + injection Hj as <-. cbn in Hb. discriminate.
    + destruct (IH _ _ _ _ _ _ _ Hok Hj Hb b' Hb') as (i' & t' & Hi & Hl & Hid).
      exists (S i'), t'. split; [lia|]. now split.
  - destruct (idMap !! m) as [n|] eqn:Elook.
    + destruct j as [|j]; cbn in Hj.
      * injection Hj as <-. cbn in Hb. rewrite Elook in Hb. injection Hb as <-.
        destruct Hok as (_ & Hrange & _). apply Hrange in Elook. lia.
      * destruct (IH _ _ _ _ _ _ _ Hok Hj Hb b' Hb') as (i' & t' & Hi & Hl & Hid).
        exists (S i'), t'. split; [lia|]. now split.
    + destruct j as [|j]; cbn in Hj.
      * injection Hj as <-. cbn in Hb. rewrite lookup_insert_eq in Hb.
        injection Hb as <-. lia.
      * destruct (decide (b' = nextId)) as [->|Hne].
        { eexists 0, _. split; [lia|]. split; [reflexivity|].
          cbn. apply lookup_insert_eq. }
        destruct (IH _ _ _ _ _ _ _ (idMapOk_insert _ _ _ Hok Elook) Hj Hb b')
          as (i' & t' & Hi & Hl & Hid); [lia|].
        exists (S i'), t'. split; [lia|]. now split.
Qed.

(** Where the tokens of the loop start and end. *)
Lemma tokenizeFrom_offsets s :
  forall skip pos idMap nextId i t,
    tokenizeFrom skip pos s idMap nextId !! i = Some t ->
    start t = pos + skip
              + length (concat (map text
                  (take i (tokenizeFrom skip pos s idMap nextId))))
    /\ end_ t = start t + length (text t).
Proof.
  induction s as [|c tl IH]; intros skip pos idMap nextId i t Hi.
  { cbn in Hi. discriminate. }
  cbn [tokenizeFrom] in *. destruct skip as [|k].
  2:{ apply IH in Hi as [-> ->]. split; lia. }
  destruct (tokenRegexAt (c :: tl)) as [m|] eqn:Em;
    [|now apply tokenRegexAt_total in Em].
  apply tokenRegexAt_Some in Em as [Hne _].
  assert (Hlen : 1 <= length m) by (destruct m; [congruence|cbn; lia]).
  destruct (testAllWhiteSpace m).
  - destruct i as [|i]; cbn in Hi.
    + injection Hi as <-. cbn. split; lia.
    + apply IH in Hi as [-> ->]. cbn [take map concat text].
      rewrite length_app. split; lia.
  - destruct (idMap !! m).
    + destruct i as [|i]; cbn in Hi.
      * injection Hi as <-. cbn. split; lia.
      * apply IH in Hi as [-> ->]. cbn [take map concat text].
        rewrite length_app. split; lia.
    + destruct i as [|i]; cbn in Hi.
      * injection Hi as <-. cbn. split; lia.
      * apply IH in Hi as [-> ->]. cbn [take map concat text].
        rewrite length_app. split; lia.
Qed.

(** X3: identifiers count up from 1 in the order in which the texts
    first appear: before a token with id [b], every id from 1 to [b - 1] has
    been given to an earlier token. *)
Theorem simpleTokenize_ids_count_up (input : jsstring) (j : nat) (t : Token)
    (b b' : nat) :
  simpleTokenize input !! j = Some t -> id t = Some b -> 1 <= b' < b ->
  exists i' t', i' < j /\ simpleTokenize input !! i' = Some t' /\ id t' = Some b'.
Proof.
  unfold simpleTokenize. destruct (isEmpty input); [discriminate|].
  intros Hj Hb Hb'. eapply tokenizeFrom_counts_up; eauto using idMapOk_empty.
Qed.

Lemma simpleTokenize_ids_count_up_witness :
  exists i' t', i' < 2
    /\ simpleTokenize sample_text !! i' = Some t' /\ id t' = Some 1.
Proof.
  apply (simpleTokenize_ids_count_up sample_text 2
           {| id := Some 2; text := str "b"; start := 2; end_ := 3 |} 2 1).
  - vm_compute. reflexivity.
  - reflexivity.
  - lia.
Defined.

(** Where a token lies in the input. *)
Lemma simpleTokenize_tiles (input : jsstring) (i : nat) (t : Token) :
  simpleTokenize input !! i = Some t ->
  start t = length (concat (map text (take i (simpleTokenize input))))
  /\ end_ t = start t + length (text t)
  /\ slice (start t) (end_ t) input = text t.
Proof.
  intros Hi.
  assert (Hcat : concat (map text (simpleTokenize input)) = input).
  { unfold simpleTokenize. destruct input as [|c tl]; [reflexivity|].
    cbn [isEmpty]. apply (tokenizeFrom_concat (c :: tl) 0). lia. }
  assert (Hoff : start t = length (concat (map text (take i (simpleTokenize input))))
                 /\ end_ t = start t + length (text t)).
  { revert Hi. unfold simpleTokenize. destruct (isEmpty input); [discriminate|].
    intros Hi. apply tokenizeFrom_offsets in Hi as [-> ->]. split; lia. }
  destruct Hoff as [Hs He]. split; [exact Hs|]. split; [exact He|].
  unfold slice. rewrite He, Hs.
  set (L := simpleTokenize input) in *.
  rewrite <- (take_drop_middle _ _ _ Hi), map_app, concat_app in Hcat.
  cbn [map concat] in Hcat.
  rewrite <- Hcat. rewrite drop_app_length.
  replace (_ + length (text t) - _) with (length (text t)) by lia.
  now rewrite take_app_length.
Qed.

(** X4: the tokens tile the input: a token starts where the texts before
    it end, [end] is [start] plus the length of its text, and its text is
    the slice of the input between the two. *)
Theorem simpleTokenize_offsets (input : jsstring) (i : nat) (t : Token) :
  simpleTokenize input !! i = Some t ->
  start t = length (concat (map text (take i (simpleTokenize input))))
  /\ end_ t = start t + length (text t)
  /\ slice (start t) (end_ t) input = text t.
Proof. apply simpleTokenize_tiles. Qed.

Lemma simpleTokenize_offsets_witness :
  let t := {| id := Some 2; text := str "b"; start := 2; end_ := 3 |} in
  simpleTokenize sample_text !! 2 = Some t
  /\ slice (start t) (end_ t) sample_text = text t.
Proof.
  cbv zeta. split; [vm_compute; reflexivity|].
  apply (simpleTokenize_offsets sample_text 2). vm_compute. reflexivity.
Defined.

(** ** The tokens are longest runs *)

Lemma classEqb_true a b : classEqb a b = true <-> a = b.
Proof. destruct a, b; cbn; split; congruence. Qed.

Lemma takeWhile_ext p q s :
  (forall c, p c = q c) -> takeWhile p s = takeWhile q s.
Proof.
  intros H. induction s as [|c tl IH]; [reflexivity|].
  cbn [takeWhile]. now rewrite H, IH.
Qed.

Lemma takeWhile_all p s : forallb p (takeWhile p s) = true.
Proof.
  induction s as [|c tl IH]; [reflexivity|]. cbn [takeWhile].
  destruct (p c) eqn:E; [|reflexivity]. cbn [forallb]. now rewrite E.
Qed.

Lemma takeWhile_next p s d rest :
  drop (length (takeWhile p s)) s = d :: rest -> p d = false.
Proof.
  induction s as [|c tl IH]; [discriminate|]. cbn [takeWhile].
  destruct (p c) eqn:E.
  - cbn [length drop]. exact IH.
  - cbn [length drop]. now intros [= <- _].
Qed.

Lemma word_not_space c : isTokenWordChar c = true -> isWhiteSpace c = false.
Proof.
  unfold isTokenWordChar, isWhiteSpace, isUpper, isLower, isDigit, inRange.
  rewrite !orb_true_iff, !andb_true_iff, !N.leb_le, !N.eqb_eq.
  intros H. rewrite !orb_false_iff, !andb_false_iff, !N.leb_gt, !N.eqb_neq. lia.
Qed.

(** At a character the pattern matches the longest run of characters
    of its class. *)
Lemma tokenRegexAt_run c tl :
  tokenRegexAt (c :: tl) = Some (takeWhile (sameClass c) (c :: tl)).
Proof.
  assert (Hrefl : sameClass c c = true) by (now apply classEqb_true).
  unfold tokenRegexAt, plusClass. cbn [takeWhile]. rewrite Hrefl.
  unfold sameClass, charClass.
  destruct (isWhiteSpace c) eqn:Hs.
  { f_equal. f_equal. apply takeWhile_ext. intros d.
    destruct (isWhiteSpace d); [reflexivity|]. now destruct (isTokenWordChar d). }
  destruct (isTokenWordChar c) eqn:Hw.
  { f_equal. f_equal. apply takeWhile_ext. intros d.
    destruct (isTokenWordChar d) eqn:Hd.
    - now rewrite (word_not_space d Hd).
    - now destruct (isWhiteSpace d). }
  unfold isTokenOtherChar. rewrite Hs, Hw. cbn [orb negb].
  f_equal. f_equal. apply takeWhile_ext. intros d.
  destruct (isWhiteSpace d); [reflexivity|].
  now destruct (isTokenWordChar d).
Qed.

(** The first token of the loop, and the classes of two tokens in a
    row. *)
Lemma tokenizeFrom_runs s :
  forall skip pos idMap nextId,
    (forall t, tokenizeFrom skip pos s idMap nextId !! 0 = Some t ->
       exists c rest, drop skip s = c :: rest
                      /\ text t = takeWhile (sameClass c) (c :: rest))
    /\ (forall i t1 t2,
          tokenizeFrom skip pos s idMap nextId !! i = Some t1 ->
          tokenizeFrom skip pos s idMap nextId !! S i = Some t2 ->
          exists c1 c2,
            forallb (sameClass c1) (text t1) = true
            /\ forallb (sameClass c2) (text t2) = true
            /\ charClass c1 <> charClass c2).
Proof.
  induction s as [|c tl IH]; intros skip pos idMap nextId.
  { split; intros *; cbn; discriminate. }
  cbn [tokenizeFrom]. destruct skip as [|k]; [|apply IH].
  rewrite tokenRegexAt_run.
  set (m := takeWhile (sameClass c) (c :: tl)).
  assert (Hstep : forall idMap' nextId' tok,
            text tok = m ->
            (forall t, (tok :: tokenizeFrom (length m - 1) (S pos) tl idMap' nextId')
                         !! 0 = Some t ->
               exists c0 rest, drop 0 (c :: tl) = c0 :: rest
                               /\ text t = takeWhile (sameClass c0) (c0 :: rest))
            /\ (forall i t1 t2,
                  (tok :: tokenizeFrom (length m - 1) (S pos) tl idMap' nextId')
                    !! i = Some t1 ->
                  (tok :: tokenizeFrom (length m - 1) (S pos) tl idMap' nextId')
                    !! S i = Some t2 ->
                  exists c1 c2,
                    forallb (sameClass c1) (text t1) = true
                    /\ forallb (sameClass c2) (text t2) = true
                    /\ charClass c1 <> charClass c2)).
  { intros idMap' nextId' tok Htok.
    destruct (IH (length m - 1) (S pos) idMap' nextId') as [IHa IHb].
    split.
    - intros t [= <-]. exists c, tl. split; [reflexivity|exact Htok].
    - intros [|i] t1 t2 H1 H2; [|eapply IHb; eassumption].
      injection H1 as <-. cbn [lookup list_lookup] in H2.
      change ((tokenizeFrom (length m - 1) (S pos) tl idMap' nextId') !! 0 = Some t2)
        in H2.
      destruct (IHa t2 H2) as (c2 & rest & Hdrop & Ht2).
      exists c, c2. rewrite Htok, Ht2. split; [apply takeWhile_all|].
      split; [apply takeWhile_all|].
      assert (Hnext : drop (length m) (c :: tl) = c2 :: rest).
      { assert (Hrefl : sameClass c c = true) by (now apply classEqb_true).
        subst m. cbn [takeWhile] in *. rewrite Hrefl in *. cbn [length] in *.
        replace (S (length (takeWhile (sameClass c) tl)) - 1)
          with (length (takeWhile (sameClass c) tl)) in Hdrop by lia.
        exact Hdrop. }
      apply takeWhile_next in Hnext. intros Heq.
      assert (sameClass c c2 = true) by (apply classEqb_true; congruence).
      congruence. }
  destruct (testAllWhiteSpace m); [now apply Hstep|].
  destruct (idMap !! m); now apply Hstep.
Qed.

(** The text of a token is not empty and of one class. *)
Lemma tokenizeFrom_one_class s :
  forall skip pos idMap nextId i t,
    tokenizeFrom skip pos s idMap nextId !! i = Some t ->
    exists c tl, text t = c :: tl /\ forallb (sameClass c) (text t) = true.
Proof.
  induction s as [|c tl IH]; intros skip pos idMap nextId i t Hi.
  { cbn in Hi. discriminate. }
  cbn [tokenizeFrom] in Hi. destruct skip as [|k]; [|eapply IH, Hi].
  rewrite tokenRegexAt_run in Hi.
  set (m := takeWhile (sameClass c) (c :: tl)) in *.
  assert (Hm : exists c0 tl0, m = c0 :: tl0 /\ forallb (sameClass c0) m = true).
  { assert (Hrefl : sameClass c c = true) by (now apply classEqb_true).
    exists c, (takeWhile (sameClass c) tl). split.
    - subst m. cbn [takeWhile]. now rewrite Hrefl.
    - apply takeWhile_all. }
  destruct (testAllWhiteSpace m).
  - destruct i as [|i]; cbn in Hi; [injection Hi as <-; exact Hm|eapply IH, Hi].
  - destruct (idMap !! m);
      (destruct i as [|i]; cbn in Hi; [injection Hi as <-; exact Hm|eapply IH, Hi]).
Qed.

Lemma sameClass_all c (s : jsstring) :
  forallb (sameClass c) s = true <-> Forall (fun d => charClass d = charClass c) s.
Proof.
  rewrite forallb_forall, List.Forall_forall. unfold sameClass.
  split; intros H d Hd; apply classEqb_true, H, Hd.
Qed.

(** The characters of a token are those of the input from its start. *)
Lemma slice_lookup a b (s txt : jsstring) k :
  slice a b s = txt -> k < length txt -> s !! (a + k) = txt !! k.
Proof.
  unfold slice. intros <- Hk. rewrite length_take in Hk.
  rewrite lookup_take_lt by lia. now rewrite lookup_drop.
Qed.

(** X5: every token is a longest run of characters of one class of the
    pattern: its text is not empty, it is the slice of the input from
    [start] to [end], its characters are of one class, and the character
    of the input before it and the one after it, where there is one, are
    of another class. *)
Theorem simpleTokenize_maximal_runs (input : jsstring) (i : nat) (t : Token) :
  simpleTokenize input !! i = Some t ->
  exists c,
    text t <> []
    /\ slice (start t) (end_ t) input = text t
    /\ Forall (fun d => charClass d = charClass c) (text t)
    /\ (forall j d, S j = start t -> input !! j = Some d ->
          charClass d <> charClass c)
    /\ (forall d, input !! end_ t = Some d -> charClass d <> charClass c).
Proof.
  intros Hi.
  destruct (simpleTokenize_tiles input i t Hi) as (Hs & He & Hsl).
  assert (Hruns : forall k t1 t2,
            simpleTokenize input !! k = Some t1 ->
            simpleTokenize input !! S k = Some t2 ->
            exists c1 c2,
              forallb (sameClass c1) (text t1) = true
              /\ forallb (sameClass c2) (text t2) = true
              /\ charClass c1 <> charClass c2).
  { unfold simpleTokenize. destruct (isEmpty input); [discriminate|].
    apply (proj2 (tokenizeFrom_runs input 0 0 ∅ 1)). }
  assert (Hone : forall k t',
            simpleTokenize input !! k = Some t' ->
            exists c tl, text t' = c :: tl
                         /\ forallb (sameClass c) (text t') = true).
  { unfold simpleTokenize. destruct (isEmpty input); [discriminate|].
    apply tokenizeFrom_one_class. }
  destruct (Hone i t Hi) as (c & tl & Et & Hall).
  assert (Hc : forall c', forallb (sameClass c') (text t) = true ->
                          charClass c' = charClass c).
  { intros c' H. rewrite Et in H. cbn [forallb] in H.
    apply andb_prop in H as [H _]. apply classEqb_true in H. congruence. }
  exists c. split; [rewrite Et; discriminate|]. split; [exact Hsl|].
  split; [now apply sameClass_all|]. split.
  - intros j d Hj Hd. destruct i as [|i'].
    { rewrite Hs in Hj. cbn in Hj. discriminate. }
    assert (Hlt : i' < length (simpleTokenize input)).
    { apply lookup_lt_Some in Hi. lia. }
    destruct (lookup_lt_is_Some_2 _ _ Hlt) as [t1 H1].
    destruct (simpleTokenize_tiles input i' t1 H1) as (Hs1 & He1 & Hsl1).
    destruct (Hone i' t1 H1) as (c1 & tl1 & Et1 & _).
    assert (Hend : end_ t1 = start t).
    { rewrite Hs, He1, Hs1. rewrite (take_S_r _ _ _ H1).
      rewrite map_app, concat_app, length_app. cbn [map concat].
      rewrite app_nil_r. reflexivity. }
    destruct (Hruns i' t1 t H1 Hi) as (k1 & k2 & Ha & Hb & Hne).
    assert (Hlen : 1 <= length (text t1)) by (rewrite Et1; cbn; lia).
    pose proof (slice_lookup (start t1) (end_ t1) input (text t1)
                  (length (text t1) - 1) Hsl1 ltac:(lia)) as Hlk.
    replace (start t1 + (length (text t1) - 1)) with j in Hlk by lia.
    rewrite Hd in Hlk. symmetry in Hlk. apply list_elem_of_lookup_2 in Hlk.
    apply sameClass_all in Ha. rewrite List.Forall_forall in Ha.
    apply list_elem_of_In in Hlk. rewrite (Ha d Hlk), <- (Hc k2 Hb).
    exact Hne.
  - intros d Hd.
    destruct (simpleTokenize input !! S i) as [t2|] eqn:H2.
    + destruct (simpleTokenize_tiles input (S i) t2 H2) as (Hs2 & He2 & Hsl2).
      destruct (Hone (S i) t2 H2) as (c2 & tl2 & Et2 & _).
      assert (Hstart : start t2 = end_ t).
      { rewrite Hs2, He, Hs. rewrite (take_S_r _ _ _ Hi).
        rewrite map_app, concat_app, length_app. cbn [map concat].
        rewrite app_nil_r. reflexivity. }
      destruct (Hruns i t t2 Hi H2) as (k1 & k2 & Ha & Hb & Hne).
      pose proof (slice_lookup (start t2) (end_ t2) input (text t2) 0 Hsl2
                    ltac:(rewrite Et2; cbn; lia)) as Hlk.
      rewrite Nat.add_0_r, Hstart, Hd in Hlk. symmetry in Hlk.
      apply list_elem_of_lookup_2 in Hlk.
      apply sameClass_all in Hb. rewrite List.Forall_forall in Hb.
      apply list_elem_of_In in Hlk. rewrite (Hb d Hlk), <- (Hc k1 Ha).
      intros Heq. now apply Hne.
    + apply lookup_ge_None in H2. apply lookup_lt_Some in Hd.
      assert (Hcat : concat (map text (simpleTokenize input)) = input).
      { unfold simpleTokenize. destruct input as [|c0 tl0]; [reflexivity|].
        cbn [isEmpty]. apply (tokenizeFrom_concat (c0 :: tl0) 0). lia. }
      assert (Hwhole : take (S i) (simpleTokenize input) = simpleTokenize input)
        by (apply take_ge; lia).
      rewrite (take_S_r _ _ _ Hi) in Hwhole.
      assert (Hlen : length (concat (map text (take i (simpleTokenize input) ++ [t])))
                     = length input) by (now rewrite Hwhole, Hcat).
      rewrite map_app, concat_app, length_app in Hlen.
      cbn [map concat] in Hlen. rewrite app_nil_r in Hlen. lia.
Qed.

Lemma simpleTokenize_maximal_runs_witness :
  let t := {| id := Some 2; text := str "b"; start := 2; end_ := 3 |} in
  exists c,
    text t <> []
    /\ slice (start t) (end_ t) sample_text = text t
    /\ Forall (fun d => charClass d = charClass c) (text t)
    /\ (forall j d, S j = start t -> sample_text !! j = Some d ->
          charClass d <> charClass c)
    /\ (forall d, sample_text !! end_ t = Some d -> charClass d <> charClass c).
Proof.
  cbv zeta. apply (simpleTokenize_maximal_runs sample_text 2).
  vm_compute. reflexivity.
Defined.

(** ** Highlighting *)

Lemma digits_inj a b : digits a = digits b -> a = b.
Proof.
  intros H. rewrite <- (digitsValue_digits a), <- (digitsValue_digits b).
  now rewrite H.
Qed.

Lemma hue_residue a : ((a * 47) mod 360 * 23) mod 360 = a mod 360.
Proof.
  rewrite Nat.Div0.mul_mod_idemp_l.
  replace (a * 47 * 23) with (a + (3 * a) * 360) by lia.
  apply Nat.Div0.mod_add.
Qed.

(** A product that is at most [2^53] is exact. *)
Lemma multiply_exact a b :
  (Z.of_N a * Z.of_N b <= 2 ^ 53)%Z ->
  multiply a b = Finite (Z.of_N a * Z.of_N b).
Proof.
  intros H. unfold multiply.
  assert (Hn : (a * b <= 2 ^ 53)%N).
  { apply N2Z.inj_le. rewrite N2Z.inj_mul. exact H. }
  pose proof (classify_integer false (a * b) Hn) as Hc.
  unfold classify in Hc. injection Hc as Hc.
  change (Z.to_N 0) with 0%N in Hc. rewrite N.pow_0_r, N.mul_1_r in Hc.
  rewrite N2Z.inj_mul in Hc. exact Hc.
Qed.

Lemma hueOf_exact (n : nat) :
  (Z.of_nat n * 47 <= 2 ^ 53)%Z ->
  hueOf (N.of_nat n) = Some (Z.of_nat ((n * 47) mod 360)).
Proof.
  intros H. unfold hueOf. rewrite multiply_exact by (rewrite nat_N_Z; exact H).
  cbn [remainder360]. rewrite nat_N_Z. f_equal.
  rewrite Nat2Z.inj_mod, Nat2Z.inj_mul. reflexivity.
Qed.

(** Beyond [2^53] the product is rounded: the ids [2^53 + 2] and [34]
    differ by a multiple of 360 and get different hues. *)
Lemma hueOf_rounded :
  hueOf (2 ^ 53 + 2) = Some 128%Z /\ hueOf 34 = Some 158%Z
  /\ ((2 ^ 53 + 2) mod 360 = 34 mod 360)%N.
Proof. vm_compute. repeat split. Qed.

(** X6: two non-zero ids whose products with 47 are at most [2^53] get
    the same colour exactly when they differ by a multiple of 360. *)
Theorem colorForTokenId_same_colour_iff (a b : nat) :
  1 <= a -> 1 <= b ->
  (Z.of_nat a * 47 <= 2 ^ 53)%Z -> (Z.of_nat b * 47 <= 2 ^ 53)%Z ->
  (colorForTokenId (Some a) = colorForTokenId (Some b)
   <-> a mod 360 = b mod 360).
Proof.
  intros Ha Hb Ha' Hb'. unfold colorForTokenId.
  destruct a as [|a]; [lia|]. destruct b as [|b]; [lia|].
  cbn [falsyId numberOf]. cbv zeta.
  rewrite !hueOf_exact by assumption. rewrite <- !nat_N_Z, !N2Z.id. split.
  - intros H. apply app_inv_head, app_inv_tail, digits_inj, Nat2N.inj in H.
    now rewrite <- (hue_residue (S a)), <- (hue_residue (S b)), H.
  - intros H.
    rewrite <- (Nat.Div0.mul_mod_idemp_l (S a)), <- (Nat.Div0.mul_mod_idemp_l (S b)).
    now rewrite H.
Qed.

Lemma colorForTokenId_same_colour_iff_witness :
  colorForTokenId (Some 1) = colorForTokenId (Some 361)
  <-> 1 mod 360 = 361 mod 360.
Proof. apply colorForTokenId_same_colour_iff; lia. Defined.

(** X7: [RenderHighlighted] on the tokens of [simpleTokenize] shows the
    input text, span by span, and gives a background colour to exactly
    the spans that are not white space. *)
Theorem RenderHighlighted_simpleTokenize (input : jsstring) :
  concat (map children (RenderHighlighted (map idAndText (simpleTokenize input))))
  = input
  /\ Forall (fun sp =>
               match backgroundColor sp with
               | None => forallb isWhiteSpace (children sp) = true
               | Some colour =>
                   forallb isWhiteSpace (children sp) = false
                   /\ colour <> str "transparent"
               end)
            (RenderHighlighted (map idAndText (simpleTokenize input))).
Proof.
  split.
  - unfold RenderHighlighted. rewrite !map_map.
    rewrite (map_ext _ text).
    2:{ intros t. cbn. now destruct (negb (falsyId (id t))). }
    unfold simpleTokenize. destruct input as [|c tl]; [reflexivity|].
    cbn [isEmpty]. apply (tokenizeFrom_concat (c :: tl) 0). lia.
  - unfold RenderHighlighted. rewrite map_map. apply Forall_map.
    eapply Forall_impl; [apply simpleTokenize_ids|].
    cbn beta. intros t [_ Hid]. unfold idAndText. cbn [fst snd].
    destruct (id t) as [[|n]|]; cbn [falsyId negb backgroundColor children].
    + lia.
    + split; [apply Hid|]. unfold colorForTokenId. cbn [falsyId]. cbv zeta.
      destruct (hueOf _); discriminate.
    + exact Hid.
Qed.

(** ** The token counts of a render *)

(** The test of the trimmed text in [toonTokenCount] adds no token. *)
Lemma toonTokenCount_ids (toon : jsstring) :
  toonTokenCount toon
  = length (List.filter (fun t => bool_decide (id t <> None)) (simpleTokenize toon)).
Proof.
  unfold toonTokenCount. destruct (isEmpty toon) eqn:E.
  { destruct toon; [reflexivity|discriminate]. }
  f_equal. pose proof (simpleTokenize_ids toon) as Hall.
  induction Hall as [|t l [Hne Hid] _ IH]; [reflexivity|].
  cbn [List.filter]. rewrite IH.
  destruct (id t) as [[|n]|].
  - lia.
  - reflexivity.
  - cbn [falsyId negb orb]. now rewrite (trim_blank _ Hid).
Qed.

(** X8: [toonTokenCount] is the number of tokens of [simpleTokenize] with
    a non-null id, that is, of those that are not white space: the test of
    the trimmed text adds no token. *)
Theorem toonTokenCount_counts_ids (toon : jsstring) :
  toonTokenCount toon
  = length (List.filter (fun t => bool_decide (id t <> None)) (simpleTokenize toon))
  /\ toonTokenCount toon
     = length (List.filter (fun t => negb (forallb isWhiteSpace (text t)))
                 (simpleTokenize toon)).
Proof.
  split; [apply toonTokenCount_ids|]. rewrite toonTokenCount_ids. f_equal.
  pose proof (simpleTokenize_ids toon) as Hall.
  induction Hall as [|t l [_ Hid] _ IH]; [reflexivity|].
  cbn [List.filter]. rewrite IH. destruct (id t) as [n|].
  - destruct Hid as [-> _]. now rewrite bool_decide_eq_true_2.
  - rewrite Hid. now rewrite bool_decide_eq_false_2 by tauto.
Qed.

Lemma length_filter_map {A B} (f : A -> B) (p : B -> bool) (l : list A) :
  length (List.filter p (map f l)) = length (List.filter (fun x => p (f x)) l).
Proof.
  induction l as [|x l IH]; [reflexivity|].
  cbn [map List.filter]. destruct (p (f x)); cbn [length]; now rewrite IH.
Qed.

Lemma length_omap_ofExact (exact : list ExactToken) :
  length (omap Home.shownId (map Home.ofExact exact)) = length exact.
Proof.
  induction exact as [|t l IH]; [reflexivity|]. cbn. now rewrite IH.
Qed.

Lemma ids_of_simpleTokenize (s : jsstring) :
  length (List.filter (fun t => negb (falsyId (Home.shownId t)))
            (map Home.ofToken (simpleTokenize s)))
  = length (omap Home.shownId (map Home.ofToken (simpleTokenize s))).
Proof.
  pose proof (simpleTokenize_ids s) as Hall.
  induction Hall as [|t l [_ Hid] _ IH]; [reflexivity|].
  cbn [map List.filter omap list_omap Home.ofToken Home.shownId].
  destruct (id t) as [[|n]|]; cbn [falsyId negb length].
  - lia.
  - now rewrite IH.
  - exact IH.
Qed.

(** X9: with the token view on, the token count shown for the pretty,
    minified and YAML outputs is the number of ids [getTokenIdsFor] gives,
    whether the tokens are the exact ones or those of [simpleTokenize]. *)
Theorem tokenCount_is_number_of_ids (v : Home.View) (kind : Kind) :
  Home.showTokens v = true -> kind <> Toon ->
  Home.tokenCount v kind = length (Home.getTokenIdsFor v kind).
Proof.
  intros Hshow Hkind.
  unfold Home.tokenCount, Home.getTokenIdsFor, Home.tokensFor. rewrite Hshow.
  cbn [andb].
  destruct (strEq (Home.tokenizationModel v) (str "cl100k_base")).
  - destruct (Home.exactFor v kind) as [exact|].
    + rewrite length_omap_ofExact.
      destruct exact as [|t l]; [|reflexivity].
      destruct kind; try congruence; reflexivity.
    + destruct kind; try congruence; apply ids_of_simpleTokenize.
  - destruct kind; try congruence; apply ids_of_simpleTokenize.
Qed.

Lemma tokenCount_is_number_of_ids_witness :
  Home.tokenCount (sample_view true) Pretty = 4.
Proof.
  rewrite (tokenCount_is_number_of_ids (sample_view true) Pretty);
    [reflexivity|reflexivity|discriminate].
Defined.



(** ** Bytes and the approximate count *)

Lemma utf8OfCodePoint_length cp :
  1 <= length (utf8OfCodePoint cp)
  /\ ((cp < 65536)%N -> length (utf8OfCodePoint cp) <= 3)
  /\ length (utf8OfCodePoint cp) <= 4.
Proof.
  unfold utf8OfCodePoint.
  destruct (N.ltb_spec cp 128); [cbn; lia|].
  destruct (N.ltb_spec cp 2048); [cbn; lia|].
  destruct (N.ltb_spec cp 65536); cbn; lia.
Qed.

Lemma utf8OfCodePoint_astral cp :
  (65536 <= cp)%N -> length (utf8OfCodePoint cp) = 4.
Proof.
  intros H. unfold utf8OfCodePoint.
  destruct (N.ltb_spec cp 128); [lia|].
  destruct (N.ltb_spec cp 2048); [lia|].
  destruct (N.ltb_spec cp 65536); [lia|reflexivity].
Qed.

(** The UTF-8 encoding has at least one byte per code unit and, of a
    sequence of code units, at most three. *)
Lemma TextEncoder_encode_length n :
  forall s, length s <= n ->
    length s <= length (TextEncoder_encode s)
    /\ (codeUnits s -> length (TextEncoder_encode s) <= 3 * length s).
Proof.
  induction n as [|n IH]; intros s Hn.
  { destruct s; [cbn; lia|cbn in Hn; lia]. }
  destruct s as [|c tl]; [cbn; lia|].
  cbn [length] in Hn.
  pose proof (utf8OfCodePoint_length c) as (Hc1 & Hc3 & _).
  pose proof (utf8OfCodePoint_length 0xFFFD) as (Hr1 & Hr3 & _).
  specialize (Hr3 ltac:(lia)).
  destruct (IH tl ltac:(lia)) as [Hlo Hhi].
  cbn [TextEncoder_encode].
  destruct (isHighSurrogate c).
  - destruct tl as [|d tl'].
    + cbn [length]. split; [lia|]. intros _. lia.
    + destruct (isLowSurrogate d).
      * cbn [length] in *. destruct (IH tl' ltac:(lia)) as [Hlo' Hhi'].
        match goal with |- context [utf8OfCodePoint ?cp] =>
          pose proof (utf8OfCodePoint_astral cp ltac:(lia)) as Hp4 end.
        rewrite length_app. split; [lia|].
        intros Hcu. apply Forall_cons in Hcu as [_ Hcu].
        apply Forall_cons in Hcu as [_ Hcu]. specialize (Hhi' Hcu). lia.
      * rewrite length_app. split; [cbn [length] in *; lia|].
        intros Hcu. apply Forall_cons in Hcu as [_ Hcu]. specialize (Hhi Hcu).
        cbn [length] in *. lia.
  - destruct (isLowSurrogate c); rewrite length_app; cbn [length].
    + split; [lia|]. intros Hcu. apply Forall_cons in Hcu as [_ Hcu].
      specialize (Hhi Hcu). lia.
    + split; [lia|]. intros Hcu. apply Forall_cons in Hcu as [Hc Hcu].
      specialize (Hhi Hcu). specialize (Hc3 Hc). lia.
Qed.

(** X11: the byte count [calculateCounts] gives is never below the
    character count, and never above three times it, in the browser and
    on the server alike. *)
Theorem calculateCounts_bytes_bounds (env : Env) (value : jsstring) :
  codeUnits value ->
  chars (calculateCounts env value) <= bytes (calculateCounts env value)
  /\ bytes (calculateCounts env value) <= 3 * chars (calculateCounts env value).
Proof.
  intros Hcu. unfold calculateCounts.
  destruct (isEmpty value); [cbn; lia|].
  destruct (windowDefined env); cbn [negb chars bytes]; [|lia].
  destruct (TextEncoder_encode_length (length value) value (le_n _)) as [Hlo Hhi].
  split; [exact Hlo|exact (Hhi Hcu)].
Qed.

Lemma calculateCounts_bytes_bounds_witness :
  chars (calculateCounts browser e_acute) <= bytes (calculateCounts browser e_acute)
  /\ bytes (calculateCounts browser e_acute)
     <= 3 * chars (calculateCounts browser e_acute).
Proof.
  apply (calculateCounts_bytes_bounds browser e_acute).
  repeat constructor.
Defined.

(** X12: the approximate token count is the ceiling of a quarter of the
    byte count [calculateCounts] gives for the same text in the same
    environment; the floor of 1 never takes effect. *)
Theorem approximateTokens_quarter_of_bytes (env : Env) (text : jsstring) :
  approximateTokensFromText env text
  = Math_ceil_div (bytes (calculateCounts env text)) 4.
Proof.
  unfold approximateTokensFromText, calculateCounts.
  destruct text as [|c tl]; [reflexivity|]. cbn [isEmpty bytes].
  set (n := if negb (windowDefined env) then length (c :: tl)
            else length (TextEncoder_encode (c :: tl))).
  assert (Hn : 1 <= n).
  { subst n. destruct (windowDefined env); cbn [negb]; [|cbn [length]; lia].
    destruct (TextEncoder_encode_length _ (c :: tl) (le_n _)) as [Hlo _].
    cbn [length] in Hlo. lia. }
  destruct (Math_ceil_div_ceiling n 4 ltac:(lia)) as [Hle _]. lia.
Qed.

(** ** The hex format *)

Lemma join_nil_cons (p : jsstring) (rest : list jsstring) :
  join [] (p :: rest) = p ++ join [] rest.
Proof. destruct rest; [now rewrite app_nil_r|reflexivity]. Qed.

(** A code unit below 256 is written as its two hexadecimal digits. *)
Lemma padStart_toString16_byte c :
  (c < 256)%N ->
  padStart 2 48 (toString16 c) = [hexDigit (c / 16); hexDigit (c mod 16)].
Proof.
  intros Hc.
  assert (Hall : forallb (fun n =>
            bool_decide (padStart 2 48 (toString16 (N.of_nat n))
                         = [hexDigit (N.of_nat n / 16); hexDigit (N.of_nat n mod 16)]))
            (seq 0 256) = true) by (vm_compute; reflexivity).
  rewrite forallb_forall in Hall.
  specialize (Hall (N.to_nat c)). rewrite N2Nat.id in Hall.
  apply bool_decide_eq_true in Hall; [exact Hall|].
  apply in_seq. lia.
Qed.

Lemma Array_from_latin1 s :
  isLatin1 s = true -> Array_from s = map (fun c => [c]) s.
Proof.
  induction s as [|c tl IH]; [reflexivity|].
  cbn [isLatin1 forallb]. intros [Hc Htl]%andb_prop. apply N.ltb_lt in Hc.
  cbn [Array_from map]. rewrite <- (IH Htl).
  assert (isHighSurrogate c = false) as ->
    by (unfold isHighSurrogate, inRange; apply andb_false_iff; left; apply N.leb_gt; lia).
  cbn [andb]. now destruct tl.
Qed.

(** X13: the hex format writes a string of code units below 256 as two
    hexadecimal digits per character, and reading the digits back pair by
    pair gives the string again. *)
Theorem encodeWithFormat_hex_latin1 encodeURIComponent platformBase64
    (env : Env) (input : jsstring) :
  isLatin1 input = true ->
  exists hex,
    encodeWithFormat encodeURIComponent platformBase64 env input Hex = Returned hex
    /\ length hex = 2 * length input
    /\ decodeHexPairs hex = Some input.
Proof.
  intros Hl. eexists. split; [reflexivity|].
  rewrite (Array_from_latin1 _ Hl), map_map. cbn [charCodeAt0 hd].
  induction input as [|c tl IH]; [split; reflexivity|].
  cbn [isLatin1 forallb] in Hl. apply andb_prop in Hl as [Hc Htl].
  apply N.ltb_lt in Hc. destruct (IH Htl) as [IHlen IHdec].
  cbn [map]. rewrite join_nil_cons, (padStart_toString16_byte c Hc).
  cbn [app length decodeHexPairs]. split; [lia|].
  rewrite !hexValue_hexDigit, IHdec.
  - f_equal. f_equal. pose proof (N.div_mod c 16 ltac:(lia)). lia.
  - apply N.mod_lt. lia.
  - apply N.Div0.div_lt_upper_bound. lia.
Qed.

Lemma encodeWithFormat_hex_latin1_witness :
  exists hex,
    encodeWithFormat (fun _ => Threw None) (fun _ _ => Threw None)
      browser e_acute Hex = Returned hex
    /\ length hex = 2 * length e_acute
    /\ decodeHexPairs hex = Some e_acute.
Proof. apply encodeWithFormat_hex_latin1. reflexivity. Defined.

(** X14: of a surrogate pair the hex format writes the high surrogate
    only, so that two strings that differ in a low surrogate are written
    alike. *)
Theorem encodeWithFormat_hex_drops_low_surrogate encodeURIComponent
    platformBase64 (env : Env) (h l1 l2 : N) (rest : jsstring) :
  isHighSurrogate h = true -> isLowSurrogate l1 = true ->
  isLowSurrogate l2 = true ->
  encodeWithFormat encodeURIComponent platformBase64 env (h :: l1 :: rest) Hex
  = encodeWithFormat encodeURIComponent platformBase64 env (h :: l2 :: rest) Hex.
Proof.
  intros Hh H1 H2. cbn [encodeWithFormat Array_from].
  now rewrite Hh, H1, H2.
Qed.

Lemma encodeWithFormat_hex_drops_low_surrogate_witness :
  grinning_face <> beaming_face
  /\ encodeWithFormat (fun _ => Threw None) (fun _ _ => Threw None)
       browser grinning_face Hex
     = encodeWithFormat (fun _ => Threw None) (fun _ _ => Threw None)
         browser beaming_face Hex.
Proof.
  split; [discriminate|].
  apply encodeWithFormat_hex_drops_low_surrogate; reflexivity.
Defined.

(** ** The responses of the route *)

Lemma hasKey_none {V} (acc : list (jsstring * V)) k :
  Forall (fun a => k <> a /\ keyBefore a k) (map fst acc) -> hasKey acc k = false.
Proof.
  unfold hasKey. induction acc as [|kv tl IH]; [reflexivity|].
  cbn [map existsb]. intros [[Hne _] Htl]%Forall_cons.
  rewrite (IH Htl), orb_false_r. apply strEq_false. congruence.
Qed.

Lemma insertIndex_append {V} i k (v : V) acc :
  arrayIndex k = Some i ->
  Forall (fun a => k <> a /\ keyBefore a k) (map fst acc) ->
  insertIndex i k v acc = acc ++ [(k, v)].
Proof.
  intros Hk. induction acc as [|a tl IH]; [reflexivity|].
  cbn [map]. intros [[Hne Hbefore] Htl]%Forall_cons.
  cbn [insertIndex app]. unfold keyBefore in Hbefore. rewrite Hk in Hbefore.
  destruct (arrayIndex (fst a)) as [j|]; [|contradiction].
  assert ((i <? j)%N = false) as -> by (apply N.ltb_ge; lia).
  now rewrite (IH Htl).
Qed.

(** A key that may follow the keys an object has is added at the end. *)
Lemma objectSet_append {V} (acc : list (jsstring * V)) k (v : V) :
  Forall (fun a => k <> a /\ keyBefore a k) (map fst acc) ->
  objectSet acc k v = acc ++ [(k, v)].
Proof.
  intros H. unfold objectSet. rewrite (hasKey_none _ _ H).
  destruct (arrayIndex k) as [i|] eqn:Hk; [|reflexivity].
  now apply insertIndex_append.
Qed.

Lemma tokenizeEntries_table encodeText entries :
  forall acc,
    keysOrdered (map fst acc ++ map fst entries) ->
    ~ In (str "__proto__") (map fst entries) ->
    (forall k t, In (k, t) entries -> truthy (Some t) = true ->
                 exists tokens, encodeText t = Returned tokens) ->
    tokenizeEntries encodeText entries acc
    = Returned (acc ++ tokensOfEntries encodeText entries).
Proof.
  induction entries as [|[k t] tl IH]; intros acc Hord Hproto Henc.
  { cbn. now rewrite app_nil_r. }
  assert (Hset : forall tokens, assign acc k tokens = acc ++ [(k, tokens)]).
  { intros tokens. unfold assign.
    assert (strEq k (str "__proto__") = false) as ->.
    { apply strEq_false. intros ->. apply Hproto. now left. }
    apply objectSet_append.
    eapply Forall_impl; [exact (keysOrdered_app_inv _ _ _ Hord)|].
    cbn beta. tauto. }
  assert (Hnext : forall tokens,
            tokenizeEntries encodeText tl (acc ++ [(k, tokens)])
            = Returned ((acc ++ [(k, tokens)]) ++ tokensOfEntries encodeText tl)).
  { intros tokens. apply IH.
    - now rewrite map_app, <- app_assoc.
    - intros Hin. apply Hproto. now right.
    - intros k' t' Hin. apply (Henc k' t'). now right. }
  cbn [tokenizeEntries tokensOfEntries map fst snd].
  destruct (truthy (Some t)) eqn:Ht; cbn [negb].
  - destruct (Henc k t (or_introl eq_refl) Ht) as [tokens Htokens].
    rewrite Htokens, Hset, Hnext. cbn [returnedTokens].
    now rewrite <- app_assoc.
  - rewrite Hset, Hnext. now rewrite <- app_assoc.
Qed.

(** X15: when no call of the tokenizer throws, the route answers a request
    for the supported model with status 200 and a table that has exactly
    the keys of [texts], in their order, each with the tokens of its text;
    a falsy text gets no token and is never handed to the tokenizer. *)
Theorem POST_tokens_of_every_text encodeText (texts : value) :
  typeofObject texts = true -> texts <> JNull ->
  keysOrdered (map fst (entriesOf (Some texts))) ->
  ~ In (str "__proto__") (map fst (entriesOf (Some texts))) ->
  (forall k t, In (k, t) (entriesOf (Some texts)) -> truthy (Some t) = true ->
               exists tokens, encodeText t = Returned tokens) ->
  POST encodeText (model_request texts)
  = Responded
      {| status := 200;
         payload := TokensPayload cl100k_base
                      (tokensOfEntries encodeText (entriesOf (Some texts))) |}
      LoadedAndFreed.
Proof.
  intros Hobj Hnull Hord Hproto Henc.
  unfold POST, model_request. cbn [json].
  change (getProp _ (str "model")) with (Some (JString cl100k_base)).
  change (getProp _ (str "texts")) with (Some texts).
  assert (truthy (Some texts) = true) as ->.
  { destruct texts as [| | | | |]; try discriminate; try reflexivity. congruence. }
  cbn [typeofObjectOpt]. rewrite Hobj.
  change (truthy (Some (JString cl100k_base))) with true.
  cbn [typeofString stringOf negb orb].
  assert (strEq cl100k_base cl100k_base = true) as -> by now apply strEq_true.
  cbn [negb].
  now rewrite (tokenizeEntries_table encodeText _ [] Hord Hproto Henc).
Qed.

Lemma POST_tokens_of_every_text_witness :
  POST oneToken (model_request sample_texts)
  = Responded
      {| status := 200;
         payload := TokensPayload cl100k_base
                      [(str "pretty", [{| tokenId := 0%N; tokenText := str "hello" |}]);
                       (str "toon", [])] |}
      LoadedAndFreed.
Proof.
  apply (POST_tokens_of_every_text oneToken sample_texts).
  - reflexivity.
  - discriminate.
  - cbn. repeat split; repeat constructor; try discriminate.
  - cbn. intros [H|[H|[]]]; discriminate.
  - intros k t _ _. eexists. reflexivity.
Defined.

Lemma tokenizeEntries_throws encodeText entries :
  forall acc k t message,
    In (k, t) entries -> truthy (Some t) = true ->
    encodeText t = Threw message ->
    exists message', tokenizeEntries encodeText entries acc = Threw message'.
Proof.
  induction entries as [|[k' t'] tl IH]; intros acc k t message Hin Ht Hthrow.
  { destruct Hin. }
  cbn [tokenizeEntries].
  destruct (truthy (Some t')) eqn:Ht'; cbn [negb].
  - destruct (encodeText t') as [tokens|m] eqn:Henc; [|now eexists].
    destruct Hin as [[= -> ->]|Hin]; [congruence|]. eapply IH; eassumption.
  - destruct Hin as [[= -> ->]|Hin]; [congruence|]. eapply IH; eassumption.
Qed.

(** X16: when the tokenizer throws on one text that is not falsy, the
    route gives no tokens at all: it answers with status 500 and an error,
    after releasing the encoding. *)
Theorem POST_one_failure_fails_all encodeText (texts : value)
    (k : jsstring) (t : value) (message : option jsstring) :
  typeofObject texts = true -> texts <> JNull ->
  In (k, t) (entriesOf (Some texts)) -> truthy (Some t) = true ->
  encodeText t = Threw message ->
  exists error,
    POST encodeText (model_request texts)
    = Responded {| status := 500; payload := ErrorPayload error |} LoadedAndFreed.
Proof.
  intros Hobj Hnull Hin Ht Hthrow.
  unfold POST, model_request. cbn [json].
  change (getProp _ (str "model")) with (Some (JString cl100k_base)).
  change (getProp _ (str "texts")) with (Some texts).
  assert (truthy (Some texts) = true) as ->.
  { destruct texts as [| | | | |]; try discriminate; try reflexivity. congruence. }
  cbn [typeofObjectOpt]. rewrite Hobj.
  change (truthy (Some (JString cl100k_base))) with true.
  cbn [typeofString stringOf negb orb].
  assert (strEq cl100k_base cl100k_base = true) as -> by now apply strEq_true.
  cbn [negb].
  destruct (tokenizeEntries_throws encodeText _ [] k t message Hin Ht Hthrow)
    as [m' ->].
  now eexists.
Qed.

Lemma POST_one_failure_fails_all_witness :
  exists error,
    POST throwing (model_request sample_texts)
    = Responded {| status := 500; payload := ErrorPayload error |} LoadedAndFreed.
Proof.
  apply (POST_one_failure_fails_all throwing sample_texts
           (str "pretty") (JString (str "hello")) (Some (str "out of memory"))).
  - reflexivity.
  - discriminate.
  - cbn. now left.
  - reflexivity.
  - reflexivity.
Defined.

(** X17: whatever the request and the tokenizer, the route answers 400
    without loading the encoding, or 500 or 200 having loaded and
    released it; only a 200 carries tokens, under the supported model; and
    only a body that is [null] makes the handler throw. *)
Theorem POST_statuses encodeText (req : Request) :
  match POST encodeText req with
  | Uncaught => json req = Some JNull
  | Responded r encoding =>
      match payload r with
      | ErrorPayload _ =>
          (status r = 400 /\ encoding = NotLoaded)
          \/ (status r = 500 /\ encoding = LoadedAndFreed)
      | TokensPayload model _ =>
          status r = 200 /\ encoding = LoadedAndFreed /\ model = cl100k_base
      end
  end.
Proof.
  unfold POST, bad. destruct (json req) as [body|]; [|cbn; tauto].
  destruct body; try reflexivity;
    repeat match goal with
           | |- context [if ?c then _ else _] => destruct c eqn:?
           | |- context [match tokenizeEntries ?e ?l ?a with _ => _ end] =>
               destruct (tokenizeEntries e l a)
           end;
    cbn [payload status]; try tauto;
    (split; [reflexivity|]; split; [reflexivity|]);
    match goal with
    | H : negb (strEq _ cl100k_base) = false |- _ =>
        apply negb_false_iff, strEq_true in H; exact H
    end.
Qed.

Lemma insertIndex_keys {V} i k (v : V) acc k' :
  In k' (map fst (insertIndex i k v acc)) <-> k' = k \/ In k' (map fst acc).
Proof.
  induction acc as [|a tl IH]; cbn [insertIndex map In fst].
  - split; [intros [<-|[]]; now left|intros [->|[]]; now left].
  - destruct (arrayIndex (fst a)) as [j|].
    + destruct (i <? j)%N; cbn [map In fst]; [split; intros [<-|H]; auto|].
      rewrite IH. tauto.
    + cbn [map In fst]. split; intros [<-|H]; auto.
Qed.

Lemma setExisting_keys_any {V} (acc : list (jsstring * V)) k v :
  map fst (setExisting acc k v) = map fst acc.
Proof.
  unfold setExisting. rewrite map_map. apply map_ext_in. intros a _.
  destruct (strEq (fst a) k) eqn:E; [|reflexivity].
  apply strEq_true in E. now rewrite E.
Qed.

Lemma hasKey_In {V} (acc : list (jsstring * V)) k :
  hasKey acc k = true <-> In k (map fst acc).
Proof.
  unfold hasKey. rewrite existsb_exists, in_map_iff. split.
  - intros (a & Hin & E). apply strEq_true in E. now exists a.
  - intros (a & E & Hin). exists a. split; [exact Hin|now apply strEq_true].
Qed.

(** The own keys after a property is set. *)
Lemma objectSet_keys {V} (acc : list (jsstring * V)) k v k' :
  In k' (map fst (objectSet acc k v)) <-> k' = k \/ In k' (map fst acc).
Proof.
  unfold objectSet. destruct (hasKey acc k) eqn:Hhas.
  - rewrite setExisting_keys_any. apply hasKey_In in Hhas.
    split; [now right|]. now intros [->|H].
  - destruct (arrayIndex k) as [i|]; [apply insertIndex_keys|].
    rewrite map_app, in_app_iff. cbn. split; [intros [H|[<-|[]]]; auto|].
    intros [->|H]; auto.
Qed.

Lemma tokenizeEntries_keys encodeText entries :
  forall acc table k,
    tokenizeEntries encodeText entries acc = Returned table ->
    (In k (map fst table)
     <-> In k (map fst acc)
         \/ (In k (map fst entries) /\ k <> str "__proto__")).
Proof.
  assert (Hassign : forall acc key tokens k,
            In k (map fst (assign acc key tokens))
            <-> In k (map fst acc) \/ (k = key /\ k <> str "__proto__")).
  { intros acc key tokens k. unfold assign.
    destruct (strEq key (str "__proto__")) eqn:E.
    - apply strEq_true in E. subst key. tauto.
    - apply strEq_false in E. rewrite objectSet_keys.
      split; [intros [->|H]; auto|]. intros [H|[-> _]]; auto. }
  induction entries as [|[key t] tl IH]; intros acc table k.
  { cbn. intros [= <-]. tauto. }
  cbn [tokenizeEntries map In fst].
  destruct (negb (truthy (Some t))).
  - intros H. rewrite (IH _ _ k H), Hassign. intuition congruence.
  - destruct (encodeText t) as [tokens|m]; [|discriminate].
    intros H. rewrite (IH _ _ k H), Hassign. intuition congruence.
Qed.

(** X18: the table of a 200 response has the keys of [texts] other than
    [__proto__], no more and no fewer. *)
Theorem POST_table_keys encodeText (texts : value) (model : jsstring)
    (table : TokenTable) (encoding : EncodingUse) (k : jsstring) :
  POST encodeText (model_request texts)
  = Responded {| status := 200; payload := TokensPayload model table |} encoding ->
  (In k (map fst table)
   <-> In k (map fst (entriesOf (Some texts))) /\ k <> str "__proto__").
Proof.
  unfold POST, model_request, bad. cbn [json].
  change (getProp _ (str "model")) with (Some (JString cl100k_base)).
  change (getProp _ (str "texts")) with (Some texts).
  destruct (negb _ || negb _); [discriminate|].
  destruct (negb _ || negb _); [discriminate|].
  destruct (negb _); [discriminate|].
  destruct (tokenizeEntries _ _ _) as [resultTokens|m] eqn:E; [|discriminate].
  intros [= _ <-]. rewrite (tokenizeEntries_keys _ _ _ _ k E). cbn. tauto.
Qed.

Lemma POST_table_keys_witness :
  POST oneToken (model_request proto_texts)
  = Responded
      {| status := 200;
         payload := TokensPayload cl100k_base
                      [(str "yaml", [{| tokenId := 0%N; tokenText := str "y" |}])] |}
      LoadedAndFreed
  /\ (In (str "__proto__") (map fst [(str "yaml", [{| tokenId := 0%N; tokenText := str "y" |}])])
      <-> In (str "__proto__") (map fst (entriesOf (Some proto_texts)))
          /\ str "__proto__" <> str "__proto__").
Proof.
  assert (H : POST oneToken (model_request proto_texts)
    = Responded
      {| status := 200;
         payload := TokensPayload cl100k_base
                      [(str "yaml", [{| tokenId := 0%N; tokenText := str "y" |}])] |}
      LoadedAndFreed) by (vm_compute; reflexivity).
  split; [exact H|].
  exact (POST_table_keys oneToken proto_texts _ _ _ (str "__proto__") H).
Defined.

(** ** The shared state of the effect *)

Lemma step_abortedWhenCancelled s e :
  abortedWhenCancelled s -> abortedWhenCancelled (step s e).
Proof.
  intros Hinv.
  assert (Hclean : forall i r, runCleanup s !! i = Some r -> aborted r = cancelled r).
  { intros i r. unfold runCleanup. destruct (current s) as [c|]; [|apply Hinv].
    destruct (decide (c = i)) as [->|Hne].
    - rewrite list_lookup_alter_eq. destruct (runs s !! i); [|discriminate].
      now intros [= <-].
    - rewrite list_lookup_alter_ne by assumption. apply Hinv. }
  destruct e as [deps|i how]; cbn [step].
  - destruct (negb (strEq _ _)); [exact Hclean|].
    destruct (negb _ && negb _); [exact Hclean|].
    destruct (isEmpty _ && isEmpty _ && isEmpty _ && isEmpty _); [exact Hclean|].
    intros i r Hr. cbn [runs] in Hr.
    apply lookup_app_Some in Hr as [Hr|[_ Hr]]; [now apply (Hclean i)|].
    destruct (i - length (runCleanup s)) as [|n]; [|discriminate].
    now injection Hr as <-.
  - destruct (runs s !! i) as [r|] eqn:Hr; [|exact Hinv].
    destruct (resume r how (shared s)) as [[sh ph]|]; [|exact Hinv].
    intros j r' Hr'. cbn [runs] in Hr'.
    destruct (decide (i = j)) as [->|Hij].
    + rewrite list_lookup_insert_eq in Hr' by (eapply lookup_lt_Some; eassumption).
      injection Hr' as <-. cbn [aborted cancelled]. now apply (Hinv j).
    + rewrite list_lookup_insert_ne in Hr' by assumption. now apply (Hinv j).
Qed.

Lemma reachable_abortedWhenCancelled trace :
  abortedWhenCancelled (execute init trace).
Proof.
  unfold execute.
  assert (H : forall s, abortedWhenCancelled s ->
                        abortedWhenCancelled (fold_left step trace s)).
  { induction trace as [|e tr IH]; intros s Hs; [exact Hs|].
    cbn [fold_left]. apply IH, step_abortedWhenCancelled, Hs. }
  apply H. intros i r Hr. now destruct i.
Qed.

Lemma step_sharedConsistent s e :
  onlyCurrentLive s -> sharedConsistent s -> sharedConsistent (step s e).
Proof.
  intros Hlive Hs. pose proof Hs as (Hcur & Htok & Hpend & Herr).
  destruct e as [deps|i how].
  - assert (Hguard : sharedConsistent
              {| shared := cleared; runs := runCleanup s; current := None |}).
    { split; [discriminate|]. split; [|split]; cbn [shared current cleared
        isTokenizing tokenizeError exactTokens].
      - split; [discriminate|]. intros (i & r & Hc & _). discriminate.
      - reflexivity.
      - congruence. }
    cbn [step].
    destruct (negb (strEq _ _)); [exact Hguard|].
    destruct (negb _ && negb _); [exact Hguard|].
    destruct (isEmpty _ && isEmpty _ && isEmpty _ && isEmpty _); [exact Hguard|].
    assert (Hnew : (runCleanup s ++ [{| cancelled := false; aborted := false;
                                        phase := AwaitFetch |}])
                     !! length (runCleanup s)
                   = Some {| cancelled := false; aborted := false;
                             phase := AwaitFetch |}).
    { rewrite lookup_app_r by lia. now rewrite Nat.sub_diag. }
    split; [|split; [|split]]; cbn [shared current runs setTokenizeError
      setIsTokenizing isTokenizing tokenizeError exactTokens].
    + intros i r [= <-]. rewrite Hnew. now intros [= <-].
    + split; [|reflexivity]. intros _. eexists _, _.
      split; [reflexivity|]. split; [exact Hnew|discriminate].
    + reflexivity.
    + congruence.
  - cbn [step]. destruct (runs s !! i) as [r|] eqn:Hr; [|exact Hs].
    destruct (resume r how (shared s)) as [[sh ph]|] eqn:Hres; [|exact Hs].
    destruct (decide (current s = Some i)) as [Hi|Hi].
    + (* the current instance continues *)
      pose proof (Hcur i r Hi Hr) as Hc.
      assert (Hwas : pending s).
      { exists i, r. split; [exact Hi|]. split; [exact Hr|].
        intros Hph. unfold resume in Hres. rewrite Hph in Hres. discriminate. }
      pose proof (proj2 Htok Hwas) as Htrue. pose proof (Hpend Hwas) as Hnoerr.
      assert (Hlt : i < length (runs s)) by (eapply lookup_lt_Some; eassumption).
      assert (Hpending' : forall ph', 
                pending {| shared := sh;
                           runs := <[i := {| cancelled := cancelled r;
                                             aborted := aborted r; phase := ph' |}]> (runs s);
                           current := current s |} <-> ph' <> Finished).
      { intros ph'. split.
        - intros (j & r' & Hj & Hr' & Hph). cbn [current runs] in *.
          rewrite Hi in Hj. injection Hj as <-.
          rewrite list_lookup_insert_eq in Hr' by assumption.
          injection Hr' as <-. exact Hph.
        - intros Hph. exists i, {| cancelled := cancelled r; aborted := aborted r;
                                   phase := ph' |}.
          cbn [current runs phase]. split; [exact Hi|].
          split; [now apply list_lookup_insert_eq|exact Hph]. }
      split; [|split; [|split]]; cbn [shared current runs].
      * intros j r' Hj. rewrite Hi in Hj. injection Hj as <-.
        rewrite list_lookup_insert_eq by assumption. now intros [= <-].
      * rewrite Hpending'. unfold resume, finally in Hres. rewrite Hc in Hres.
        cbn [negb orb] in Hres.
        destruct (phase r), how; try discriminate; injection Hres as <- <-;
          try (split; [intros _; discriminate|intros _; exact Htrue]);
          try destruct abortError;
          cbn [setIsTokenizing setTokenizeError setExactTokens isTokenizing];
          (split; [discriminate|congruence]).
      * rewrite Hpending'. unfold resume, finally in Hres. rewrite Hc in Hres.
        cbn [negb orb] in Hres.
        destruct (phase r), how; try discriminate; injection Hres as <- <-;
          try (intros _; exact Hnoerr); congruence.
      * unfold resume, finally in Hres. rewrite Hc in Hres.
        cbn [negb orb] in Hres.
        destruct (phase r), how; try discriminate; injection Hres as <- <-;
          try destruct abortError;
          cbn [setIsTokenizing setTokenizeError setExactTokens isTokenizing
               tokenizeError exactTokens];
          try reflexivity; try (intros H; now rewrite Hnoerr in H);
          try exact Herr.
    + (* an instance that has been superseded continues *)
      destruct Hlive as [_ Hinv]. pose proof (Hinv i r Hr Hi) as Hc.
      pose proof (resume_cancelled _ _ _ _ _ Hc Hres) as ->.
      assert (Hsame : forall j, current s = Some j ->
                <[i := {| cancelled := cancelled r; aborted := aborted r;
                          phase := ph |}]> (runs s) !! j = runs s !! j).
      { intros j Hj. apply list_lookup_insert_ne. congruence. }
      assert (Hpending' :
                pending {| shared := shared s;
                           runs := <[i := {| cancelled := cancelled r;
                                             aborted := aborted r; phase := ph |}]> (runs s);
                           current := current s |} <-> pending s).
      { split; intros (j & r' & Hj & Hr' & Hph); exists j, r';
          cbn [current runs] in *; (split; [exact Hj|]); (split; [|exact Hph]).
        - now rewrite <- (Hsame j Hj).
        - now rewrite (Hsame j Hj). }
      split; [|split; [|split]]; cbn [shared current runs].
      * intros j r' Hj. rewrite (Hsame j Hj). now apply Hcur.
      * now rewrite Hpending'.
      * now rewrite Hpending'.
      * exact Herr.
Qed.

Lemma reachable_sharedConsistent trace : sharedConsistent (execute init trace).
Proof.
  unfold execute.
  assert (H : forall s, onlyCurrentLive s -> sharedConsistent s ->
                        sharedConsistent (fold_left step trace s)).
  { induction trace as [|e tr IH]; intros s Hl Hs; [exact Hs|].
    cbn [fold_left]. apply IH; [now apply step_preserves|now apply step_sharedConsistent]. }
  apply H.
  - apply (reachable_onlyCurrentLive []).
  - split; [discriminate|]. split; [|split]; cbn.
    + split; [discriminate|]. intros (i & r & Hc & _). discriminate.
    + reflexivity.
    + congruence.
Qed.

(** X19: in every state the page reaches, [isTokenizing] is true exactly
    while the request of the current effect instance has not finished. *)
Theorem isTokenizing_iff_request_pending (trace : list Event) :
  isTokenizing (shared (execute init trace)) = true
  <-> pending (execute init trace).
Proof. apply (reachable_sharedConsistent trace). Qed.

(** X20: in every state the page reaches, a tokenization error is never
    shown beside exact tokens: while the error is not empty, the exact
    tokens are. *)
Theorem tokenizeError_excludes_exactTokens (trace : list Event) :
  tokenizeError (shared (execute init trace)) <> [] ->
  exactTokens (shared (execute init trace)) = [].
Proof. apply (reachable_sharedConsistent trace). Qed.

Lemma tokenizeError_excludes_exactTokens_witness :
  tokenizeError (shared (execute init
    [Rerun (sample_deps "1"); Settle 0 FetchNotOk;
     Settle 0 (ErrorBodyParsed None)])) <> []
  /\ exactTokens (shared (execute init
    [Rerun (sample_deps "1"); Settle 0 FetchNotOk;
     Settle 0 (ErrorBodyParsed None)])) = [].
Proof.
  assert (H : tokenizeError (shared (execute init
    [Rerun (sample_deps "1"); Settle 0 FetchNotOk;
     Settle 0 (ErrorBodyParsed None)])) <> []) by (vm_compute; discriminate).
  split; [exact H|].
  exact (tokenizeError_excludes_exactTokens _ H).
Defined.

Lemma settles_keep_cleared settles :
  forall s,
    forallb isSettle settles = true ->
    current s = None ->
    (forall i r, runs s !! i = Some r -> cancelled r = true) ->
    shared (fold_left step settles s) = shared s.
Proof.
  induction settles as [|e tl IH]; intros s Hall Hcur Hcanc; [reflexivity|].
  cbn [forallb] in Hall. apply andb_prop in Hall as [He Htl].
  destruct e as [deps|i how]; [discriminate|].
  cbn [fold_left step].
  destruct (runs s !! i) as [r|] eqn:Hr; [|now apply IH].
  destruct (resume r how (shared s)) as [[sh ph]|] eqn:Hres; [|now apply IH].
  rewrite IH; cbn [shared current runs]; try assumption.
  - eapply resume_cancelled; [|eassumption]. eapply Hcanc; eassumption.
  - intros j r' Hr'. destruct (decide (i = j)) as [->|Hij].
    + rewrite list_lookup_insert_eq in Hr' by (eapply lookup_lt_Some; eassumption).
      injection Hr' as <-. cbn [cancelled]. eapply Hcanc; eassumption.
    + rewrite list_lookup_insert_ne in Hr' by assumption. eapply Hcanc; eassumption.
Qed.

(** X21: once the effect has run with an unsupported model, with neither
    tokens nor counts shown, or with all four texts empty, the shared state
    is the cleared one and stays so whatever responses of earlier requests
    arrive, until the effect runs again. *)
Theorem no_request_state_stays_cleared (trace : list Event) (deps : Deps)
    (settles : list Event) :
  issuesNoRequest deps = true -> forallb isSettle settles = true ->
  shared (execute init (trace ++ Rerun deps :: settles)) = cleared.
Proof.
  intros Hno Hall. unfold execute. rewrite fold_left_app. cbn [fold_left].
  fold (execute init trace).
  pose proof (reachable_onlyCurrentLive trace) as Hlive.
  assert (Hstep : step (execute init trace) (Rerun deps)
                  = {| shared := cleared; runs := runCleanup (execute init trace);
                       current := None |}).
  { cbn [step]. unfold issuesNoRequest in Hno.
    destruct (negb (strEq _ _)); [reflexivity|].
    destruct (negb _ && negb _); [reflexivity|].
    cbn [orb] in Hno. now rewrite Hno. }
  rewrite Hstep, settles_keep_cleared; [reflexivity|assumption|reflexivity|].
  cbn [runs]. intros i r Hr. eapply runCleanup_all_cancelled; eassumption.
Qed.

Lemma no_request_state_stays_cleared_witness :
  shared (execute init
    (superseding_trace
       ++ Rerun hidden_deps :: [Settle 1 FetchOk;
                                Settle 1 (BodyParsed (Some fresh_tokens))]))
  = cleared.
Proof.
  apply (no_request_state_stays_cleared superseding_trace hidden_deps);
    reflexivity.
Defined.

(** X22: in every state the page reaches, the request of an effect
    instance has been aborted exactly when the instance is no longer the
    current one, and then its [cancelled] flag is set as well. *)
Theorem request_aborted_iff_superseded (trace : list Event) (i : nat) (r : Run) :
  runs (execute init trace) !! i = Some r ->
  (aborted r = true <-> current (execute init trace) <> Some i)
  /\ cancelled r = aborted r.
Proof.
  intros Hr.
  pose proof (reachable_abortedWhenCancelled trace i r Hr) as Hab.
  destruct (reachable_onlyCurrentLive trace) as [_ Hlive].
  destruct (reachable_sharedConsistent trace) as [Hcur _].
  split; [|now symmetry]. rewrite Hab. split.
  - intros Hc Hi. rewrite (Hcur i r Hi Hr) in Hc. discriminate.
  - apply (Hlive i r Hr).
Qed.

Lemma request_aborted_iff_superseded_witness :
  let r := {| cancelled := true; aborted := true; phase := AwaitBody |} in
  runs (execute init superseding_trace) !! 0 = Some r
  /\ (aborted r = true <-> current (execute init superseding_trace) <> Some 0).
Proof.
  cbv zeta.
  assert (H : runs (execute init superseding_trace) !! 0
              = Some {| cancelled := true; aborted := true; phase := AwaitBody |})
    by (vm_compute; reflexivity).
  split; [exact H|].
  apply (request_aborted_iff_superseded superseding_trace 0 _ H).
Defined.

(** ** Errors of the parse/convert step *)

(** The step always comes to its outputs: the recursion bounds of the
    models of [JSON.parse] and [JSON.stringify] are not reached. *)
Lemma convert_returns encodeToon jsonToToml syntaxErrorMessage
    (cfg : Config) (input : jsstring) :
  exists o, convert encodeToon jsonToToml syntaxErrorMessage cfg input = Some o.
Proof.
  unfold convert. destruct (isEmpty (trim input)); [eauto|].
  pose proof (JSON_parse_bounded input) as Hb.
  destruct (JSON_parse input) as [parsed| |]; [|eauto|congruence].
  rewrite !jsonStringify_total. cbn [mbind option_bind].
  destruct (jsonToToml parsed _) as [tomlText|[message|]]; eauto.
Qed.

(** X23: the step never gives an error together with an output: it gives
    outputs on every input, and when their error is not empty, all five
    outputs are. *)
Theorem convert_error_excludes_outputs encodeToon jsonToToml syntaxErrorMessage
    (cfg : Config) (input : jsstring) :
  exists o,
    convert encodeToon jsonToToml syntaxErrorMessage cfg input = Some o
    /\ (error o <> [] ->
        Convert.prettyJson o = [] /\ Convert.minifiedJson o = []
        /\ Convert.yaml o = [] /\ Convert.toon o = [] /\ toml o = []).
Proof.
  destruct (convert_returns encodeToon jsonToToml syntaxErrorMessage cfg input)
    as [o Ho].
  exists o. split; [exact Ho|]. revert Ho.
  unfold convert. destruct (isEmpty (trim input)).
  { intros [= <-]. now repeat split. }
  destruct (JSON_parse input) as [parsed| |]; try discriminate.
  - destruct (jsonStringify parsed _ (SpaceNumber 2)) as [pretty|]; [|discriminate].
    cbn [mbind option_bind].
    destruct (jsonStringify parsed _ SpaceUndefined) as [minified|]; [|discriminate].
    cbn [mbind option_bind].
    destruct (jsonToToml parsed _) as [tomlText|[message|]]; intros [= <-];
      cbn [error]; try congruence; now repeat split.
  - intros [= <-]. now repeat split.
Qed.

Lemma convert_error_excludes_outputs_witness :
  let o := blank (str "Unexpected end of JSON input") in
  convert constantToon constantToml sampleMessage sample_config unclosed_input
  = Some o
  /\ error o <> []
  /\ Convert.prettyJson o = [] /\ Convert.minifiedJson o = [] /\ Convert.yaml o = []
  /\ Convert.toon o = [] /\ toml o = [].
Proof.
  cbv zeta.
  destruct (convert_error_excludes_outputs constantToon constantToml sampleMessage
              sample_config unclosed_input) as (o & Ho & H).
  assert (Eo : o = blank (str "Unexpected end of JSON input")).
  { vm_compute in Ho. injection Ho as <-. reflexivity. }
  subst o. split; [exact Ho|]. split; [discriminate|].
  apply H. discriminate.
Defined.

(** X24: a TOON encoder that throws changes nothing but the TOON output,
    which is then empty: the step gives outputs with any encoder, and
    with one that throws the same error and the same four other
    outputs. *)
Theorem toon_failure_empties_only_toon encodeToon failing jsonToToml
    syntaxErrorMessage (cfg : Config) (input : jsstring) :
  (forall v d k, exists message, failing v d k = Threw message) ->
  exists o,
    convert encodeToon jsonToToml syntaxErrorMessage cfg input = Some o
    /\ convert failing jsonToToml syntaxErrorMessage cfg input
       = Some (withToon [] o).
Proof.
  intros Hfail.
  destruct (convert_returns encodeToon jsonToToml syntaxErrorMessage cfg input)
    as [o Ho].
  exists o. split; [exact Ho|]. revert Ho.
  unfold convert. destruct (isEmpty (trim input)); [now intros [= <-]|].
  destruct (JSON_parse input) as [parsed| |]; try discriminate;
    [|now intros [= <-]].
  destruct (jsonStringify parsed _ (SpaceNumber 2)) as [pretty|]; [|discriminate].
  cbn [mbind option_bind].
  destruct (jsonStringify parsed _ SpaceUndefined) as [minified|]; [|discriminate].
  cbn [mbind option_bind].
  unfold toToonEncoding at 2.
  destruct (Hfail parsed (toonDelimiter cfg) (toonKeyFolding cfg)) as [m ->].
  destruct (jsonToToml parsed _) as [tomlText|[message|]]; now intros [= <-].
Qed.

Lemma toon_failure_empties_only_toon_witness :
  convert constantToon constantToml sampleMessage sample_config number_input
  = Some {| error := []; Convert.prettyJson := str "1";
            Convert.minifiedJson := str "1"; Convert.yaml := str "1";
            Convert.toon := str "toon"; toml := str "toml" |}
  /\ convert failingToon constantToml sampleMessage sample_config number_input
     = Some {| error := []; Convert.prettyJson := str "1";
               Convert.minifiedJson := str "1"; Convert.yaml := str "1";
               Convert.toon := []; toml := str "toml" |}.
Proof.
  destruct (toon_failure_empties_only_toon constantToon failingToon constantToml
              sampleMessage sample_config number_input) as (o & Ho & H).
  - intros v d k. now eexists.
  - assert (Eo : o = {| error := []; Convert.prettyJson := str "1";
                        Convert.minifiedJson := str "1"; Convert.yaml := str "1";
                        Convert.toon := str "toon"; toml := str "toml" |}).
    { vm_compute in Ho. injection Ho as <-. reflexivity. }
    subst o. split; [exact Ho|exact H].
Defined.

(** X25: a TOML converter that throws empties every output, those of the
    other formats included, although the input is valid JSON: the step
    gives outputs, and all five are empty. *)
Theorem toml_failure_empties_all encodeToon jsonToToml syntaxErrorMessage
    (cfg : Config) (input : jsstring) :
  (forall v tokenAware, exists message, jsonToToml v tokenAware = Threw message) ->
  exists o,
    convert encodeToon jsonToToml syntaxErrorMessage cfg input = Some o
    /\ Convert.prettyJson o = [] /\ Convert.minifiedJson o = []
    /\ Convert.yaml o = [] /\ Convert.toon o = [] /\ toml o = [].
Proof.
  intros Hfail.
  destruct (convert_returns encodeToon jsonToToml syntaxErrorMessage cfg input)
    as [o Ho].
  exists o. split; [exact Ho|]. revert Ho.
  unfold convert. destruct (isEmpty (trim input)).
  { intros [= <-]. now repeat split. }
  destruct (JSON_parse input) as [parsed| |]; try discriminate.
  - destruct (jsonStringify parsed _ (SpaceNumber 2)) as [pretty|]; [|discriminate].
    cbn [mbind option_bind].
    destruct (jsonStringify parsed _ SpaceUndefined) as [minified|]; [|discriminate].
    cbn [mbind option_bind].
    destruct (Hfail parsed (showTokenAware cfg)) as [m ->].
    destruct m; intros [= <-]; now repeat split.
  - intros [= <-]. now repeat split.
Qed.

Lemma toml_failure_empties_all_witness :
  let o := blank (str "Invalid JSON") in
  JSON_parse fraction_input = Parsed (JNumber (Binary false 5623870034678907 (-49)))
  /\ convert constantToon failingToml sampleMessage sample_config fraction_input
     = Some o
  /\ Convert.prettyJson o = [] /\ Convert.minifiedJson o = [] /\ Convert.yaml o = []
  /\ Convert.toon o = [] /\ toml o = [].
Proof.
  cbv zeta. split; [vm_compute; reflexivity|].
  destruct (toml_failure_empties_all constantToon failingToml sampleMessage
              sample_config fraction_input
              (fun v b => ex_intro _ None eq_refl)) as (o & Ho & H).
  assert (Eo : o = blank (str "Invalid JSON")).
  { vm_compute in Ho. injection Ho as <-. reflexivity. }
  subst o. split; [exact Ho|exact H].
Defined.

(** ** YAML-lite *)

Lemma quoteBody_no_newline n :
  forall s, length s <= n -> includesNewline (quoteBody s) = false.
Proof.
  assert (Hhex : forall d, (10 =? hexDigit d)%N = false).
  { intros d. apply N.eqb_neq. unfold hexDigit. destruct (d <? 10)%N; lia. }
  assert (Huni : forall c rest,
            includesNewline (unicodeEscape c ++ rest) = includesNewline rest).
  { intros c rest. unfold unicodeEscape, includesNewline. cbn [app existsb].
    now rewrite !Hhex. }
  induction n as [|n IH]; intros s Hn.
  { destruct s; [reflexivity|cbn in Hn; lia]. }
  destruct s as [|c tl]; [reflexivity|]. cbn [length] in Hn.
  cbn [quoteBody]. destruct (isHighSurrogate c) eqn:Hh.
  - destruct tl as [|d tl'].
    + rewrite <- (app_nil_r (unicodeEscape c)). now rewrite Huni.
    + destruct (isLowSurrogate d) eqn:Hl.
      * unfold includesNewline. cbn [existsb].
        unfold isHighSurrogate, isLowSurrogate, inRange in Hh, Hl.
        apply andb_prop in Hh as [Hh _]. apply andb_prop in Hl as [Hl _].
        apply N.leb_le in Hh, Hl.
        assert ((10 =? c)%N = false) as -> by (apply N.eqb_neq; lia).
        assert ((10 =? d)%N = false) as -> by (apply N.eqb_neq; lia).
        cbn [orb]. apply IH. cbn [length] in Hn. lia.
      * rewrite Huni. apply IH. lia.
  - destruct (isLowSurrogate c).
    + rewrite Huni. apply IH. lia.
    + assert (He : forall rest,
                includesNewline (escapeUnit c ++ rest) = includesNewline rest).
      { intros rest. unfold escapeUnit.
        repeat match goal with
               | |- context [if (c =? ?k)%N then _ else _] =>
                   destruct (N.eqb_spec c k); [reflexivity|]
               end.
        destruct (c <? 32)%N; [apply Huni|].
        unfold includesNewline. cbn [app existsb].
        assert ((10 =? c)%N = false) as -> by (apply N.eqb_neq; lia).
        reflexivity. }
      rewrite He. apply IH. lia.
Qed.

Lemma uintToString_no_newline u : includesNewline (uintToString u) = false.
Proof. induction u; cbn [uintToString]; try exact IHu; reflexivity. Qed.

(** X26: a value that is neither an array nor an object is written on one
    line, whatever a string holds. *)
Theorem jsonToYamlLite_scalar_on_one_line (v : value) (indent : nat)
    (tokenAware : bool) :
  isScalar v = true ->
  includesNewline (jsonToYamlLite v indent tokenAware) = false.
Proof.
  destruct v as [| [|] | [z|[|]|neg m e] | s | items | props]; try discriminate;
    intros _; try reflexivity.
  - cbn [jsonToYamlLite Number_toString]. unfold digits.
    destruct (z <? 0)%Z; [unfold includesNewline; cbn [existsb]|];
      apply uintToString_no_newline.
  - cbn [jsonToYamlLite]. unfold includesNewline.
    apply not_true_is_false. intros Hex.
    apply existsb_exists in Hex as (c & Hin & Hc). apply N.eqb_eq in Hc. subst c.
    pose proof (Number_toString_binary_forallb (fun c => negb (c =? 10)%N) neg m e)
      as Hall.
    rewrite forallb_forall in Hall.
    specialize (Hall ltac:(intros c Hc; rewrite (isDigit_not c 10 Hc); [reflexivity|lia])
                     eq_refl eq_refl eq_refl eq_refl _ Hin).
    discriminate.
  - cbn [jsonToYamlLite].
    destruct (tokenAware && testBareWord s && negb (isReservedYamlWord s)) eqn:E.
    + apply andb_prop in E as [E _]. apply andb_prop in E as [_ E].
      unfold testBareWord in E. apply andb_prop in E as [_ E].
      unfold includesNewline. apply not_true_is_false. intros Hex.
      apply existsb_exists in Hex as (c & Hin & Hc). apply N.eqb_eq in Hc. subst c.
      rewrite forallb_forall in E. specialize (E _ Hin). discriminate.
    + unfold QuoteJSONString, includesNewline. cbn [existsb].
      rewrite existsb_app. cbn [existsb orb].
      rewrite orb_false_r. apply (quoteBody_no_newline (length s)). lia.
Qed.

Lemma jsonToYamlLite_scalar_on_one_line_witness :
  includesNewline (jsonToYamlLite (JString [97; 10; 98]%N) 0 false) = false.
Proof. apply jsonToYamlLite_scalar_on_one_line. reflexivity. Defined.

Lemma join_nonempty (sep p : jsstring) (rest : list jsstring) :
  p <> [] -> join sep (p :: rest) <> [].
Proof.
  intros Hp. cbn [join]. destruct rest; [exact Hp|].
  destruct p; [congruence|discriminate].
Qed.

Lemma digits_nonempty n : digits n <> [].
Proof. destruct (digits_cases n) as [->|(c & tl & -> & _)]; discriminate. Qed.

(** X27: YAML-lite never writes the empty string. *)
Theorem jsonToYamlLite_not_empty (v : value) (indent : nat) (tokenAware : bool) :
  jsonToYamlLite v indent tokenAware <> [].
Proof.
  destruct v as [| [|] | [z|[|]|neg m e] | s | [|x items] | [|kv props]];
    try discriminate.
  - cbn [jsonToYamlLite Number_toString].
    destruct (z <? 0)%Z; [discriminate|apply digits_nonempty].
  - cbn [jsonToYamlLite].
    destruct (Number_toString_binary_head neg m e) as (c & tl & -> & _).
    discriminate.
  - cbn [jsonToYamlLite].
    destruct (tokenAware && testBareWord s && negb (isReservedYamlWord s)) eqn:E;
      [|discriminate].
    apply andb_prop in E as [E _]. apply andb_prop in E as [_ E].
    unfold testBareWord in E. destruct s; [discriminate|discriminate].
  - cbn [jsonToYamlLite map]. apply join_nonempty.
    destruct (_ && _ && _); intros H; apply app_eq_nil in H as [_ H]; discriminate.
  - cbn [jsonToYamlLite map]. apply join_nonempty.
    destruct (_ && _); intros H; apply app_eq_nil in H as [_ H];
      apply app_eq_nil in H as [_ H]; discriminate.
Qed.

(** X28: the token-aware mode of YAML-lite changes string values that are
    safe bare words and nothing else: on a value none of whose string
    values is one, both modes write the same text. *)
Theorem jsonToYamlLite_tokenAware_only_bare_words (v : value) (indent : nat) :
  noBareWords v = true ->
  jsonToYamlLite v indent true = jsonToYamlLite v indent false.
Proof.
  revert indent.
  induction v as [| b | n | s | items IH | props IH] using value_induction;
    intros indent Hno; try reflexivity.
  - cbn [noBareWords] in Hno. unfold isSafeBareWord in Hno.
    cbn [jsonToYamlLite andb]. apply negb_true_iff in Hno. now rewrite Hno.
  - cbn [noBareWords] in Hno. cbn [jsonToYamlLite].
    destruct items as [|x items]; [reflexivity|]. f_equal.
    apply map_ext_in. intros item Hin.
    rewrite List.Forall_forall in IH. rewrite forallb_forall in Hno.
    now rewrite (IH item Hin (indent + 1) (Hno item Hin)).
  - cbn [noBareWords] in Hno. cbn [jsonToYamlLite].
    destruct props as [|kv props]; [reflexivity|]. f_equal.
    apply map_ext_in. intros item Hin.
    rewrite List.Forall_forall in IH. rewrite forallb_forall in Hno.
    now rewrite (IH item Hin (indent + 1) (Hno item Hin)).
Qed.

Lemma jsonToYamlLite_tokenAware_only_bare_words_witness :
  jsonToYamlLite quoted_words 0 true = jsonToYamlLite quoted_words 0 false.
Proof. apply jsonToYamlLite_tokenAware_only_bare_words. reflexivity. Defined.

(** ** Token-aware JSON without marker text *)

Lemma join_length_le sep (l1 l2 : list jsstring) :
  Forall2 (fun a b => length a <= length b) l1 l2 ->
  length (join sep l1) <= length (join sep l2).
Proof.
  induction 1 as [|a b l1 l2 Hab Hl IH]; [reflexivity|].
  destruct Hl as [|a' b' l1' l2' Hab' Hl']; [exact Hab|].
  change (join sep (a :: a' :: l1')) with (a ++ sep ++ join sep (a' :: l1')).
  change (join sep (b :: b' :: l2')) with (b ++ sep ++ join sep (b' :: l2')).
  rewrite !length_app. lia.
Qed.

Lemma wrap_length_le open close gap stepback indent (l1 l2 : list jsstring) :
  Forall2 (fun a b => length a <= length b) l1 l2 ->
  length (wrap open close gap stepback indent l1)
  <= length (wrap open close gap stepback indent l2).
Proof.
  intros H. pose proof (join_length_le [44%N] _ _ H) as Hc.
  pose proof (join_length_le ([44; 10]%N ++ indent) _ _ H) as Hn.
  unfold wrap. destruct H as [|a b l1 l2 Hab Hl]; [reflexivity|].
  destruct (isEmpty gap); rewrite !length_app; lia.
Qed.

Lemma quoteBare_length s : length (quoteBare s) <= length (QuoteJSONString s).
Proof.
  unfold quoteBare. destruct (isSafeBareWord s); [|reflexivity].
  pose proof (QuoteJSONString_length s). lia.
Qed.

Lemma serialize_quoteBare_length v :
  forall gap indent,
    length (serialize quoteBare gap indent v)
    <= length (serialize QuoteJSONString gap indent v).
Proof.
  induction v as [| b | n | s | items IH | props IH] using value_induction;
    intros gap indent; try reflexivity.
  - apply quoteBare_length.
  - cbn [serialize]. apply wrap_length_le.
    induction IH as [|x tl Hx _ IHl]; cbn [map]; constructor; auto.
  - cbn [serialize]. apply wrap_length_le.
    induction IH as [|x tl Hx _ IHl]; cbn [map]; constructor; auto.
    rewrite !length_app. specialize (Hx gap (indent ++ gap)). lia.
Qed.

(** X29: on a value whose strings and keys hold no marker text, the
    token-aware JSON is the standard JSON with the safe bare words left
    unquoted, and it is never longer than the standard JSON. *)
Theorem jsonStringify_tokenAware_without_marker (v : value) (space : Space) :
  markerFree v = true -> noQuote (gapOf space) = true ->
  jsonStringify v true space = Some (specTokenAwareJson v space)
  /\ jsonStringify v false space = Some (standardJson v space)
  /\ length (specTokenAwareJson v space) <= length (standardJson v space).
Proof.
  intros Hfree Hgap. split; [now apply jsonStringify_tokenAware_agrees|].
  split; [apply (jsonStringify_total v false)|].
  apply serialize_quoteBare_length.
Qed.

Lemma jsonStringify_tokenAware_without_marker_witness :
  jsonStringify bare_and_quoted true SpaceUndefined
  = Some (str "[word," ++ quoted "two words" ++ str "]")
  /\ jsonStringify bare_and_quoted false SpaceUndefined
     = Some (str "[" ++ quoted "word" ++ str "," ++ quoted "two words" ++ str "]").
Proof.
  destruct (jsonStringify_tokenAware_without_marker bare_and_quoted SpaceUndefined)
    as (-> & -> & _); [reflexivity|reflexivity|].
  split; reflexivity.
Defined.
